(** * HOT BOTTLE storyboard generator: asset pipeline

    A shallow embedding of the asset-generation pipeline of the application
    component ([decode], [pcmToWav], [handleGenerate], [scriptToText],
    [handleDownloadZip], with the script types of [types.ts]) and of the
    premise fetcher of [services/geminiService.ts] ([getDailyVariable],
    [fetchDescriptionFromRSS], [fetchStoryElements], [constructFinalPrompt]).
    The pipeline is stated over a class [Platform] of services.  The
    functions of [geminiService.ts] that call the generative models
    ([generateStory], [createImagePromptFromAction], [generateImage],
    [generateSpeech]) and the body of [fetchDescriptionFromRSS] are embedded
    in the modules [Gemini] and [Rss], over [generateContent], [fetch] and
    the parsers of the browser; [livePlatform] wires them into the pipeline
    as the source does.  Of the other handlers of the component,
    [handleFetchPremise] and [handleStartOver] are embedded in full and
    [handleCharacterImageUpload] in the name it files an image under.

    Conventions of the embedding.
    - JavaScript strings are [string]s: sequences of code units below 256,
      read as Latin-1.  [trim] removes the white space of the language in
      that range (TAB to CR, SPACE and the no-break space U+00A0) and
      [toLowerCase] maps the capital letters of that range (A to Z, U+00C0 to
      U+00DE without the multiplication sign).  [toUpperCase] leaves the
      range (for U+00B5 and U+00FF) and lengthens U+00DF: it is a field of
      [Platform], known on ASCII strings.
    - JavaScript numbers that hold counts and indices are [nat]; numbers that
      are written to binary fields are [Z], and the one place where the
      source divides ([bitsPerSample / 8]) is computed in [Q].  Doubles are
      exact on every integer below [2^53] and on such integers divided by 8:
      the products of [pcmToWav] are those of the source as long as they stay
      below [2^53], which is where the properties of the header are stated.
    - A byte is a [Z] in [[0, 256)]; a [Uint8Array], an [ArrayBuffer] and the
      contents of a [Blob] are [list Z].
    - Plain objects used as dictionaries ([characterVoices],
      [assignedGenders], [characterImages]) are [gmap string _], which holds
      their own properties; they are read with [getProperty], which finds the
      properties inherited from [Object.prototype] under the names that the
      object does not define itself.
    - Exceptions are the [Throw] case of [Result]; the remote services, the
      platform's regular expression engine and the archive library are fields
      of the class [Platform], and every request made to a remote service is
      logged. *)

From Stdlib Require Import ZArith QArith String Ascii List Lia Permutation.
From stdpp Require Import base option list strings gmap pretty sorting.

Open Scope string_scope.
Open Scope list_scope.
Open Scope nat_scope.
Open Scope stdpp_scope.

(** ** Exceptions *)

Inductive Result (A : Type) : Type :=
  | Ok (a : A)
  | Throw (message : string).
Arguments Ok {A} a.
Arguments Throw {A} message.

Definition isOk {A} (r : Result A) : bool :=
  match r with Ok _ => true | Throw _ => false end.

Definition bindR {A B} (r : Result A) (k : A → Result B) : Result B :=
  match r with
  | Ok a => k a
  | Throw m => Throw m
  end.

(** ** Plain objects used as dictionaries

    An object literal inherits from [Object.prototype]: under these names a
    read finds a function (or, for [__proto__], the prototype itself) unless
    the object defines the name itself. *)

Definition Object_prototype : list string :=
  ["constructor"; "__defineGetter__"; "__defineSetter__"; "hasOwnProperty";
   "__lookupGetter__"; "__lookupSetter__"; "isPrototypeOf"; "propertyIsEnumerable";
   "toString"; "valueOf"; "__proto__"; "toLocaleString"].

(** What [object[name]] reads. *)
Inductive Property (V : Type) : Type :=
  | Own (value : V)
  | Inherited (name : string)
  | Undefined.
Arguments Own {V} value.
Arguments Inherited {V} name.
Arguments Undefined {V}.

Global Instance Property_eq_dec {V} `{EqDecision V} : EqDecision (Property V).
Proof. solve_decision. Defined.

(** [object[name]] *)
Definition getProperty {V} (object : gmap string V) (name : string) : Property V :=
  match object !! name with
  | Some value => Own value
  | None => if bool_decide (name ∈ Object_prototype) then Inherited name else Undefined
  end.

(** Truthiness of what was read: an inherited property is a function or an
    object, which is truthy; [undefined] is falsy. *)
Definition truthyProperty {V} (truthyValue : V → bool) (p : Property V) : bool :=
  match p with
  | Own value => truthyValue value
  | Inherited _ => true
  | Undefined => false
  end.

(** [p?.member], for a member that the properties of [Object.prototype] do
    not have. *)
Definition optionalMember {V A} (member : V → A) (p : Property V) : option A :=
  match p with
  | Own value => Some (member value)
  | Inherited _ | Undefined => None
  end.

(** ** Strings *)

Module Str.

Definition isUpper (c : ascii) : bool :=
  let n := nat_of_ascii c in (65 <=? n) && (n <=? 90).

Definition isLower (c : ascii) : bool :=
  let n := nat_of_ascii c in (97 <=? n) && (n <=? 122).

(** The capital letters of Latin-1 above ASCII: U+00C0 to U+00DE without the
    multiplication sign U+00D7. *)
Definition isLatin1Upper (c : ascii) : bool :=
  let n := nat_of_ascii c in
  ((192 <=? n) && (n <=? 214)) || ((216 <=? n) && (n <=? 222)).

Definition lowerChar (c : ascii) : ascii :=
  if isUpper c || isLatin1Upper c then ascii_of_nat (nat_of_ascii c + 32) else c.

Definition upperChar (c : ascii) : ascii :=
  if isLower c then ascii_of_nat (nat_of_ascii c - 32) else c.

Fixpoint mapChars (f : ascii → ascii) (s : string) : string :=
  match s with
  | EmptyString => EmptyString
  | String c s' => String (f c) (mapChars f s')
  end.

(** [s.toLowerCase()] *)
Definition toLowerCase : string → string := mapChars lowerChar.

(** The code units of [s] are all below 128. *)
Fixpoint isAscii (s : string) : bool :=
  match s with
  | EmptyString => true
  | String c s' => (nat_of_ascii c <? 128) && isAscii s'
  end.

(** [s.charAt(0)] and [s.slice(1)] *)
Definition charAt0 (s : string) : string :=
  match s with
  | EmptyString => EmptyString
  | String c _ => String c EmptyString
  end.

Definition slice1 (s : string) : string :=
  match s with
  | EmptyString => EmptyString
  | String _ s' => s'
  end.

(** White space removed by [trim]: TAB, LF, VT, FF, CR, SPACE and the
    no-break space U+00A0. *)
Definition isSpace (c : ascii) : bool :=
  let n := nat_of_ascii c in ((9 <=? n) && (n <=? 13)) || (n =? 32) || (n =? 160).

Fixpoint trimStart (s : string) : string :=
  match s with
  | EmptyString => EmptyString
  | String c s' => if isSpace c then trimStart s' else s
  end.

Definition trim (s : string) : string :=
  String.rev (trimStart (String.rev (trimStart s))).

(** Truthiness of a string value: only the empty string is falsy. *)
Definition truthy (s : string) : bool :=
  match s with EmptyString => false | _ => true end.

(** [items.join(sep)] *)
Fixpoint join (sep : string) (items : list string) : string :=
  match items with
  | [] => ""
  | [x] => x
  | x :: rest => x +:+ sep +:+ join sep rest
  end.

(** [s.split(sep)] for a separator of one character. *)
Fixpoint splitGo (sep : ascii) (cur : string) (s : string) : list string :=
  match s with
  | EmptyString => [String.rev cur]
  | String c s' =>
      if Ascii.eqb c sep then String.rev cur :: splitGo sep EmptyString s'
      else splitGo sep (String c cur) s'
  end.

Definition split (sep : ascii) (s : string) : list string :=
  splitGo sep EmptyString s.

(** [s.padStart(targetLength, pad)] for a pad of one character. *)
Definition padStart (targetLength : nat) (pad : ascii) (s : string) : string :=
  string_of_list_ascii (replicate (targetLength - String.length s) pad) +:+ s.

(** [String(n)] for a non-negative integer. *)
Definition ofNat (n : nat) : string := pretty n.

(** [haystack.includes(needle)] *)
Fixpoint includes (needle haystack : string) : bool :=
  String.prefix needle haystack ||
  match haystack with
  | EmptyString => false
  | String _ h' => includes needle h'
  end.

End Str.

(** ** DataView over an ArrayBuffer *)

Module DataView.

(** [ToUint32] / [ToUint16] of a number: truncate towards zero, then wrap. *)
Definition truncate (x : Q) : Z := Z.quot (Qnum x) (Zpos (Qden x)).

Definition toUint (bits : Z) (x : Q) : Z := Z.modulo (truncate x) (2 ^ bits).

(** The [k]-th least significant byte of [v]. *)
Definition byteOf (v : Z) (k : nat) : Z :=
  Z.land (Z.shiftr v (8 * Z.of_nat k)) 255.

(** The bytes of a [width]-byte unsigned field, in storage order. *)
Definition fieldBytes (width : nat) (v : Z) (littleEndian : bool) : list Z :=
  let le := map (byteOf v) (seq 0 width) in
  if littleEndian then le else rev le.

Fixpoint writeAt (view : list Z) (byteOffset : nat) (bytes : list Z) : list Z :=
  match bytes with
  | [] => view
  | b :: rest => writeAt (<[byteOffset := b]> view) (S byteOffset) rest
  end.

(** A write that does not fit in the buffer throws a [RangeError]. *)
Definition setUint (width : nat) (byteOffset : nat) (value : Q)
    (littleEndian : bool) (view : list Z) : Result (list Z) :=
  if decide (byteOffset + width ≤ length view) then
    Ok (writeAt view byteOffset
          (fieldBytes width (toUint (8 * Z.of_nat width) value) littleEndian))
  else Throw "RangeError: Offset is outside the bounds of the DataView".

Definition setUint32 := setUint 4.
Definition setUint16 := setUint 2.

(** Reading a field back, as a WAV reader does. *)
Fixpoint fromLE (bytes : list Z) : Z :=
  match bytes with
  | [] => 0
  | b :: rest => (b + 256 * fromLE rest)%Z
  end.

Definition getUint (width : nat) (byteOffset : nat) (littleEndian : bool)
    (view : list Z) : Z :=
  let raw := take width (drop byteOffset view) in
  fromLE (if littleEndian then raw else rev raw).

Definition getUint32 := getUint 4.
Definition getUint16 := getUint 2.

End DataView.

(** ** The audio encoder *)

Definition SAMPLE_RATE : Z := 24000.

(** [new ArrayBuffer(n)] is zero-filled. *)
Definition newArrayBuffer (n : nat) : list Z := replicate n 0%Z.

Definition num (z : Z) : Q := inject_Z z.

(** [pcmToWav]: the 44-byte header followed by the samples.  The two
    products are computed exactly; those of the source, on doubles, are the
    same whenever [sampleRate * numChannels * bitsPerSample] and its factors
    stay below [2^53], as they do for the one call of the source. *)
Definition pcmToWav (pcmData : list Z) (sampleRate numChannels bitsPerSample : Z)
    : Result (list Z) :=
  let byteRate := (num sampleRate * num numChannels * (num bitsPerSample / num 8))%Q in
  let blockAlign := (num numChannels * (num bitsPerSample / num 8))%Q in
  let dataSize := Z.of_nat (length pcmData) in
  let fileSize := (36 + dataSize)%Z in
  let view := newArrayBuffer 44 in
  bindR (DataView.setUint32 0 (num 0x52494646) false view) (λ view,
  bindR (DataView.setUint32 4 (num fileSize) true view) (λ view,
  bindR (DataView.setUint32 8 (num 0x57415645) false view) (λ view,
  bindR (DataView.setUint32 12 (num 0x666d7420) false view) (λ view,
  bindR (DataView.setUint32 16 (num 16) true view) (λ view,
  bindR (DataView.setUint16 20 (num 1) true view) (λ view,
  bindR (DataView.setUint16 22 (num numChannels) true view) (λ view,
  bindR (DataView.setUint32 24 (num sampleRate) true view) (λ view,
  bindR (DataView.setUint32 28 byteRate true view) (λ view,
  bindR (DataView.setUint16 32 blockAlign true view) (λ view,
  bindR (DataView.setUint16 34 (num bitsPerSample) true view) (λ view,
  bindR (DataView.setUint32 36 (num 0x64617461) false view) (λ view,
  bindR (DataView.setUint32 40 (num dataSize) true view) (λ view,
  Ok (view ++ pcmData)))))))))))))).

(** ** Base64 payloads *)

Module Base64.

(** White space skipped by [atob]: TAB, LF, FF, CR and SPACE. *)
Definition isSpace (c : ascii) : bool :=
  let n := nat_of_ascii c in
  (n =? 9) || (n =? 10) || (n =? 12) || (n =? 13) || (n =? 32).

(** The value of a character of the base64 alphabet. *)
Definition sextet (c : ascii) : option Z :=
  let n := nat_of_ascii c in
  if (65 <=? n) && (n <=? 90) then Some (Z.of_nat (n - 65))
  else if (97 <=? n) && (n <=? 122) then Some (Z.of_nat (n - 97 + 26))
  else if (48 <=? n) && (n <=? 57) then Some (Z.of_nat (n - 48 + 52))
  else if n =? 43 then Some 62%Z
  else if n =? 47 then Some 63%Z
  else None.

(** A trailing [=] or [==] is dropped when the length is a multiple of 4. *)
Definition stripPadding (data : list ascii) : list ascii :=
  if length data mod 4 =? 0 then
    match rev data with
    | "="%char :: "="%char :: r => rev r
    | "="%char :: r => rev r
    | _ => data
    end
  else data.

Definition byteAt (n : Z) (shift : Z) : Z := Z.land (Z.shiftr n shift) 255.

(** Four sextets give three bytes; a tail of three gives two bytes and a
    tail of two gives one, the spare bits being discarded. *)
Fixpoint decodeSextets (l : list Z) : list Z :=
  match l with
  | a :: b :: c :: d :: rest =>
      let n := Z.lor (Z.lor (Z.lor (Z.shiftl a 18) (Z.shiftl b 12)) (Z.shiftl c 6)) d in
      byteAt n 16 :: byteAt n 8 :: byteAt n 0 :: decodeSextets rest
  | [a; b; c] =>
      let n := Z.shiftr (Z.lor (Z.lor (Z.shiftl a 12) (Z.shiftl b 6)) c) 2 in
      [byteAt n 8; byteAt n 0]
  | [a; b] =>
      let n := Z.shiftr (Z.lor (Z.shiftl a 6) b) 4 in
      [byteAt n 0]
  | _ => []
  end.

Definition binaryString (bytes : list Z) : string :=
  string_of_list_ascii (map (λ b, ascii_of_nat (Z.to_nat b)) bytes).

(** The message of the [InvalidCharacterError] of [atob].  Its wording is the
    engine's; the properties below are stated for every message. *)
Definition INVALID_CHARACTER : string := "The string to be decoded is not correctly encoded.".

(** [atob]: the platform's forgiving base64 decoder.  The result is a
    binary string, one character per decoded byte. *)
Definition atob (data : string) : Result string :=
  let data := filter (λ c, isSpace c = false) (list_ascii_of_string data) in
  let data := stripPadding data in
  if length data mod 4 =? 1 then Throw INVALID_CHARACTER
  else
    match mapM sextet data with
    | None => Throw INVALID_CHARACTER
    | Some sextets => Ok (binaryString (decodeSextets sextets))
    end.

End Base64.

(** [new Uint8Array(len)] is zero-filled; a store keeps the low 8 bits. *)
Definition newUint8Array (len : nat) : list Z := replicate len 0%Z.

(** [s.charCodeAt(i)]; out of range it is [NaN], which a typed array stores
    as 0. *)
Definition charCodeAt (s : string) (i : nat) : Z :=
  match String.get i s with
  | Some c => Z.of_nat (nat_of_ascii c)
  | None => 0
  end.

(** [decode]: base64 string to bytes. *)
Definition decode (base64 : string) : Result (list Z) :=
  bindR (Base64.atob base64) (λ binaryString,
    let len := String.length binaryString in
    let bytes := newUint8Array len in
    Ok (foldl (λ bytes i, <[i := (charCodeAt binaryString i mod 256)%Z]> bytes)
          bytes (seq 0 len))).

(** ** The script model ([types.ts]) *)

Inductive DialogueElementType := parenthetical | dialogue.

Global Instance DialogueElementType_eq_dec : EqDecision DialogueElementType.
Proof. solve_decision. Defined.

Record DialogueElement := {
  elementType : DialogueElementType;
  elementContent : string
}.

Record DialogueBlock := {
  character : string;
  elements : list DialogueElement
}.

Inductive SceneElement :=
  | SceneHeading (content : string)
  | Action (content : string)
  | Transition (content : string)
  | DialogueBlockElement (block : DialogueBlock).

Record Script := {
  source_file : string;
  title : string;
  scene_elements : list SceneElement
}.

Record StoryElements := {
  characters : string;
  story : string;
  today : string
}.

Module GeneratedImage.
Record t := { sceneIndex : nat; imageUrl : string }.
End GeneratedImage.

Module GeneratedAudio.
Record t := {
  sceneIndex : nat;
  audioBlob : list Z;
  duration : Q;
  character : string;
  dialogue : string
}.
End GeneratedAudio.

Record CharacterImage := {
  fileName : string;
  base64 : string;
  mimeType : string
}.

Definition isDialogueBlock (el : SceneElement) : bool :=
  match el with DialogueBlockElement _ => true | _ => false end.

(** ** The platform: remote services, regular expressions, the clock *)

Inductive RegExpOutcome :=
  | RegExpSyntaxError (message : string)
  | NoMatch
  | Match (group1 : option string).

Inductive Request :=
  | StoryRequest (finalPrompt : string)
  | ImagePromptRequest (character action : string)
  | ImageRequest (prompt : string) (characterImageBase64 mimeType : option string)
  | SpeechRequest (text : string) (voiceName : Property string)
  | FeedRequest (url : string).

(** An entry of the archive under construction. *)
Inductive ZipEntry :=
  | ZipFolder
  | ZipText (data : string)
  | ZipBase64 (data : option string)
  | ZipBlob (data : list Z).

Class Platform := {
  World : Type;
  (** [s.toUpperCase()]: on ASCII strings it maps the small letters *)
  String_toUpperCase : string → string;
  String_toUpperCase_ascii : ∀ s,
    Str.isAscii s = true → String_toUpperCase s = Str.mapChars Str.upperChar s;
  (** [input.match(new RegExp(source, flags))] *)
  RegExp_match : string → string → string → RegExpOutcome;
  (** the message of the [TypeError] for [undefined.toLowerCase()] *)
  TypeError_toLowerCase : string;
  JSON_stringify : Script → string;
  (** [zip.generateAsync({type: 'blob'})] on the entries of the archive:
      the library reads the data of the entries here and rejects when it
      cannot *)
  JSZip_generateAsync : gmap string ZipEntry → Result unit;
  (** day of the week, eight hours behind UTC: 0 is Sunday *)
  pstDayIndex : World → nat;
  (** the body of [fetchDescriptionFromRSS]'s [try] block *)
  rssDescription : string → World → Result string * World;
  generateStory : string → World → Result Script * World;
  (** never throws: it falls back to the character and the raw action *)
  createImagePromptFromAction : string → string → World → string * World;
  generateImage : string → option string → option string → World → Result string * World;
  generateSpeech : string → Property string → World → Result string * World
}.

Definition LF : string := String (ascii_of_nat 10) EmptyString.
Definition TAB : string := String (ascii_of_nat 9) EmptyString.

(** ** Effects: the world of the remote services and the log of requests *)

Section Effects.
Context `{Platform}.

Record Env := { world : World; requests : list Request }.

Definition M (A : Type) : Type := Env → Result A * Env.

Definition ret {A} (a : A) : M A := λ env, (Ok a, env).

Definition throw {A} (message : string) : M A := λ env, (Throw message, env).

Definition bind {A B} (m : M A) (k : A → M B) : M B := λ env,
  match m env with
  | (Ok a, env') => k a env'
  | (Throw message, env') => (Throw message, env')
  end.

Definition liftR {A} (r : Result A) : M A := λ env, (r, env).

(** [try { m } catch (e) { handler(e.message) }] *)
Definition tryCatch {A} (m : M A) (handler : string → M A) : M A := λ env,
  match m env with
  | (Ok a, env') => (Ok a, env')
  | (Throw message, env') => handler message env'
  end.

(** A request to a remote service: logged, then answered by the world. *)
Definition request {A} (r : Request) (service : World → A * World) : Env → A * Env :=
  λ env,
    let '(a, w) := service (world env) in
    (a, {| world := w; requests := requests env ++ [r] |}).

(** A call that may throw, and a call that never does. *)
Definition call {A} (r : Request) (service : World → Result A * World) : M A :=
  request r service.

Definition ask {A} (r : Request) (service : World → A * World) : M A := λ env,
  let '(a, env') := request r service env in (Ok a, env').

End Effects.

Global Instance M_bind `{Platform} : MBind M := λ A B k m, bind m k.
Global Instance M_ret `{Platform} : MRet M := λ A a, ret a.

(** ** Fetching the premise ([geminiService.ts]) *)

Section Premise.
Context `{Platform}.

Definition dayNames : list string :=
  ["Sunday"; "Monday"; "Tuesday"; "Wednesday"; "Thursday"; "Friday"; "Saturday"].

Definition dayMap : gmap string string :=
  list_to_map
    [("Sunday", "28"); ("Monday", "27"); ("Tuesday", "21"); ("Wednesday", "22");
     ("Thursday", "18"); ("Friday", "24"); ("Saturday", "25")].

Definition getDailyVariable (env : Env) : string :=
  let dayIndex := pstDayIndex (world env) in
  default "22" (dayNames !! dayIndex ≫= λ name, dayMap !! name).

Definition fetchDescriptionFromRSS (url : string) : M string :=
  tryCatch (call (FeedRequest url) (rssDescription url))
    (λ _, throw ("Could not fetch or parse from " +:+ url +:+
                 ". The source might be unavailable or blocked.")).

Definition feedNames : list string := ["characters"; "story"; "today"].

Definition feedUrl (x name : string) : string :=
  "https://www.htmlcommentbox.com/rss_clean?page=https%3A%2F%2Fvgy.rf.gd%2F" +:+ x +:+
  "%2F%3Fi%3D" +:+ name +:+ "&opts=16798&mod=$1$wq1rdBcg$ir4fsMQfu76bjx/maFJMv/".

(** [Promise.allSettled]: every promise is run to its end and its outcome
    kept, fulfilled ([Ok]) or rejected ([Throw], with the reason's message). *)
Fixpoint allSettled {A} (promises : list (M A)) (env : Env) : list (Result A) * Env :=
  match promises with
  | [] => ([], env)
  | p :: rest =>
      let '(r, env) := p env in
      let '(rs, env) := allSettled rest env in
      (r :: rs, env)
  end.

Definition capitalize (feedName : string) : string :=
  String_toUpperCase (Str.charAt0 feedName) +:+ Str.slice1 feedName.

(** The [results.forEach] of [fetchStoryElements]: the values of the
    fulfilled feeds by name, and one entry per rejected feed. *)
Fixpoint collectResults (names : list string) (results : list (Result string))
    (successfulResults : gmap string string) (failedFeeds : list string)
    : gmap string string * list string :=
  match names, results with
  | feedName :: names', result :: results' =>
      match result with
      | Ok value =>
          collectResults names' results' (<[feedName := value]> successfulResults) failedFeeds
      | Throw reason =>
          collectResults names' results' successfulResults
            (failedFeeds ++ ["'" +:+ capitalize feedName +:+ "' feed: " +:+ reason])
      end
  | _, _ => (successfulResults, failedFeeds)
  end.

Definition failedFeedsMessage (failedFeeds : list string) : string :=
  "Could not fetch all story elements. Please check your connection or try again later. "
  +:+ LF +:+ LF +:+ "Failed feeds:" +:+ LF +:+ "- " +:+ Str.join (LF +:+ "- ") failedFeeds.

(** What [fetchStoryElements] does with the settled outcomes of its feeds. *)
Definition storyElementsOfResults (results : list (Result string)) : Result StoryElements :=
  let '(successfulResults, failedFeeds) := collectResults feedNames results ∅ [] in
  if 0 <? length failedFeeds then Throw (failedFeedsMessage failedFeeds)
  else
    (* [successfulResults as StoryElements]: the three keys are all set here *)
    Ok {| characters := default "" (successfulResults !! "characters");
          story := default "" (successfulResults !! "story");
          today := default "" (successfulResults !! "today") |}.

Definition fetchStoryElements : M StoryElements := λ env,
  let x := getDailyVariable env in
  let promises := map (λ name, fetchDescriptionFromRSS (feedUrl x name)) feedNames in
  let '(results, env) := allSettled promises env in
  (storyElementsOfResults results, env).

End Premise.

(** ** Prompt construction ([geminiService.ts]) *)

Definition constructFinalPrompt (storyElements : StoryElements) (inspirationalEvent : string)
    : string :=
  "You are a creative writer for a sci-fi comedy series. Your task is to write a new short movie script based on a series premise and a user-provided event.

**Series Premise:**
---
**Characters:**
" +:+ characters storyElements +:+ "

**Core Story:**
" +:+ story storyElements +:+ "

**Daily Theme:**
" +:+ today storyElements +:+ "
---

**Inspirational Event (Provided by User):**
---
" +:+ inspirationalEvent +:+ "
---

Weave the essence of this user-provided event into your story. It should serve as the central conflict or comedic situation for the episode. How would the characters from your Series Premise react to or cause a situation like this?

The final output must be a creative and engaging movie script. Return ONLY the JSON object conforming to the provided schema. Do not include any markdown formatting or any other text outside the JSON structure.
".

(** ** Asset generation ([handleGenerate]) *)

Definition MALE_VOICES : list string := ["Puck"; "Charon"; "Fenrir"; "Zephyr"].
Definition FEMALE_VOICES : list string := ["Kore"].

(** [array.map((el, index) => ({ el, index }))] *)
Definition withIndex {A} (l : list A) : list (A * nat) := imap (λ index el, (el, index)) l.

(** [.filter(({ el }) => el.type === 'action' && el.content)] *)
Definition scenesWithAction (script : Script) : list (string * nat) :=
  omap (λ '(el, index),
          match el with
          | Action content => if Str.truthy content then Some (content, index) else None
          | _ => None
          end)
       (withIndex (scene_elements script)).

(** [.filter(({ el }) => el.type === 'dialogue_block')] *)
Definition dialogueBlocks (script : Script) : list (DialogueBlock * nat) :=
  omap (λ '(el, index),
          match el with
          | DialogueBlockElement block => Some (block, index)
          | _ => None
          end)
       (withIndex (scene_elements script)).

(** [precedingElements.filter(el => el.type === 'dialogue_block').pop()] *)
Definition lastDialogue (precedingElements : list SceneElement) : option DialogueBlock :=
  match last (filter (λ el, isDialogueBlock el = true) precedingElements) with
  | Some (DialogueBlockElement block) => Some block
  | _ => None
  end.

(** The speaker of the action at [sceneIndex], given the speaker carried over
    from the previous action. *)
Definition resolveSpeaker (script : Script) (sceneIndex : nat) (lastCharacter : string)
    : string :=
  let precedingElements := take sceneIndex (scene_elements script) in
  match lastDialogue precedingElements with
  | Some block => character block
  | None => lastCharacter
  end.

Definition UNKNOWN_SPEAKER : string := "A character".

Section Generation.
Context `{Platform}.

(** The image loop of step 4. *)
Fixpoint imageLoop (script : Script) (characterImages : gmap string CharacterImage)
    (scenes : list (string * nat)) (lastCharacter : string)
    (images : list GeneratedImage.t) : M (list GeneratedImage.t) :=
  match scenes with
  | [] => mret images
  | (actionContent, sceneIndex) :: rest =>
      let lastCharacter := resolveSpeaker script sceneIndex lastCharacter in
      let characterImage :=
        getProperty characterImages (Str.trim (Str.toLowerCase lastCharacter)) in
      imagePromptText ← ask (ImagePromptRequest lastCharacter actionContent)
                          (createImagePromptFromAction lastCharacter actionContent);
      let finalImagePrompt :=
        if truthyProperty (λ _, true) characterImage then
          "Use the character from the input image. Place them in this scene, matching the existing art style: "
          +:+ imagePromptText
        else imagePromptText in
      imageBase64 ← call (ImageRequest finalImagePrompt
                            (optionalMember base64 characterImage)
                            (optionalMember mimeType characterImage))
                      (generateImage finalImagePrompt
                         (optionalMember base64 characterImage)
                         (optionalMember mimeType characterImage));
      imageLoop script characterImages rest lastCharacter
        (images ++ [{| GeneratedImage.sceneIndex := sceneIndex;
                       GeneratedImage.imageUrl := "data:image/png;base64," +:+ imageBase64 |}])
  end.

Definition imageStage (script : Script) (characterImages : gmap string CharacterImage)
    : M (list GeneratedImage.t) :=
  imageLoop script characterImages (scenesWithAction script) UNKNOWN_SPEAKER [].

End Generation.

(** ** Voice assignment (step 5, first half) *)

Inductive Gender := male | female.

Global Instance Gender_eq_dec : EqDecision Gender.
Proof. solve_decision. Defined.

Record VoiceState := {
  characterVoices : gmap string string;
  assignedGenders : gmap string Gender;
  maleVoiceIndex : nat;
  femaleVoiceIndex : nat
}.

Definition initialVoiceState : VoiceState :=
  {| characterVoices := ∅; assignedGenders := ∅; maleVoiceIndex := 0; femaleVoiceIndex := 0 |}.

(** [voices[name] = pool[i % pool.length]].  The pools of the source are not
    empty, so the element is always there; for an empty pool, where the
    source would store [undefined], the table is left as it is. *)
Definition setVoice (characterName : string) (pool : list string) (i : nat)
    (voices : gmap string string) : gmap string string :=
  match pool !! (i mod length pool) with
  | Some voice => <[characterName := voice]> voices
  | None => voices
  end.

Section Voices.
Context `{Platform}.

(** The source text of the pattern built for a character. *)
Definition genderRegexSource (characterName : string) : string :=
  "\b" +:+ characterName +:+ "\b\s*\((m|f)\)".

(** The gender look-up, made once per character:
    [if (!assignedGenders[characterName]) { ... }]. *)
Definition determineGender (premiseCharacters characterName : string)
    (genders : gmap string Gender) : Result (gmap string Gender) :=
  if truthyProperty (λ _, true) (getProperty genders characterName) then Ok genders
  else
    match RegExp_match (genderRegexSource characterName) "i" premiseCharacters with
    | RegExpSyntaxError message => Throw message
    | NoMatch => Ok genders
    | Match None => Throw TypeError_toLowerCase
    | Match (Some group1) =>
        Ok (<[characterName :=
               if decide (Str.toLowerCase group1 = "m") then male else female]> genders)
    end.

(** The body of [dialogueBlocks.forEach]:
    [if (!characterVoices[characterName]) { ... }]. *)
Definition assignVoice (premiseCharacters : string) (st : VoiceState) (el : DialogueBlock)
    : Result VoiceState :=
  let characterName := character el in
  if truthyProperty Str.truthy (getProperty (characterVoices st) characterName) then Ok st
  else
    bindR (determineGender premiseCharacters characterName (assignedGenders st))
      (λ genders,
         let gender := getProperty genders characterName in
         if bool_decide (gender = Own female) && (0 <? length FEMALE_VOICES) then
           Ok {| characterVoices :=
                   setVoice characterName FEMALE_VOICES (femaleVoiceIndex st)
                     (characterVoices st);
                 assignedGenders := genders;
                 maleVoiceIndex := maleVoiceIndex st;
                 femaleVoiceIndex := S (femaleVoiceIndex st) |}
         else
           Ok {| characterVoices :=
                   setVoice characterName MALE_VOICES (maleVoiceIndex st)
                     (characterVoices st);
                 assignedGenders := genders;
                 maleVoiceIndex := S (maleVoiceIndex st);
                 femaleVoiceIndex := femaleVoiceIndex st |}).

Fixpoint assignVoicesFrom (premiseCharacters : string) (st : VoiceState)
    (blocks : list (DialogueBlock * nat)) : Result VoiceState :=
  match blocks with
  | [] => Ok st
  | (el, _) :: rest =>
      bindR (assignVoice premiseCharacters st el)
        (λ st', assignVoicesFrom premiseCharacters st' rest)
  end.

Definition assignVoices (storyElements : StoryElements)
    (blocks : list (DialogueBlock * nat)) : Result VoiceState :=
  assignVoicesFrom (characters storyElements) initialVoiceState blocks.

End Voices.

(** ** The speech stage (step 5, second half) *)

Definition findElement (type : DialogueElementType) (el : DialogueBlock)
    : option DialogueElement :=
  List.find (λ e, bool_decide (elementType e = type)) (elements el).

(** [el.elements.find(e => e.type === 'dialogue')?.content || ''] *)
Definition dialogueText (el : DialogueBlock) : string :=
  match findElement dialogue el with
  | Some e => elementContent e
  | None => ""
  end.

(** [parenthetical ? `(speaking in a ${parenthetical} tone) ${dialogueText}` : dialogueText] *)
Definition promptText (el : DialogueBlock) : string :=
  match findElement parenthetical el with
  | Some e =>
      if Str.truthy (elementContent e) then
        "(speaking in a " +:+ elementContent e +:+ " tone) " +:+ dialogueText el
      else dialogueText el
  | None => dialogueText el
  end.

Section Speech.
Context `{Platform}.

Fixpoint audioLoop (voices : gmap string string) (blocks : list (DialogueBlock * nat))
    (audioClips : list GeneratedAudio.t) : M (list GeneratedAudio.t) :=
  match blocks with
  | [] => mret audioClips
  | (el, index) :: rest =>
      if negb (Str.truthy (dialogueText el)) then audioLoop voices rest audioClips
      else
        audioBase64 ← call (SpeechRequest (promptText el)
                              (getProperty voices (character el)))
                        (generateSpeech (promptText el) (getProperty voices (character el)));
        pcmData ← liftR (decode audioBase64);
        audioBlob ← liftR (pcmToWav pcmData SAMPLE_RATE 1 16);
        let duration := (num (Z.of_nat (length pcmData)) / num (SAMPLE_RATE * 2))%Q in
        audioLoop voices rest
          (audioClips ++ [{| GeneratedAudio.sceneIndex := index;
                             GeneratedAudio.audioBlob := audioBlob;
                             GeneratedAudio.duration := duration;
                             GeneratedAudio.character := character el;
                             GeneratedAudio.dialogue := dialogueText el |}])
  end.

Definition audioStage (script : Script) (storyElements : StoryElements)
    : M (list GeneratedAudio.t) :=
  let blocks := dialogueBlocks script in
  st ← liftR (assignVoices storyElements blocks);
  audioLoop (characterVoices st) blocks [].

End Speech.

(** ** The application state and [handleGenerate] *)

Record AppState := {
  userInput : string;
  storyElements : option StoryElements;
  characterImages : gmap string CharacterImage;
  error : option string;
  scriptData : option Script;
  generatedImages : list GeneratedImage.t;
  generatedAudio : list GeneratedAudio.t
}.

Definition setError (e : option string) (app : AppState) : AppState :=
  {| userInput := userInput app; storyElements := storyElements app;
     characterImages := characterImages app; error := e;
     scriptData := scriptData app; generatedImages := generatedImages app;
     generatedAudio := generatedAudio app |}.

Definition setScriptData (s : option Script) (app : AppState) : AppState :=
  {| userInput := userInput app; storyElements := storyElements app;
     characterImages := characterImages app; error := error app;
     scriptData := s; generatedImages := generatedImages app;
     generatedAudio := generatedAudio app |}.

Definition setGeneratedImages (images : list GeneratedImage.t) (app : AppState) : AppState :=
  {| userInput := userInput app; storyElements := storyElements app;
     characterImages := characterImages app; error := error app;
     scriptData := scriptData app; generatedImages := images;
     generatedAudio := generatedAudio app |}.

Definition setGeneratedAudio (clips : list GeneratedAudio.t) (app : AppState) : AppState :=
  {| userInput := userInput app; storyElements := storyElements app;
     characterImages := characterImages app; error := error app;
     scriptData := scriptData app; generatedImages := generatedImages app;
     generatedAudio := clips |}.

Section Run.
Context `{Platform}.

Definition handleGenerate (app : AppState) (env : Env) : AppState * Env :=
  if negb (Str.truthy (Str.trim (userInput app))) then
    (setError (Some "Please provide a story idea to get started.") app, env)
  else
    match storyElements app with
    | None => (setError (Some "Story premise not loaded. Please fetch it first.") app, env)
    | Some premise =>
        let app :=
          setGeneratedAudio [] (setGeneratedImages [] (setScriptData None (setError None app))) in
        let finalPrompt := constructFinalPrompt premise (userInput app) in
        match call (StoryRequest finalPrompt) (generateStory finalPrompt) env with
        | (Throw message, env) => (setError (Some message) app, env)
        | (Ok script, env) =>
            let app := setScriptData (Some script) app in
            match imageStage script (characterImages app) env with
            | (Throw message, env) => (setError (Some message) app, env)
            | (Ok images, env) =>
                let app := setGeneratedImages images app in
                match audioStage script premise env with
                | (Throw message, env) => (setError (Some message) app, env)
                | (Ok audioClips, env) => (setGeneratedAudio audioClips app, env)
                end
            end
        end
    end.

End Run.

(** ** The bundle ([scriptToText], [handleDownloadZip]) *)

Definition dialogueLine (diag : DialogueElement) : string :=
  match elementType diag with
  | parenthetical => TAB +:+ "(" +:+ elementContent diag +:+ ")" +:+ LF
  | dialogue => TAB +:+ elementContent diag +:+ LF
  end.

Section Transcript.
Context `{Platform}.

Definition elementText (el : SceneElement) : string :=
  match el with
  | SceneHeading content | Action content | Transition content => content +:+ LF +:+ LF
  | DialogueBlockElement block =>
      TAB +:+ String_toUpperCase (character block) +:+ LF +:+
      foldl (λ text diag, text +:+ dialogueLine diag) "" (elements block) +:+ LF
  end.

Definition scriptToText (script : option Script) : string :=
  match script with
  | None => ""
  | Some script =>
      foldl (λ text el, text +:+ elementText el)
        ("Title: " +:+ title script +:+ LF +:+ LF) (scene_elements script)
  end.

End Transcript.

(** [`${String(sceneIndex).padStart(4, '0')}.${extension}`] *)
Definition assetFileName (sceneIndex : nat) (extension : string) : string :=
  Str.padStart 4 "0" (Str.ofNat sceneIndex) +:+ "." +:+ extension.

Definition addImage (zip : gmap string ZipEntry) (img : GeneratedImage.t)
    : gmap string ZipEntry :=
  let fileName := assetFileName (GeneratedImage.sceneIndex img) "png" in
  <["images/" +:+ fileName := ZipBase64 (Str.split "," (GeneratedImage.imageUrl img) !! 1)]> zip.

Definition addAudio (zip : gmap string ZipEntry) (audio : GeneratedAudio.t)
    : gmap string ZipEntry :=
  let fileName := assetFileName (GeneratedAudio.sceneIndex audio) "wav" in
  <["audio/" +:+ fileName := ZipBlob (GeneratedAudio.audioBlob audio)]> zip.

(** [title.replace(/[^a-z0-9]/gi, '_').toLowerCase()] *)
Definition safeTitle (title : string) : string :=
  Str.toLowerCase
    (Str.mapChars (λ c, if Str.isUpper c || Str.isLower c ||
                           ((48 <=? nat_of_ascii c) && (nat_of_ascii c <=? 57))
                        then c else "_"%char) title).

Record Download := { downloadName : string; archive : gmap string ZipEntry }.

Section Bundle.
Context `{Platform}.

(** [handleDownloadZip]: the state it leaves and the download it offers,
    the archive under its name.  Nothing happens without a script; when the
    archive cannot be generated the failure is reported in the state and
    nothing is offered. *)
Definition handleDownloadZip (app : AppState) : AppState * option Download :=
  match scriptData app with
  | None => (app, None)
  | Some script =>
      let app := setError None app in
      let zip : gmap string ZipEntry := ∅ in
      let zip := <["script.json" := ZipText (JSON_stringify script)]> zip in
      let zip := <["story.txt" := ZipText (scriptToText (Some script))]> zip in
      let zip := <["images/" := ZipFolder]> zip in
      let zip := foldl addImage zip (generatedImages app) in
      let zip := <["audio/" := ZipFolder]> zip in
      let zip :=
        if 0 <? length (generatedAudio app) then foldl addAudio zip (generatedAudio app)
        else zip in
      match JSZip_generateAsync zip with
      | Ok _ =>
          (app, Some {| downloadName := safeTitle (title script) +:+ "_assets.zip";
                        archive := zip |})
      | Throw errorMessage =>
          (setError (Some ("Failed to create zip file: " +:+ errorMessage)) app, None)
      end
  end.

End Bundle.

(** ** Reading a WAV header *)

Record WavHeader := {
  riffTag : list Z;
  fileSize : Z;
  waveTag : list Z;
  fmtTag : list Z;
  fmtChunkSize : Z;
  audioFormat : Z;
  numChannels : Z;
  sampleRate : Z;
  byteRate : Z;
  blockAlign : Z;
  bitsPerSample : Z;
  dataTag : list Z;
  dataSize : Z
}.

Definition asciiBytes (s : string) : list Z :=
  map (λ c, Z.of_nat (nat_of_ascii c)) (list_ascii_of_string s).

(** Modelled from the spec: the repository only writes WAV headers, so the
    reader is the layout table of the audio encoder read back: each field at
    its offset, the three sizes and rates as little-endian 32-bit integers,
    the others as little-endian 16-bit integers, the tags as four bytes in
    file order. *)
Definition readWavHeader (wav : list Z) : WavHeader :=
  {| riffTag := take 4 wav;
     fileSize := DataView.getUint32 4 true wav;
     waveTag := take 4 (drop 8 wav);
     fmtTag := take 4 (drop 12 wav);
     fmtChunkSize := DataView.getUint32 16 true wav;
     audioFormat := DataView.getUint16 20 true wav;
     numChannels := DataView.getUint16 22 true wav;
     sampleRate := DataView.getUint32 24 true wav;
     byteRate := DataView.getUint32 28 true wav;
     blockAlign := DataView.getUint16 32 true wav;
     bitsPerSample := DataView.getUint16 34 true wav;
     dataTag := take 4 (drop 36 wav);
     dataSize := DataView.getUint32 40 true wav |}.

(** The header written by [pcmToWav], field after field. *)
Definition wavHeaderBytes (dataSize sampleRate numChannels bitsPerSample : Z) : list Z :=
  let byteRate := (num sampleRate * num numChannels * (num bitsPerSample / num 8))%Q in
  let blockAlign := (num numChannels * (num bitsPerSample / num 8))%Q in
  DataView.fieldBytes 4 (DataView.toUint 32 (num 0x52494646)) false ++
  DataView.fieldBytes 4 (DataView.toUint 32 (num (36 + dataSize))) true ++
  DataView.fieldBytes 4 (DataView.toUint 32 (num 0x57415645)) false ++
  DataView.fieldBytes 4 (DataView.toUint 32 (num 0x666d7420)) false ++
  DataView.fieldBytes 4 (DataView.toUint 32 (num 16)) true ++
  DataView.fieldBytes 2 (DataView.toUint 16 (num 1)) true ++
  DataView.fieldBytes 2 (DataView.toUint 16 (num numChannels)) true ++
  DataView.fieldBytes 4 (DataView.toUint 32 (num sampleRate)) true ++
  DataView.fieldBytes 4 (DataView.toUint 32 byteRate) true ++
  DataView.fieldBytes 2 (DataView.toUint 16 blockAlign) true ++
  DataView.fieldBytes 2 (DataView.toUint 16 (num bitsPerSample)) true ++
  DataView.fieldBytes 4 (DataView.toUint 32 (num 0x64617461)) false ++
  DataView.fieldBytes 4 (DataView.toUint 32 (num dataSize)) true.

(** ** Vocabulary of the properties *)

(** Position [k] of the script holds a dialogue block. *)
Definition dialogueAt (script : Script) (k : nat) : Prop :=
  ∃ block, scene_elements script !! k = Some (DialogueBlockElement block).

(** [block] is the nearest dialogue block before position [i]. *)
Definition nearestPrecedingDialogue (script : Script) (i : nat) (block : DialogueBlock)
    : Prop :=
  ∃ j, j < i
       ∧ scene_elements script !! j = Some (DialogueBlockElement block)
       ∧ ∀ k, j < k < i → ¬ dialogueAt script k.

(** The speaker the specification attributes to the action at position [i]. *)
Definition attributedSpeaker (script : Script) (i : nat) (speaker : string) : Prop :=
  (∃ block, nearestPrecedingDialogue script i block ∧ speaker = character block)
  ∨ ((∀ k, k < i → ¬ dialogueAt script k) ∧ speaker = UNKNOWN_SPEAKER).

(** The image prompts asked for in a log: speaker and action text. *)
Definition imagePromptRequests (log : list Request) : list (string * string) :=
  omap (λ r, match r with
             | ImagePromptRequest speaker action => Some (speaker, action)
             | _ => None
             end) log.

(** The speech requests made in a log: text and voice. *)
Definition speechRequests (log : list Request) : list (string * Property string) :=
  omap (λ r, match r with
             | SpeechRequest text voiceName => Some (text, voiceName)
             | _ => None
             end) log.

(** The speakers the image loop resolves, one per scene, with the action
    text sent along: the loop without its remote calls. *)
Fixpoint resolvedSpeakers (script : Script) (scenes : list (string * nat))
    (lastCharacter : string) : list (string * string) :=
  match scenes with
  | [] => []
  | (actionContent, sceneIndex) :: rest =>
      let lastCharacter := resolveSpeaker script sceneIndex lastCharacter in
      (lastCharacter, actionContent) :: resolvedSpeakers script rest lastCharacter
  end.

(** Strictly increasing along the list. *)
Definition increasing (l : list nat) : Prop :=
  ∀ i j a b, i < j → l !! i = Some a → l !! j = Some b → a < b.

(** Never decreasing along the list. *)
Definition nondecreasing (l : list nat) : Prop :=
  ∀ i j a b, i ≤ j → l !! i = Some a → l !! j = Some b → a ≤ b.

(** Two blocks that the speech stage cannot tell apart. *)
Definition sameSpeech (b b' : DialogueBlock * nat) : Prop :=
  b.2 = b'.2
  ∧ character b.1 = character b'.1
  ∧ dialogueText b.1 = dialogueText b'.1
  ∧ promptText b.1 = promptText b'.1.

(** The content picked by the filter of [scenesWithAction], and the block
    picked by the filter of [dialogueBlocks]. *)
Definition pickAction (el : SceneElement) : option string :=
  match el with
  | Action content => if Str.truthy content then Some content else None
  | _ => None
  end.

Definition pickDialogue (el : SceneElement) : option DialogueBlock :=
  match el with DialogueBlockElement block => Some block | _ => None end.

(** The carried-over speaker is still the sentinel as long as no dialogue
    has been passed. *)
Definition carriedOver (script : Script) (bound : nat) (lastCharacter : string) : Prop :=
  (∀ k, k < bound → ¬ dialogueAt script k) → lastCharacter = UNKNOWN_SPEAKER.

(** A block that has something to say: its dialogue text is not empty. *)
Definition spoken (b : DialogueBlock * nat) : Prop := Str.truthy (dialogueText b.1).

Global Instance spoken_dec (b : DialogueBlock * nat) : Decision (spoken b).
Proof. unfold spoken. apply _. Defined.

(** The request the speech stage makes for a block. *)
Definition speechRequestOf (voices : gmap string string) (b : DialogueBlock * nat)
    : string * Property string :=
  (promptText b.1, getProperty voices (character b.1)).

(** [clip] is the clip of block [b]: its index, its character, its first
    dialogue line, and a WAV file of some decoded samples. *)
Definition clipOf (clip : GeneratedAudio.t) (b : DialogueBlock * nat) : Prop :=
  GeneratedAudio.sceneIndex clip = b.2
  ∧ GeneratedAudio.character clip = character b.1
  ∧ GeneratedAudio.dialogue clip = dialogueText b.1
  ∧ ∃ pcmData,
      GeneratedAudio.audioBlob clip
      = wavHeaderBytes (Z.of_nat (length pcmData)) SAMPLE_RATE 1 16 ++ pcmData.

(** A block without the dialogue lines that follow its first one. *)
Fixpoint dropLaterDialogue (seen : bool) (es : list DialogueElement) : list DialogueElement :=
  match es with
  | [] => []
  | e :: rest =>
      match elementType e with
      | dialogue => if seen then dropLaterDialogue true rest
                    else e :: dropLaterDialogue true rest
      | parenthetical => e :: dropLaterDialogue seen rest
      end
  end.

Definition firstDialogueOnly (b : DialogueBlock * nat) : DialogueBlock * nat :=
  ({| character := character b.1; elements := dropLaterDialogue false (elements b.1) |}, b.2).

(** The distinct names of a list, in the order in which they are first seen. *)
Fixpoint firstSeen (seen : list string) (names : list string) : list string :=
  match names with
  | [] => []
  | name :: rest =>
      if decide (name ∈ seen) then firstSeen seen rest
      else name :: firstSeen (name :: seen) rest
  end.



(** The number of characters of a payload that carry data: what is left
    once white space and padding are removed. *)
Definition significantLength (payload : string) : nat :=
  length (Base64.stripPadding
            (filter (λ c, Base64.isSpace c = false) (list_ascii_of_string payload))).

(** The value of a string of decimal digits. *)
Definition digitValue (c : ascii) : nat := nat_of_ascii c - 48.

Fixpoint decimalValue (s : string) : nat :=
  match s with
  | EmptyString => 0
  | String c rest => digitValue c * 10 ^ String.length rest + decimalValue rest
  end.


(** Adding one file to an archive, at a path and with data that depend on
    the asset. *)
Definition addEntry {A} (path : A → string) (data : A → ZipEntry)
    (zip : gmap string ZipEntry) (x : A) : gmap string ZipEntry :=
  <[path x := data x]> zip.

(** The entry of the error message for a feed that failed. *)
Definition failedFeedEntry (feedName reason : string) : string :=
  "'" +:+ feedName +:+ "' feed: " +:+ reason.

(** The entries for the failed feeds among named outcomes, in order. *)
Definition failedFeedEntries (outcomes : list (string * Result string)) : list string :=
  omap (λ '(feedName, outcome),
          match outcome with
          | Ok _ => None
          | Throw reason => Some (failedFeedEntry feedName reason)
          end) outcomes.

(** ** A test double of the platform

    Every remote call succeeds with a canned answer and counts the calls in
    the world; the regular expression engine answers from a table of
    pattern sources.  The archive library rejects, as the real one does,
    base64 data that starts like a data URI or whose significant characters
    do not come in groups of four. *)

Definition isBase64Char (c : ascii) : bool :=
  let n := nat_of_ascii c in
  ((65 <=? n) && (n <=? 90)) || ((97 <=? n) && (n <=? 122)) || ((48 <=? n) && (n <=? 57))
  || (n =? 43) || (n =? 47) || (n =? 61).

Definition stubEntryError (entry : ZipEntry) : option string :=
  match entry with
  | ZipBase64 (Some data) =>
      if String.prefix "data:" data then
        Some "Invalid base64 input, it looks like a data url."
      else if length (filter (λ c, isBase64Char c = true) (list_ascii_of_string data)) mod 4 =? 0
      then None
      else Some "Invalid base64 input, bad content length."
  | _ => None
  end.

Definition stubGenerateAsync (zip : gmap string ZipEntry) : Result unit :=
  match omap (λ entry, stubEntryError entry.2) (map_to_list zip) with
  | [] => Ok ()
  | message :: _ => Throw message
  end.

Definition stubPlatform (script : Script) (genderTable : list (string * string))
    (speechPayload : string) : Platform :=
  {| World := nat;
     String_toUpperCase := Str.mapChars Str.upperChar;
     String_toUpperCase_ascii := λ s _, eq_refl;
     RegExp_match := λ source flags input,
       match list_to_map (M := gmap string string) genderTable !! source with
       | Some group1 => Match (Some group1)
       | None => NoMatch
       end;
     TypeError_toLowerCase := "Cannot read properties of undefined (reading 'toLowerCase')";
     JSON_stringify := λ script, "{}";
     JSZip_generateAsync := stubGenerateAsync;
     pstDayIndex := λ w, w mod 7;
     rssDescription := λ url w, (Ok ("premise from " +:+ url), S w);
     generateStory := λ finalPrompt w, (Ok script, S w);
     createImagePromptFromAction := λ character action w, (character +:+ " " +:+ action, S w);
     generateImage := λ prompt characterImageBase64 mimeType w, (Ok "iVBORw0KGgo=", S w);
     generateSpeech := λ text voiceName w, (Ok speechPayload, S w) |}.

Definition initialEnv `{Platform} (w : World) : Env := {| world := w; requests := [] |}.

(** ** Sample data *)

Definition ursulaBlock : DialogueBlock :=
  {| character := "URSULA";
     elements := [ {| elementType := parenthetical; elementContent := "gleeful" |};
                   {| elementType := dialogue; elementContent := "Hello, Hollywood." |};
                   {| elementType := dialogue; elementContent := "Goodbye." |} ] |}.

Definition silentBlock : DialogueBlock :=
  {| character := "REX";
     elements := [ {| elementType := parenthetical; elementContent := "shrugs" |} ] |}.

Definition sampleScript : Script :=
  {| source_file := "sample.fountain";
     title := "Hot Bottle";
     scene_elements := [ Action "A saucer hovers over the hills.";
                         DialogueBlockElement ursulaBlock;
                         DialogueBlockElement silentBlock;
                         Action "She pulls a lever." ] |}.

Definition samplePremise : StoryElements :=
  {| characters := "URSULA (f), REX (m)";
     story := "Aliens run a talk show.";
     today := "Parade day." |}.

Definition sampleApp : AppState :=
  {| userInput := "A parade gets lost.";
     storyElements := Some samplePremise;
     characterImages := ∅;
     error := None;
     scriptData := None;
     generatedImages := [];
     generatedAudio := [] |}.

(** The sample script served by the test double; the premise marks URSULA
    as female. *)
Definition samplePlatform (speechPayload : string) : Platform :=
  stubPlatform sampleScript [(genderRegexSource "URSULA", "f")] speechPayload.



(** ** Further functions of the application *)

Definition setStoryElements (p : option StoryElements) (app : AppState) : AppState :=
  {| userInput := userInput app; storyElements := p;
     characterImages := characterImages app; error := error app;
     scriptData := scriptData app; generatedImages := generatedImages app;
     generatedAudio := generatedAudio app |}.

Section Handlers.
Context `{Platform}.

(** [handleFetchPremise] *)
Definition handleFetchPremise (app : AppState) (env : Env) : AppState * Env :=
  if negb (Str.truthy (Str.trim (userInput app))) then
    (setError (Some "Please provide a story idea to get started.") app, env)
  else
    let app := setStoryElements None (setError None app) in
    match fetchStoryElements env with
    | (Ok elements, env) => (setStoryElements (Some elements) app, env)
    | (Throw message, env) => (setError (Some message) app, env)
    end.

End Handlers.

(** [handleStartOver] *)
Definition handleStartOver (app : AppState) : AppState :=
  {| userInput := ""; storyElements := None; characterImages := ∅; error := None;
     scriptData := None; generatedImages := []; generatedAudio := [] |}.



(** The key under which the image loop looks a speaker up. *)
Definition characterImageKey (speaker : string) : string :=
  Str.trim (Str.toLowerCase speaker).

Definition QUOTE : string := String (ascii_of_nat 34) EmptyString.

(** ** The generative services ([geminiService.ts]) *)

Module Gemini.

Inductive Part :=
  | TextPart (text : string)
  | InlineDataPart (data mimeType : string).

Inductive Contents :=
  | TextContents (text : string)
  | PartsContents (parts : list Part).

Inductive Config :=
  | NoConfig
  | ScriptJsonConfig
  | ImageConfig
  | SpeechConfig (voiceName : Property string).

Record GenerateContentRequest := {
  model : string;
  contents : Contents;
  config : Config
}.

(** A part of the first candidate: the data of its [inlineData], when it
    has one (an [inlineData] without data is outside the model). *)
Record ResponsePart := { inlineData : option string }.

(** What the wrappers read of a response: [response.text], and the parts
    of the first candidate when the response has one. *)
Record GenerateContentResponse := {
  responseText : option string;
  candidateParts : option (list ResponsePart)
}.

(** The request text of [createImagePromptFromAction]. *)
Definition imagePromptInstructions (character action : string) : string :=
  "Based on the following movie script action, create a short, visually descriptive prompt for an AI image generator. The prompt should be a single sentence. Focus on the character, the setting, and the key action. Do not include the character's name directly, instead use descriptive terms. Do not include dialogue cues or parentheticals.

        **Character:** " +:+
  character +:+
  "
        **Action:** " +:+
  QUOTE +:+
  action +:+
  QUOTE +:+
  "
        
        **Example Input:**
        Character: URSULA
        Action: " +:+
  QUOTE +:+
  "URSULA (60s, grandmotherly but with a manic glint in her eye) pilots a UFO over Hollywood, spraying a mysterious gas from a large nozzle." +:+
  QUOTE +:+
  "
        **Example Output:**
        " +:+
  QUOTE +:+
  "An elderly woman with a wild look in her eyes pilots a flying saucer over the Hollywood sign, a thick green gas spraying from a nozzle onto the city below." +:+
  QUOTE.

Section Wrappers.
Variable W : Type.
(** [ai.models.generateContent] *)
Variable generateContent : GenerateContentRequest → W → Result GenerateContentResponse * W.
(** [JSON.parse], typed as the source casts it *)
Variable JSON_parse : string → Result Script.
(** the message of the engine's [TypeError] when a property is read through
    a missing part of the response *)
Variable typeErrorMessage : GenerateContentResponse → string.

Definition STORY_ERROR : string :=
  "Could not generate a story. The model might have returned an invalid response or malformed JSON.".

Definition generateStory (finalPrompt : string) (w : W) : Result Script * W :=
  let request := {| model := "gemini-2.5-pro"; contents := TextContents finalPrompt;
                    config := ScriptJsonConfig |} in
  let '(outcome, w) := generateContent request w in
  let attempt :=
    bindR outcome (λ response,
      match responseText response with
      | Some scriptJson =>
          if Str.truthy scriptJson then JSON_parse scriptJson
          else Throw "The model did not return a script."
      | None => Throw "The model did not return a script."
      end) in
  match attempt with
  | Ok script => (Ok script, w)
  | Throw _ => (Throw STORY_ERROR, w)
  end.

Definition createImagePromptFromAction (character action : string) (w : W)
    : Result string * W :=
  let prompt := imagePromptInstructions character action in
  let request := {| model := "gemini-2.5-flash"; contents := TextContents prompt;
                    config := NoConfig |} in
  let '(outcome, w) := generateContent request w in
  let attempt :=
    bindR outcome (λ response,
      match responseText response with
      | Some text => Ok (Str.trim text)
      | None => Throw (typeErrorMessage response)
      end) in
  match attempt with
  | Ok text => (Ok text, w)
  | Throw _ => (Ok (character +:+ " " +:+ action), w)
  end.

(** [characterImageBase64 && mimeType] *)
Definition referencePart (characterImageBase64 mimeType : option string) : list Part :=
  match characterImageBase64, mimeType with
  | Some data, Some type =>
      if Str.truthy data && Str.truthy type then [InlineDataPart data type] else []
  | _, _ => []
  end.

(** [for (const part of parts) if (part.inlineData) return part.inlineData.data] *)
Fixpoint firstInlineData (parts : list ResponsePart) : option string :=
  match parts with
  | [] => None
  | part :: rest =>
      match inlineData part with
      | Some data => Some data
      | None => firstInlineData rest
      end
  end.

Definition imageError (prompt errorMessage : string) : string :=
  "Failed to generate image for prompt: " +:+ QUOTE +:+ prompt +:+ QUOTE +:+
  ". Reason: " +:+ errorMessage.

Definition generateImage (prompt : string) (characterImageBase64 mimeType : option string)
    (w : W) : Result string * W :=
  let parts := referencePart characterImageBase64 mimeType
               ++ [TextPart (prompt +:+ ". Cinematic, 16:9 aspect ratio.")] in
  let request := {| model := "gemini-2.5-flash-image"; contents := PartsContents parts;
                    config := ImageConfig |} in
  let '(outcome, w) := generateContent request w in
  let attempt :=
    bindR outcome (λ response,
      match candidateParts response with
      | None => Throw (typeErrorMessage response)
      | Some parts =>
          match firstInlineData parts with
          | Some data => Ok data
          | None => Throw "No image data found in the response."
          end
      end) in
  match attempt with
  | Ok data => (Ok data, w)
  | Throw errorMessage => (Throw (imageError prompt errorMessage), w)
  end.

Definition speechError (text : string) : string :=
  "Failed to generate speech for text: " +:+ QUOTE +:+ text +:+ QUOTE.

Definition generateSpeech (text : string) (voiceName : Property string) (w : W)
    : Result string * W :=
  let request := {| model := "gemini-2.5-flash-preview-tts";
                    contents := PartsContents [TextPart text];
                    config := SpeechConfig voiceName |} in
  let '(outcome, w) := generateContent request w in
  let attempt :=
    bindR outcome (λ response,
      let audioData :=
        candidateParts response ≫= λ parts, parts !! 0 ≫= λ part, inlineData part in
      match audioData with
      | Some data =>
          if Str.truthy data then Ok data else Throw "No audio data returned from TTS API."
      | None => Throw "No audio data returned from TTS API."
      end) in
  match attempt with
  | Ok data => (Ok data, w)
  | Throw _ => (Throw (speechError text), w)
  end.

End Wrappers.

End Gemini.

(** ** Reading a feed ([fetchDescriptionFromRSS]) *)

Module Rss.

Record HttpResponse := {
  ok : bool;
  status : nat;
  (** [await response.text()] *)
  body : Result string
}.

(** The parsed document: a parser error, or the text content of the
    description of each item (absent when the item has no description). *)
Inductive XmlDocument :=
  | ParserError (textContent : string)
  | Items (descriptions : list (option string)).

Definition CORS_PROXY : string := "https://api.allorigins.win/raw?url=".

Section Feed.
Variable W : Type.
Variable fetch : string → W → Result HttpResponse * W.
Variable encodeURIComponent : string → string.
(** [new DOMParser().parseFromString(xmlText, 'application/xml')] *)
Variable parseXml : string → XmlDocument.
(** the text content of a [div] whose [innerHTML] is the argument *)
Variable htmlText : string → string.

(** [potentialSeed && !isURL && potentialSeed.length > 20] *)
Definition validSeed (potentialSeed : string) : bool :=
  let isURL := String.prefix "http://" potentialSeed || String.prefix "https://" potentialSeed in
  Str.truthy potentialSeed && negb isURL && (20 <? String.length potentialSeed).

(** The loop over the items: the first description that gives a valid seed. *)
Fixpoint firstSeed (descriptions : list (option string)) : Result string :=
  match descriptions with
  | [] => Throw "No valid story seed found in any of the RSS items."
  | description :: rest =>
      match description with
      | Some htmlContent =>
          if Str.truthy htmlContent then
            let potentialSeed := Str.trim (htmlText htmlContent) in
            if validSeed potentialSeed then Ok potentialSeed else firstSeed rest
          else firstSeed rest
      | None => firstSeed rest
      end
  end.

(** The body of the [try] block. *)
Definition readFeed (url : string) (w : W) : Result string * W :=
  let '(outcome, w) := fetch (CORS_PROXY +:+ encodeURIComponent url) w in
  (bindR outcome (λ response,
     if negb (ok response) then
       Throw ("Network response was not ok, status: " +:+ Str.ofNat (status response))
     else
       bindR (body response) (λ xmlText,
         match parseXml xmlText with
         | ParserError _ => Throw "Failed to parse the RSS feed XML."
         | Items [] => Throw "No <item> elements found in the RSS feed."
         | Items descriptions => firstSeed descriptions
         end)),
   w).

Definition fetchDescriptionFromRSS (url : string) (w : W) : Result string * W :=
  match readFeed url w with
  | (Ok seed, w) => (Ok seed, w)
  | (Throw _, w) =>
      (Throw ("Could not fetch or parse from " +:+ url +:+
              ". The source might be unavailable or blocked."), w)
  end.

End Feed.

End Rss.

(** ** Vocabulary of the further properties *)

(** The requests of the image loop come in exchanges: the image prompt for
    a speaker and an action, then the image for the prompt built from the
    answer: with the instruction to use the input image when something is
    read under the speaker's key, and with the reference image when what is
    read is an image of the table. *)
Inductive imageExchanges (characterImages : gmap string CharacterImage)
    : list Request → Prop :=
  | imageExchanges_nil : imageExchanges characterImages []
  | imageExchanges_cons (speaker action imagePromptText : string) (rest : list Request) :
      imageExchanges characterImages rest →
      imageExchanges characterImages
        (ImagePromptRequest speaker action
         :: ImageRequest
              (if truthyProperty (λ _, true)
                    (getProperty characterImages (characterImageKey speaker)) then
                 "Use the character from the input image. Place them in this scene, matching the existing art style: "
                 +:+ imagePromptText
               else imagePromptText)
              (optionalMember base64 (getProperty characterImages (characterImageKey speaker)))
              (optionalMember mimeType (getProperty characterImages (characterImageKey speaker)))
         :: rest).

(** A speech request that names a voice of one of the two pools or, for a
    character named like a property of [Object.prototype], what is inherited
    under that name. *)
Definition pooledSpeechRequest (r : Request) : Prop :=
  ∃ text voiceName,
    r = SpeechRequest text voiceName
    ∧ ((∃ voice, voiceName = Own voice ∧ voice ∈ MALE_VOICES ++ FEMALE_VOICES)
       ∨ (∃ name, voiceName = Inherited name ∧ name ∈ Object_prototype)).

(** The message under which every failure of a feed is reported. *)
Definition feedUnavailable (url : string) : string :=
  "Could not fetch or parse from " +:+ url +:+ ". The source might be unavailable or blocked.".

(** The outcome of [fetchDescriptionFromRSS] at [url] when the body of its
    [try] block ends in [outcome]: the reason of a failure is replaced. *)
Definition settledFeed (url : string) (outcome : Result string) : Result string :=
  match outcome with
  | Ok seed => Ok seed
  | Throw _ => Throw (feedUnavailable url)
  end.

(** A byte. *)
Definition isByte (b : Z) : Prop := (0 ≤ b < 256)%Z.


(** The four entries that every archive has. *)
Definition fixedEntries `{Platform} (script : Script) : gmap string ZipEntry :=
  <["audio/" := ZipFolder]>
    (<["images/" := ZipFolder]>
       (<["story.txt" := ZipText (scriptToText (Some script))]>
          (<["script.json" := ZipText (JSON_stringify script)]> ∅))).

(** The entries that [handleDownloadZip] has added to the archive when it
    asks the library to generate it. *)
Definition bundleEntries `{Platform} (script : Script) (images : list GeneratedImage.t)
    (clips : list GeneratedAudio.t) : gmap string ZipEntry :=
  foldl addAudio
    (<["audio/" := ZipFolder]>
       (foldl addImage
          (<["images/" := ZipFolder]>
             (<["story.txt" := ZipText (scriptToText (Some script))]>
                (<["script.json" := ZipText (JSON_stringify script)]> ∅)))
          images))
    clips.

(** A table of voices as assignment builds it: no entry has the name of a
    property of [Object.prototype], every voice comes from a pool, the
    female pool exactly for the characters recorded as female, and the two
    cursors count the entries. *)
Record pooledVoices (st : VoiceState) : Prop := {
  pooled_own : ∀ name, is_Some (characterVoices st !! name) → name ∉ Object_prototype;
  pooled_voice : ∀ name voice, characterVoices st !! name = Some voice →
    voice ∈ MALE_VOICES ++ FEMALE_VOICES;
  pooled_female : ∀ name voice, characterVoices st !! name = Some voice →
    (voice ∈ FEMALE_VOICES ↔ assignedGenders st !! name = Some female);
  pooled_size : size (characterVoices st) = maleVoiceIndex st + femaleVoiceIndex st
}.

(** [clip] holds the WAV encoding of the samples that some payload decodes
    to, and its duration is their byte count over 48000. *)
Definition encodedClip (clip : GeneratedAudio.t) : Prop :=
  ∃ payload pcmData,
    decode payload = Ok pcmData
    ∧ GeneratedAudio.audioBlob clip
      = wavHeaderBytes (Z.of_nat (length pcmData)) SAMPLE_RATE 1 16 ++ pcmData
    ∧ GeneratedAudio.duration clip
      = (num (Z.of_nat (length pcmData)) / num (SAMPLE_RATE * 2))%Q.

(** [c] occurs in [s]. *)
Fixpoint occurs (c : ascii) (s : string) : bool :=
  match s with
  | EmptyString => false
  | String x s' => Ascii.eqb x c || occurs c s'
  end.


(** The paths of the assets of a scene in the archive. *)
Definition imagePath (sceneIndex : nat) : string := "images/" +:+ assetFileName sceneIndex "png".
Definition audioPath (sceneIndex : nat) : string := "audio/" +:+ assetFileName sceneIndex "wav".

(** The prefix of the data URI under which the image loop stores a picture. *)
Definition PNG_DATA_URI : string := "data:image/png;base64,".

(** ** The application over its services

    The platform of the application as it is wired in the source: the
    premise is read by [fetchDescriptionFromRSS] of [geminiService.ts], and
    the story, the image prompts, the images and the speech come from its
    wrappers around [generateContent]. *)

Record Services := {
  ServiceWorld : Type;
  toUpperCase : string → string;
  toUpperCase_ascii : ∀ s,
    Str.isAscii s = true → toUpperCase s = Str.mapChars Str.upperChar s;
  regExpMatch : string → string → string → RegExpOutcome;
  toLowerCaseError : string;
  stringify : Script → string;
  generateAsync : gmap string ZipEntry → Result unit;
  dayIndex : ServiceWorld → nat;
  generateContent :
    Gemini.GenerateContentRequest → ServiceWorld
    → Result Gemini.GenerateContentResponse * ServiceWorld;
  JSON_parse : string → Result Script;
  typeErrorMessage : Gemini.GenerateContentResponse → string;
  fetch : string → ServiceWorld → Result Rss.HttpResponse * ServiceWorld;
  encodeURIComponent : string → string;
  parseXml : string → Rss.XmlDocument;
  htmlText : string → string
}.

Definition liveReadFeed (s : Services) : string → ServiceWorld s → Result string * ServiceWorld s :=
  Rss.readFeed (ServiceWorld s) (fetch s) (encodeURIComponent s) (parseXml s) (htmlText s).

Definition livePlatform (s : Services) : Platform :=
  {| World := ServiceWorld s;
     String_toUpperCase := toUpperCase s;
     String_toUpperCase_ascii := toUpperCase_ascii s;
     RegExp_match := regExpMatch s;
     TypeError_toLowerCase := toLowerCaseError s;
     JSON_stringify := stringify s;
     JSZip_generateAsync := generateAsync s;
     pstDayIndex := dayIndex s;
     rssDescription := liveReadFeed s;
     generateStory := Gemini.generateStory (ServiceWorld s) (generateContent s) (JSON_parse s);
     createImagePromptFromAction := λ character action w,
       let '(answer, w) :=
         Gemini.createImagePromptFromAction (ServiceWorld s) (generateContent s)
           (typeErrorMessage s) character action w in
       (match answer with
        | Ok text => text
        | Throw _ => character +:+ " " +:+ action
        end, w);
     generateImage :=
       Gemini.generateImage (ServiceWorld s) (generateContent s) (typeErrorMessage s);
     generateSpeech := Gemini.generateSpeech (ServiceWorld s) (generateContent s) |}.

(** A description from which the item loop takes no seed. *)
Definition skipped (htmlText : string → string) (description : option string) : Prop :=
  match description with
  | Some htmlContent =>
      htmlContent = "" ∨ Rss.validSeed (Str.trim (htmlText htmlContent)) = false
  | None => True
  end.

(** The requests that the wrappers send. *)
Definition storyRequest (finalPrompt : string) : Gemini.GenerateContentRequest :=
  {| Gemini.model := "gemini-2.5-pro"; Gemini.contents := Gemini.TextContents finalPrompt;
     Gemini.config := Gemini.ScriptJsonConfig |}.

Definition imagePromptRequest (character action : string) : Gemini.GenerateContentRequest :=
  {| Gemini.model := "gemini-2.5-flash";
     Gemini.contents := Gemini.TextContents (Gemini.imagePromptInstructions character action);
     Gemini.config := Gemini.NoConfig |}.

Definition imageRequest (prompt : string) (reference : list Gemini.Part)
    : Gemini.GenerateContentRequest :=
  {| Gemini.model := "gemini-2.5-flash-image";
     Gemini.contents :=
       Gemini.PartsContents
         (reference ++ [Gemini.TextPart (prompt +:+ ". Cinematic, 16:9 aspect ratio.")]);
     Gemini.config := Gemini.ImageConfig |}.

Definition speechRequest (text : string) (voiceName : Property string)
    : Gemini.GenerateContentRequest :=
  {| Gemini.model := "gemini-2.5-flash-preview-tts";
     Gemini.contents := Gemini.PartsContents [Gemini.TextPart text];
     Gemini.config := Gemini.SpeechConfig voiceName |}.

(** ** Further sample data *)

(** The clip of the sample script when the speech service answers AAAA. *)
Definition sampleClip : GeneratedAudio.t :=
  {| GeneratedAudio.sceneIndex := 1;
     GeneratedAudio.audioBlob := wavHeaderBytes 3 SAMPLE_RATE 1 16 ++ [0; 0; 0]%Z;
     GeneratedAudio.duration := (num 3 / num (SAMPLE_RATE * 2))%Q;
     GeneratedAudio.character := "URSULA";
     GeneratedAudio.dialogue := "Hello, Hollywood." |}.

(** Services whose feeds answer and whose generative service is down: every
    feed has an item without description, an item that holds a link, and an
    item with a story seed. *)
Definition sampleServices : Services :=
  {| ServiceWorld := nat;
     toUpperCase := Str.mapChars Str.upperChar;
     toUpperCase_ascii := λ s _, eq_refl;
     regExpMatch := λ source flags input, NoMatch;
     toLowerCaseError := "Cannot read properties of undefined (reading 'toLowerCase')";
     stringify := λ script, "{}";
     generateAsync := stubGenerateAsync;
     dayIndex := λ w, w mod 7;
     generateContent := λ request w, (Throw "503 Service Unavailable", S w);
     JSON_parse := λ text, Throw "Unexpected end of JSON input";
     typeErrorMessage := λ response, "Cannot read properties of undefined (reading '0')";
     fetch := λ url w,
       (Ok {| Rss.ok := true; Rss.status := 200; Rss.body := Ok "<rss/>" |}, S w);
     encodeURIComponent := λ url, url;
     parseXml := λ xmlText,
       Rss.Items [None; Some "https://example.org/comment";
                  Some "  A crew of misfits runs a noodle bar on the moon.  "];
     htmlText := λ htmlContent, htmlContent |}.

(** The same services when the feed of today answers with status 503. *)
Definition todayDownServices : Services :=
  {| ServiceWorld := nat;
     toUpperCase := toUpperCase sampleServices;
     toUpperCase_ascii := toUpperCase_ascii sampleServices;
     regExpMatch := regExpMatch sampleServices;
     toLowerCaseError := toLowerCaseError sampleServices;
     stringify := stringify sampleServices;
     generateAsync := generateAsync sampleServices;
     dayIndex := dayIndex sampleServices;
     generateContent := generateContent sampleServices;
     JSON_parse := JSON_parse sampleServices;
     typeErrorMessage := typeErrorMessage sampleServices;
     fetch := λ url w,
       if Str.includes "%3Dtoday" url then
         (Ok {| Rss.ok := false; Rss.status := 503; Rss.body := Ok "Service Unavailable" |},
          S w)
       else (Ok {| Rss.ok := true; Rss.status := 200; Rss.body := Ok "<rss/>" |}, S w);
     encodeURIComponent := encodeURIComponent sampleServices;
     parseXml := parseXml sampleServices;
     htmlText := htmlText sampleServices |}.



(** * Properties *)

(** ** Binary fields *)

Module DataViewFacts.
Import DataView.

Lemma truncate_num (z : Z) : truncate (num z) = z.
Proof. unfold truncate, num; simpl. apply Z.quot_1_r. Qed.

Lemma toUint_num (bits z : Z) : toUint bits (num z) = (z mod 2 ^ bits)%Z.
Proof. unfold toUint. by rewrite truncate_num. Qed.

Lemma byteOf_div (v : Z) (k : nat) :
  byteOf v k = ((v / 2 ^ (8 * Z.of_nat k)) mod 256)%Z.
Proof.
  unfold byteOf. rewrite Z.shiftr_div_pow2 by lia.
  change 255%Z with (Z.ones 8). by rewrite Z.land_ones by lia.
Qed.

Lemma fromLE_fieldBytes (v : Z) (width k : nat) :
  fromLE (map (byteOf v) (seq k width))
  = ((v / 2 ^ (8 * Z.of_nat k)) mod 2 ^ (8 * Z.of_nat width))%Z.
Proof.
  revert k. induction width as [|w IH]; intros k.
  - simpl. by rewrite Z.mod_1_r.
  - cbn [seq map fromLE]. rewrite IH, byteOf_div.
    replace (8 * Z.of_nat (S w))%Z with (8 + 8 * Z.of_nat w)%Z by lia.
    rewrite Z.pow_add_r by lia. change (2 ^ 8)%Z with 256%Z.
    rewrite Z.rem_mul_r by lia. f_equal. f_equal.
    replace (8 * Z.of_nat (S k))%Z with (8 * Z.of_nat k + 8)%Z by lia.
    rewrite Z.pow_add_r by lia. change (2 ^ 8)%Z with 256%Z.
    rewrite Z.div_div by lia. done.
Qed.

Lemma length_writeAt (view : list Z) (off : nat) (bytes : list Z) :
  length (writeAt view off bytes) = length view.
Proof.
  revert view off. induction bytes as [|b bs IH]; intros view off; [done|].
  simpl. by rewrite IH, length_insert.
Qed.

Lemma writeAt_app (pre old post bytes : list Z) :
  length old = length bytes →
  writeAt (pre ++ old ++ post) (length pre) bytes = pre ++ bytes ++ post.
Proof.
  revert pre old. induction bytes as [|b bs IH]; intros pre old Hlen.
  - by destruct old.
  - destruct old as [|o old]; [done|]. simpl in Hlen. cbn [writeAt].
    replace (<[length pre:=b]> (pre ++ (o :: old) ++ post))
      with ((pre ++ [b]) ++ old ++ post).
    + replace (S (length pre)) with (length (pre ++ [b])) by (rewrite length_app; simpl; lia).
      rewrite IH by lia. by rewrite <- app_assoc.
    + rewrite insert_app_r_alt by lia. rewrite Nat.sub_diag. simpl.
      by rewrite <- app_assoc.
Qed.

Lemma setUint_in_range (width off : nat) (value : Q) (le : bool) (view : list Z) :
  off + width ≤ length view →
  setUint width off value le view
  = Ok (writeAt view off (fieldBytes width (toUint (8 * Z.of_nat width) value) le)).
Proof. intros Hle. unfold setUint. by rewrite decide_True. Qed.

Lemma length_fieldBytes (width : nat) (v : Z) (le : bool) :
  length (fieldBytes width v le) = width.
Proof.
  unfold fieldBytes. destruct le; rewrite ?length_rev, length_map, length_seq; done.
Qed.

End DataViewFacts.

Import DataView DataViewFacts.

(** ** The audio encoder *)

Lemma pcmToWav_header (pcmData : list Z) (sampleRate numChannels bitsPerSample : Z) :
  pcmToWav pcmData sampleRate numChannels bitsPerSample
  = Ok (wavHeaderBytes (Z.of_nat (length pcmData)) sampleRate numChannels bitsPerSample
        ++ pcmData).
Proof.
  unfold pcmToWav, wavHeaderBytes, setUint32, setUint16.
  generalize (Z.of_nat (length pcmData)); intros n.
  repeat (rewrite setUint_in_range
            by (rewrite ?length_writeAt; unfold newArrayBuffer;
                rewrite length_replicate; lia);
          cbn [bindR]).
  reflexivity.
Qed.

Lemma length_wavHeaderBytes (n sr nc bps : Z) : length (wavHeaderBytes n sr nc bps) = 44.
Proof. unfold wavHeaderBytes. rewrite !length_app, !length_fieldBytes. done. Qed.

Lemma fromLE_uint32 (v : Z) :
  (0 ≤ v < 2 ^ 32)%Z →
  fromLE [byteOf v 0; byteOf v 1; byteOf v 2; byteOf v 3] = v.
Proof.
  intros Hv. change [byteOf v 0; byteOf v 1; byteOf v 2; byteOf v 3]
    with (map (byteOf v) (seq 0 4)).
  rewrite fromLE_fieldBytes. simpl (2 ^ _)%Z. rewrite Z.div_1_r.
  apply Z.mod_small. lia.
Qed.

Lemma readWavHeader_wavHeaderBytes (n : Z) :
  (0 ≤ n)%Z → (36 + n < 2 ^ 32)%Z →
  readWavHeader (wavHeaderBytes n SAMPLE_RATE 1 16)
  = {| riffTag := asciiBytes "RIFF";
       fileSize := 36 + n;
       waveTag := asciiBytes "WAVE";
       fmtTag := asciiBytes "fmt ";
       fmtChunkSize := 16;
       audioFormat := 1;
       numChannels := 1;
       sampleRate := SAMPLE_RATE;
       byteRate := SAMPLE_RATE * 1 * (16 / 8);
       blockAlign := 1 * (16 / 8);
       bitsPerSample := 16;
       dataTag := asciiBytes "data";
       dataSize := n |}.
Proof.
  intros Hn Hfit.
  unfold readWavHeader, getUint32, getUint16, getUint, wavHeaderBytes, fieldBytes.
  rewrite (toUint_num 32 (36 + n)), (toUint_num 32 n), !Z.mod_small by lia.
  cbn [map seq rev app firstn skipn].
  rewrite (fromLE_uint32 (36 + n)), (fromLE_uint32 n) by lia.
  f_equal; vm_compute; reflexivity.
Qed.

(** C1, as the code has it.  For every buffer of [N] bytes with
    [36 + N < 2^32], [pcmToWav] at 24000 Hz, mono, 16 bits gives a 44-byte
    header followed by the buffer; read back at the offsets of the layout,
    the header holds RIFF, [36 + N], WAVE, fmt, 16, 1, the channel count,
    the sample rate, the byte rate [24000 * 1 * 16/8], the block align
    [1 * 16/8], the bit depth, data and [N], tags in file order and numbers
    little-endian. *)
Theorem pcmToWav_header_fields (pcmData : list Z) :
  (36 + Z.of_nat (length pcmData) < 2 ^ 32)%Z →
  ∃ wav,
    pcmToWav pcmData SAMPLE_RATE 1 16 = Ok wav
    ∧ length wav = 44 + length pcmData
    ∧ drop 44 wav = pcmData
    ∧ readWavHeader (take 44 wav)
      = {| riffTag := asciiBytes "RIFF";
           fileSize := 36 + Z.of_nat (length pcmData);
           waveTag := asciiBytes "WAVE";
           fmtTag := asciiBytes "fmt ";
           fmtChunkSize := 16;
           audioFormat := 1;
           numChannels := 1;
           sampleRate := SAMPLE_RATE;
           byteRate := SAMPLE_RATE * 1 * (16 / 8);
           blockAlign := 1 * (16 / 8);
           bitsPerSample := 16;
           dataTag := asciiBytes "data";
           dataSize := Z.of_nat (length pcmData) |}.
Proof.
  intros Hfit. eexists. split; [apply pcmToWav_header|].
  pose proof (length_wavHeaderBytes (Z.of_nat (length pcmData)) SAMPLE_RATE 1 16) as Hlen.
  split; [by rewrite length_app, Hlen|].
  split; [by rewrite drop_app_length' by done|].
  rewrite take_app_length' by done.
  apply readWavHeader_wavHeaderBytes; lia.
Qed.

(** C1 as stated fails for large buffers: the size fields are 32 bits wide
    and wrap.  With [N = 2^32 - 36] bytes the file size field reads 0. *)
Lemma pcmToWav_fileSize_wraps :
  ∃ wav,
    pcmToWav (replicate (Z.to_nat 4294967260) 0%Z) SAMPLE_RATE 1 16 = Ok wav
    ∧ fileSize (readWavHeader (take 44 wav)) = 0%Z
    ∧ fileSize (readWavHeader (take 44 wav))
      ≠ (36 + Z.of_nat (length (replicate (Z.to_nat 4294967260) 0%Z)))%Z.
Proof.
  generalize (eq_refl (replicate (Z.to_nat 4294967260) 0%Z)).
  generalize (replicate (Z.to_nat 4294967260) 0%Z) at 1 3 4. intros pcmData HpcmData.
  assert (Hn : Z.of_nat (length pcmData) = 4294967260%Z).
  { rewrite HpcmData, length_replicate. apply Z2Nat.id. lia. }
  clear HpcmData.
  exists (wavHeaderBytes (Z.of_nat (length pcmData)) SAMPLE_RATE 1 16 ++ pcmData).
  split; [apply pcmToWav_header|].
  rewrite take_app_length' by (by rewrite length_wavHeaderBytes).
  rewrite Hn.
  assert (Hfs : fileSize (readWavHeader (wavHeaderBytes 4294967260 SAMPLE_RATE 1 16)) = 0%Z).
  { vm_compute. reflexivity. }
  rewrite Hfs. split; [reflexivity|lia].
Qed.

(** ** Indexed scenes *)

Section Indexed.
Context {A B : Type} (pick : A → option B).

Lemma indexed_omap_spec (l : list A) (k : nat) (x : B) (i : nat) :
  (x, i) ∈ omap (λ '(el, index), (λ y, (y, index)) <$> pick el)
             (imap (λ index el, (el, k + index)) l)
  ↔ k ≤ i ∧ ∃ el, l !! (i - k) = Some el ∧ pick el = Some x.
Proof.
  rewrite list_elem_of_omap. split.
  - intros ([el j] & Hin & Hpick).
    apply elem_of_lookup_imap in Hin as (n & el' & Heq & Hl). simplify_eq.
    destruct (pick el') as [y|] eqn:Hy; simplify_eq/=.
    split; [lia|]. exists el'. rewrite <- Hl. split; [f_equal; lia|done].
  - intros (Hle & el & Hl & Hpick). exists (el, i). split.
    + apply elem_of_lookup_imap. exists (i - k), el. split; [f_equal; lia|done].
    + by rewrite Hpick.
Qed.

Lemma indexed_omap_increasing (l : list A) (k : nat) :
  increasing
    (snd <$> omap (λ '(el, index), (λ y, (y, index)) <$> pick el)
               (imap (λ index el, (el, k + index)) l)).
Proof.
  revert k. induction l as [|el l IH]; intros k.
  - intros i j a b _ Hi. done.
  - rewrite imap_cons. cbn [omap list_omap].
    assert (Hext : imap ((λ index el0, (el0, k + index)) ∘ S) l
                   = imap (λ index el0, (el0, S k + index)) l).
    { apply imap_ext. intros n y _. simpl. f_equal. lia. }
    rewrite Hext. replace (k + 0) with k by lia.
    destruct (pick el) as [y|]; cbn [fmap option_fmap option_map]; [|apply IH].
    intros i j a b Hij Hi Hj. cbn [fmap list_fmap snd] in Hi, Hj.
    destruct j as [|j]; [lia|]. cbn in Hj.
    assert (Hb : S k ≤ b).
    { apply list_elem_of_lookup_2 in Hj. apply list_elem_of_fmap in Hj as ([x b'] & -> & Hin).
      by apply (indexed_omap_spec l (S k)) in Hin as [? _]. }
    destruct i as [|i].
    + cbn in Hi. simplify_eq. lia.
    + cbn in Hi. apply (IH (S k) i j a b); [lia|done..].
Qed.

Context (f : A * nat → option (B * nat)).
Hypothesis f_pick : ∀ el i, f (el, i) = (λ y, (y, i)) <$> pick el.

Lemma withIndex_omap (l : list A) :
  omap f (withIndex l)
  = omap (λ '(el, index), (λ y, (y, index)) <$> pick el)
      (imap (λ index el, (el, 0 + index)) l).
Proof.
  apply list_omap_ext, Forall2_same_length_lookup_2; [done|].
  intros j [el a] [el' b] H1 H2.
  unfold withIndex in H1. cbn [Nat.add] in H2.
  simplify_eq. apply f_pick.
Qed.

Lemma withIndex_omap_spec (l : list A) (x : B) (i : nat) :
  (x, i) ∈ omap f (withIndex l) ↔ ∃ el, l !! i = Some el ∧ pick el = Some x.
Proof.
  rewrite withIndex_omap, indexed_omap_spec, Nat.sub_0_r. split; [by intros [_ ?]|].
  intros ?. split; [lia|done].
Qed.

Lemma withIndex_omap_increasing (l : list A) :
  increasing (snd <$> omap f (withIndex l)).
Proof. rewrite withIndex_omap. apply indexed_omap_increasing. Qed.

End Indexed.


Lemma scenesWithAction_spec (script : Script) (c : string) (i : nat) :
  (c, i) ∈ scenesWithAction script
  ↔ scene_elements script !! i = Some (Action c) ∧ c ≠ "".
Proof.
  unfold scenesWithAction. rewrite (withIndex_omap_spec pickAction).
  - split.
    + intros (el & Hl & Hpick). destruct el as [?|content|?|?]; simplify_eq/=.
      destruct content; simplify_eq/=. done.
    + intros [Hl Hc]. eexists; split; [done|]. simpl. by destruct c.
  - intros [?|content|?|?] j; simpl; try done. by destruct (Str.truthy content).
Qed.

Lemma scenesWithAction_increasing (script : Script) :
  increasing (snd <$> scenesWithAction script).
Proof.
  apply (withIndex_omap_increasing pickAction).
  intros [?|content|?|?] j; simpl; try done. by destruct (Str.truthy content).
Qed.

Lemma dialogueBlocks_spec (script : Script) (block : DialogueBlock) (i : nat) :
  (block, i) ∈ dialogueBlocks script
  ↔ scene_elements script !! i = Some (DialogueBlockElement block).
Proof.
  unfold dialogueBlocks. rewrite (withIndex_omap_spec pickDialogue).
  - split.
    + intros (el & Hl & Hpick). destruct el; simplify_eq/=. done.
    + intros Hl. eexists; split; [done|]. done.
  - by intros [] j.
Qed.

Lemma dialogueBlocks_increasing (script : Script) :
  increasing (snd <$> dialogueBlocks script).
Proof. apply (withIndex_omap_increasing pickDialogue). by intros [] j. Qed.

Lemma increasing_NoDup (l : list nat) : increasing l → NoDup l.
Proof.
  intros Hinc. apply NoDup_alt. intros i j x Hi Hj.
  destruct (Nat.lt_trichotomy i j) as [Hlt|[->|Hlt]]; [|done|].
  - pose proof (Hinc i j x x Hlt Hi Hj). lia.
  - pose proof (Hinc j i x x Hlt Hj Hi). lia.
Qed.

(** ** Speaker attribution *)

Lemma lastDialogue_snoc (l : list SceneElement) (el : SceneElement) :
  lastDialogue (l ++ [el])
  = match el with
    | DialogueBlockElement block => Some block
    | _ => lastDialogue l
    end.
Proof.
  unfold lastDialogue. rewrite filter_app.
  destruct el; simpl;
    (rewrite filter_cons_False by (simpl; congruence); rewrite filter_nil, app_nil_r; done)
    || (rewrite filter_cons_True by done; rewrite filter_nil, last_snoc; done).
Qed.

Lemma lastDialogue_take (script : Script) (i : nat) :
  match lastDialogue (take i (scene_elements script)) with
  | Some block => nearestPrecedingDialogue script i block
  | None => ∀ k, k < i → ¬ dialogueAt script k
  end.
Proof.
  induction i as [|i IH].
  - rewrite take_0. cbn. intros k Hk. lia.
  - destruct (scene_elements script !! i) as [el|] eqn:Hel.
    + rewrite (take_S_r _ _ _ Hel), lastDialogue_snoc.
      assert (Hkeep : ¬ dialogueAt script i →
                match lastDialogue (take i (scene_elements script)) with
                | Some block => nearestPrecedingDialogue script (S i) block
                | None => ∀ k, k < S i → ¬ dialogueAt script k
                end).
      { intros Hno. destruct (lastDialogue (take i (scene_elements script))) as [block|].
        - destruct IH as (j & Hj & Hjb & Hbetween). exists j. split; [lia|]. split; [done|].
          intros k Hk. destruct (decide (k = i)) as [->|]; [done|]. apply Hbetween. lia.
        - intros k Hk. destruct (decide (k = i)) as [->|]; [done|]. apply IH. lia. }
      destruct el as [c|c|c|block];
        try (apply Hkeep; intros [b Hb]; congruence).
      exists i. split; [lia|]. split; [done|]. intros k Hk. lia.
    + rewrite take_ge in * by (apply lookup_ge_None in Hel; lia).
      assert (Hno : ¬ dialogueAt script i) by (intros [b Hb]; congruence).
      destruct (lastDialogue (scene_elements script)) as [block|].
      * destruct IH as (j & Hj & Hjb & Hbetween). exists j. split; [lia|]. split; [done|].
        intros k Hk. destruct (decide (k = i)) as [->|]; [done|]. apply Hbetween. lia.
      * intros k Hk. destruct (decide (k = i)) as [->|]; [done|]. apply IH. lia.
Qed.

Lemma resolveSpeaker_attributed (script : Script) (i : nat) (lastCharacter : string) :
  carriedOver script i lastCharacter →
  attributedSpeaker script i (resolveSpeaker script i lastCharacter).
Proof.
  intros Hcarried. unfold resolveSpeaker.
  pose proof (lastDialogue_take script i) as Hlast.
  destruct (lastDialogue (take i (scene_elements script))) as [block|].
  - left. by exists block.
  - right. split; [done|]. by apply Hcarried.
Qed.

Lemma resolveSpeaker_carriedOver (script : Script) (i bound : nat) (lastCharacter : string) :
  i ≤ bound →
  carriedOver script i lastCharacter →
  carriedOver script bound (resolveSpeaker script i lastCharacter).
Proof.
  intros Hle Hcarried Hno. unfold resolveSpeaker.
  pose proof (lastDialogue_take script i) as Hlast.
  destruct (lastDialogue (take i (scene_elements script))) as [block|].
  - destruct Hlast as (j & Hj & Hjb & _). destruct (Hno j); [lia|by exists block].
  - apply Hcarried. intros k Hk. apply Hno. lia.
Qed.

Lemma resolvedSpeakers_attributed (script : Script) (scenes : list (string * nat))
    (lastCharacter : string) :
  increasing (snd <$> scenes) →
  (∀ c i, (c, i) ∈ scenes → carriedOver script i lastCharacter) →
  Forall2 (λ '(speaker, action) '(content, i),
             action = content ∧ attributedSpeaker script i speaker)
    (resolvedSpeakers script scenes lastCharacter) scenes.
Proof.
  revert lastCharacter. induction scenes as [|[c i] rest IH]; intros lc Hinc Hcarried.
  - constructor.
  - cbn [resolvedSpeakers]. constructor.
    + split; [done|]. apply resolveSpeaker_attributed, (Hcarried c). left.
    + apply IH.
      * intros a b x y Hab Ha Hb. apply (Hinc (S a) (S b)); [lia|done..].
      * intros c' i' Hin. apply resolveSpeaker_carriedOver; [|apply (Hcarried c); left].
        apply list_elem_of_lookup in Hin as [n Hn].
        assert (i < i'); [|lia].
        apply (Hinc 0 (S n) i i'); [lia|done|].
        change ((snd <$> rest) !! n = Some i'). by rewrite list_lookup_fmap, Hn.
Qed.

Section ImageStage.
Context `{Platform}.

Lemma imageLoop_run (script : Script) (characterImages : gmap string CharacterImage)
    (scenes : list (string * nat)) (lastCharacter : string)
    (images : list GeneratedImage.t) (env : Env) :
  ∃ n, n ≤ length scenes
    ∧ (scenes ≠ [] → 0 < n)
    ∧ imagePromptRequests
        (requests (imageLoop script characterImages scenes lastCharacter images env).2)
      = imagePromptRequests (requests env)
        ++ take n (resolvedSpeakers script scenes lastCharacter)
    ∧ match (imageLoop script characterImages scenes lastCharacter images env).1 with
      | Ok images' =>
          n = length scenes
          ∧ GeneratedImage.sceneIndex <$> images'
            = (GeneratedImage.sceneIndex <$> images) ++ (snd <$> scenes)
      | Throw message =>
          ∃ prompt characterImageBase64 mimeType w,
            (generateImage prompt characterImageBase64 mimeType w).1 = Throw message
      end.
Proof.
  revert lastCharacter images env.
  induction scenes as [|[c i] rest IH]; intros lc images env.
  - exists 0. cbn. rewrite !app_nil_r. done.
  - cbn [imageLoop resolvedSpeakers].
    set (lc' := resolveSpeaker script i lc).
    unfold mbind, M_bind, bind, ask, call, request.
    destruct (createImagePromptFromAction lc' c (world env)) as [text w1] eqn:Hprompt.
    cbn [world requests].
    match goal with
    | |- context [generateImage ?p ?b ?m w1] =>
        destruct (generateImage p b m w1) as [[imageBase64|message] w2] eqn:Himage
    end.
    + match goal with
      | |- context [imageLoop script characterImages rest lc' ?acc ?e] =>
          destruct (IH lc' acc e) as (n & Hn & _ & Hlog & Hres)
      end.
      exists (S n). split; [simpl; lia|]. split; [intros _; lia|]. split.
      * rewrite Hlog. cbn [requests]. unfold imagePromptRequests at 1.
        rewrite !omap_app. cbn. rewrite app_nil_r, <- app_assoc. done.
      * match goal with
        | |- match (imageLoop ?a ?b ?c ?d ?e ?f).1 with _ => _ end =>
            destruct (imageLoop a b c d e f).1 as [images'|]; [|done]
        end.
        destruct Hres as [-> Hidx]. split; [done|].
        rewrite Hidx, fmap_app, <- app_assoc. done.
    + exists 1. split; [simpl; lia|]. split; [intros _; lia|]. split.
      * cbn. unfold imagePromptRequests. rewrite !omap_app. cbn.
        rewrite app_nil_r, take_0. done.
      * cbn [fst]. eexists _, _, _, w1. by rewrite Himage.
Qed.

(** The image loop goes through when every image can be made. *)
Lemma imageLoop_succeeds (script : Script) (characterImages : gmap string CharacterImage)
    (scenes : list (string * nat)) (lastCharacter : string)
    (images : list GeneratedImage.t) (env : Env) :
  (∀ prompt characterImageBase64 mimeType w,
     isOk (generateImage prompt characterImageBase64 mimeType w).1) →
  isOk (imageLoop script characterImages scenes lastCharacter images env).1.
Proof.
  intros Hservice. revert lastCharacter images env.
  induction scenes as [|[c i] rest IH]; intros lc images env; [done|].
  cbn [imageLoop]. unfold mbind, M_bind, bind, ask, call, request.
  destruct (createImagePromptFromAction _ c (world env)) as [text w1]. cbn [world requests].
  match goal with
  | |- context [generateImage ?p ?b ?m w1] =>
      pose proof (Hservice p b m w1) as Hok;
      destruct (generateImage p b m w1) as [[imageBase64|message] w2]
  end; [apply IH|done].
Qed.

End ImageStage.

(** ** The speech stage *)

Section SpeechStage.
Context `{Platform}.

(** One turn of the loop on a block that has something to say. *)
Lemma audioLoop_spoken (voices : gmap string string) (el : DialogueBlock) (index : nat)
    (rest : list (DialogueBlock * nat)) (audioClips : list GeneratedAudio.t) (env : Env) :
  spoken (el, index) →
  audioLoop voices ((el, index) :: rest) audioClips env
  = let '(answer, w) :=
      generateSpeech (promptText el) (getProperty voices (character el)) (world env) in
    let env' :=
      {| world := w;
         requests :=
           requests env
           ++ [SpeechRequest (promptText el) (getProperty voices (character el))] |} in
    match answer with
    | Throw message => (Throw message, env')
    | Ok audioBase64 =>
        match decode audioBase64 with
        | Throw message => (Throw message, env')
        | Ok pcmData =>
            audioLoop voices rest
              (audioClips ++
               [{| GeneratedAudio.sceneIndex := index;
                   GeneratedAudio.audioBlob :=
                     wavHeaderBytes (Z.of_nat (length pcmData)) SAMPLE_RATE 1 16 ++ pcmData;
                   GeneratedAudio.duration :=
                     (num (Z.of_nat (length pcmData)) / num (SAMPLE_RATE * 2))%Q;
                   GeneratedAudio.character := character el;
                   GeneratedAudio.dialogue := dialogueText el |}]) env'
        end
    end.
Proof.
  intros Hspoken. unfold spoken in Hspoken. cbn [fst] in Hspoken.
  cbn [audioLoop]. destruct (Str.truthy (dialogueText el)); [|done]. cbn [negb].
  unfold mbind, M_bind, bind, call, request, liftR.
  destruct (generateSpeech _ _ _) as [[audioBase64|message] w]; [|done].
  destruct (decode audioBase64) as [pcmData|message]; [|done].
  rewrite pcmToWav_header. done.
Qed.

Lemma audioLoop_silent (voices : gmap string string) (el : DialogueBlock) (index : nat)
    (rest : list (DialogueBlock * nat)) (audioClips : list GeneratedAudio.t) (env : Env) :
  ¬ spoken (el, index) →
  audioLoop voices ((el, index) :: rest) audioClips env = audioLoop voices rest audioClips env.
Proof.
  intros Hsilent. unfold spoken in Hsilent. cbn [fst] in Hsilent.
  cbn [audioLoop]. by destruct (Str.truthy (dialogueText el)).
Qed.

Lemma audioLoop_filter (voices : gmap string string) (blocks : list (DialogueBlock * nat))
    (audioClips : list GeneratedAudio.t) (env : Env) :
  audioLoop voices blocks audioClips env
  = audioLoop voices (filter spoken blocks) audioClips env.
Proof.
  revert audioClips env. induction blocks as [|[el index] rest IH]; intros clips env; [done|].
  destruct (decide (spoken (el, index))) as [Hs|Hs].
  - rewrite filter_cons_True by done. rewrite !audioLoop_spoken by done.
    destruct (generateSpeech _ _ _) as [[audioBase64|message] w]; [|done].
    destruct (decode audioBase64); [|done]. apply IH.
  - rewrite filter_cons_False by done. rewrite audioLoop_silent by done. apply IH.
Qed.

Lemma audioLoop_run (voices : gmap string string) (blocks : list (DialogueBlock * nat))
    (audioClips : list GeneratedAudio.t) (env : Env) :
  ∃ n, n ≤ length (filter spoken blocks)
    ∧ speechRequests (requests (audioLoop voices blocks audioClips env).2)
      = speechRequests (requests env)
        ++ take n (speechRequestOf voices <$> filter spoken blocks)
    ∧ match (audioLoop voices blocks audioClips env).1 with
      | Ok clips =>
          n = length (filter spoken blocks)
          ∧ ∃ new, clips = audioClips ++ new ∧ Forall2 clipOf new (filter spoken blocks)
      | Throw _ => True
      end.
Proof.
  rewrite audioLoop_filter.
  assert (Hall : Forall spoken (filter spoken blocks)).
  { apply Forall_forall. intros b Hb. by apply list_elem_of_filter in Hb as [? _]. }
  revert audioClips env Hall.
  induction (filter spoken blocks) as [|[el index] rest IH]; intros clips env Hall.
  - exists 0. cbn. rewrite !app_nil_r. split; [done|]. split; [done|]. split; [done|].
    exists []. by rewrite app_nil_r.
  - apply Forall_cons in Hall as [Hs Hall]. rewrite audioLoop_spoken by done.
    destruct (generateSpeech _ _ _) as [[audioBase64|message] w]; cbv zeta.
    2:{ exists 1. split; [simpl; lia|]. split; [|done]. cbn.
        unfold speechRequests. rewrite omap_app. cbn. by rewrite take_0. }
    destruct (decode audioBase64) as [pcmData|message].
    2:{ exists 1. split; [simpl; lia|]. split; [|done]. cbn.
        unfold speechRequests. rewrite omap_app. cbn. by rewrite take_0. }
    match goal with
    | |- context [audioLoop voices rest ?acc ?e] =>
        destruct (IH acc e Hall) as (n & Hn & Hlog & Hres)
    end.
    exists (S n). split; [simpl; lia|]. split.
    + rewrite Hlog. cbn [requests]. unfold speechRequests at 1.
      rewrite omap_app. cbn. by rewrite <- app_assoc.
    + match goal with
      | |- match (audioLoop ?a ?b ?c ?d).1 with _ => _ end =>
          destruct (audioLoop a b c d).1 as [clips'|]; [|done]
      end.
      destruct Hres as (-> & new & -> & Hnew). split; [done|].
      eexists (_ :: new). rewrite <- app_assoc. split; [done|].
      constructor; [|done]. repeat split. by eexists.
Qed.

End SpeechStage.

Lemma increasing_cons (x : nat) (l : list nat) :
  increasing (x :: l) ↔ Forall (λ y, x < y) l ∧ increasing l.
Proof.
  split.
  - intros Hinc. split.
    + apply Forall_lookup. intros i y Hy. by apply (Hinc 0 (S i)); [lia|..].
    + intros i j a b Hij Hi Hj. by apply (Hinc (S i) (S j)); [lia|..].
  - intros [Hall Hinc] i j a b Hij Hi Hj. destruct j as [|j]; [lia|].
    destruct i as [|i]; simplify_eq/=.
    + by apply (Forall_lookup_1 _ _ _ _ Hall Hj).
    + by apply (Hinc i j); [lia|..].
Qed.

Lemma increasing_filter_snd {A} (P : A * nat → Prop) `{!∀ x, Decision (P x)}
    (l : list (A * nat)) :
  increasing (snd <$> l) → increasing (snd <$> filter P l).
Proof.
  induction l as [|[a i] l IH]; [done|].
  rewrite fmap_cons, increasing_cons. intros [Hall Hinc].
  destruct (decide (P (a, i))).
  - rewrite filter_cons_True by done. rewrite fmap_cons, increasing_cons. split; [|auto].
    apply Forall_forall. intros y Hy. apply list_elem_of_fmap in Hy as (b & -> & Hb).
    apply list_elem_of_filter in Hb as [_ Hb].
    apply (proj1 (Forall_forall _ _) Hall). apply list_elem_of_fmap. by exists b.
  - rewrite filter_cons_False by done. auto.
Qed.

Lemma increasing_nondecreasing (l : list nat) : increasing l → nondecreasing l.
Proof.
  intros Hinc i j a b Hij Hi Hj. destruct (decide (i = j)) as [->|]; [simplify_eq; lia|].
  assert (a < b); [|lia]. by apply (Hinc i j); [lia|..].
Qed.

Lemma Forall2_and_r {A B} (P : A → B → Prop) (Q : B → Prop) (l : list A) (k : list B) :
  Forall2 P l k → Forall Q k → Forall2 (λ x y, P x y ∧ Q y) l k.
Proof.
  induction 1 as [|x y l k HP _ IH]; intros HQ; [constructor|].
  apply Forall_cons in HQ as [? ?]. constructor; auto.
Qed.

(** A block has no dialogue text when it has no dialogue line, or when its
    first dialogue line is empty. *)
Lemma dialogueText_empty (el : DialogueBlock) :
  dialogueText el = ""
  ↔ Forall (λ e, elementType e ≠ dialogue) (elements el)
    ∨ ∃ pre d post,
        elements el = pre ++ d :: post
        ∧ Forall (λ e, elementType e ≠ dialogue) pre
        ∧ elementType d = dialogue
        ∧ elementContent d = "".
Proof.
  destruct el as [name es]. unfold dialogueText, findElement. cbn [elements].
  induction es as [|e es IH].
  - cbn. split; [by left|done].
  - cbn [List.find]. destruct (elementType e) eqn:He.
    + rewrite bool_decide_eq_false_2 by done. rewrite IH. split.
      * intros [Hall|(pre & d & post & -> & Hpre & Hd & Hc)].
        -- left. constructor; [congruence|done].
        -- right. exists (e :: pre), d, post. split; [done|]. split; [|done].
           constructor; [congruence|done].
      * intros [Hall|(pre & d & post & Heq & Hpre & Hd & Hc)].
        -- left. by apply Forall_cons in Hall as [_ ?].
        -- destruct pre as [|p pre]; simplify_eq/=; [congruence|].
           right. apply Forall_cons in Hpre as [_ Hpre]. by exists pre, d, post.
    + rewrite bool_decide_eq_true_2 by done. split.
      * intros Hc. right. by exists [], e, es.
      * intros [Hall|(pre & d & post & Heq & Hpre & Hd & Hc)].
        -- by apply Forall_cons in Hall as [? _].
        -- destruct pre as [|p pre]; simplify_eq/=; [done|].
           by apply Forall_cons in Hpre as [? _].
Qed.

Section StageClaims.
Context `{Platform}.

(** C2. Speaker attribution.  Whatever the services answer, the image stage
    asks for one image prompt per action with non-empty content, in document
    order, until a failure stops it; the speaker sent with the action at
    position [i] is the character of the nearest dialogue block before [i],
    and the sentinel ["A character"] when no dialogue block precedes [i].  The
    prompt for the first such action is always asked for; the stage fails
    only with the failure of [generateImage], and it succeeds whenever every
    image can be made; a stage that succeeds has covered every such action.
    In a script without dialogue blocks every speaker is the sentinel. *)
Theorem imageStage_speaker_attribution (script : Script)
    (characterImages : gmap string CharacterImage) (env : Env) :
  ∃ prompts n,
    imagePromptRequests (requests (imageStage script characterImages env).2)
    = imagePromptRequests (requests env) ++ prompts
    ∧ n ≤ length (scenesWithAction script)
    ∧ (scenesWithAction script ≠ [] → 0 < n)
    ∧ (isOk (imageStage script characterImages env).1 → n = length (scenesWithAction script))
    ∧ ((∀ prompt characterImageBase64 mimeType w,
          isOk (generateImage prompt characterImageBase64 mimeType w).1) →
       isOk (imageStage script characterImages env).1)
    ∧ (∀ message, (imageStage script characterImages env).1 = Throw message →
         ∃ prompt characterImageBase64 mimeType w,
           (generateImage prompt characterImageBase64 mimeType w).1 = Throw message)
    ∧ Forall2 (λ '(speaker, action) '(content, i),
                 (action = content ∧ attributedSpeaker script i speaker)
                 ∧ scene_elements script !! i = Some (Action content) ∧ content ≠ "")
        prompts (take n (scenesWithAction script))
    ∧ (∀ content i, scene_elements script !! i = Some (Action content) → content ≠ "" →
         (content, i) ∈ scenesWithAction script)
    ∧ ((∀ k, ¬ dialogueAt script k) → Forall (λ p, p.1 = UNKNOWN_SPEAKER) prompts).
Proof.
  unfold imageStage.
  destruct (imageLoop_run script characterImages (scenesWithAction script)
              UNKNOWN_SPEAKER [] env) as (n & Hn & Hpos & Hlog & Hres).
  assert (Hattr : Forall2 (λ '(speaker, action) '(content, i),
                    (action = content ∧ attributedSpeaker script i speaker)
                    ∧ scene_elements script !! i = Some (Action content) ∧ content ≠ "")
            (take n (resolvedSpeakers script (scenesWithAction script) UNKNOWN_SPEAKER))
            (take n (scenesWithAction script))).
  { apply Forall2_take.
    assert (H1 := resolvedSpeakers_attributed script (scenesWithAction script)
                    UNKNOWN_SPEAKER (scenesWithAction_increasing script)
                    (λ c i _ _, eq_refl)).
    assert (H2 : Forall (λ '(content, i),
                   scene_elements script !! i = Some (Action content) ∧ content ≠ "")
                   (scenesWithAction script)).
    { apply Forall_forall. intros [c i] Hin. by apply scenesWithAction_spec. }
    eapply Forall2_impl; [exact (Forall2_and_r _ _ _ _ H1 H2)|].
    intros [speaker action] [content i]. done. }
  exists (take n (resolvedSpeakers script (scenesWithAction script) UNKNOWN_SPEAKER)), n.
  split; [done|]. split; [done|]. split; [done|]. split.
  { intros Hok. destruct (imageLoop _ _ _ _ _ _).1; [by destruct Hres|done]. }
  split; [apply imageLoop_succeeds|]. split.
  { intros message Hfail. by rewrite Hfail in Hres. }
  split; [done|]. split.
  { intros content i Hi Hc. by apply scenesWithAction_spec. }
  intros Hnone. eapply Forall2_Forall_l; [exact Hattr|].
  apply Forall_forall. intros [content i] _ [speaker action] [[_ Hsp] _]. simpl.
  destruct Hsp as [(block & (j & _ & Hj & _) & _)|[_ ->]]; [|done].
  destruct (Hnone j). by exists block.
Qed.

(** C6. Blocks without dialogue text.  The speech stage runs exactly as if
    the blocks whose dialogue text is empty were not there: they make no
    request, add no clip and raise no error, and the loop goes on with the
    next block.  When the stage succeeds there is exactly one clip per block
    with dialogue text, in document order, after exactly one request each;
    and the stage succeeds whenever the service answers every request with a
    payload that decodes.  A block's dialogue text is empty when it has no
    dialogue line or when its first dialogue line has empty content. *)
Theorem audioLoop_skips_empty_dialogue (voices : gmap string string)
    (blocks : list (DialogueBlock * nat)) (audioClips : list GeneratedAudio.t) (env : Env) :
  audioLoop voices blocks audioClips env
  = audioLoop voices (filter spoken blocks) audioClips env
  ∧ (Forall (λ b, dialogueText b.1 = "") blocks →
       audioLoop voices blocks audioClips env = (Ok audioClips, env))
  ∧ (∀ clips, (audioLoop voices blocks audioClips env).1 = Ok clips →
       ∃ new, clips = audioClips ++ new
              ∧ Forall2 clipOf new (filter spoken blocks)
              ∧ speechRequests (requests (audioLoop voices blocks audioClips env).2)
                = speechRequests (requests env)
                  ++ (speechRequestOf voices <$> filter spoken blocks))
  ∧ ((∀ text voice w, ∃ payload w' pcmData,
         generateSpeech text voice w = (Ok payload, w') ∧ decode payload = Ok pcmData) →
       isOk (audioLoop voices blocks audioClips env).1)
  ∧ (∀ el, dialogueText el = ""
           ↔ Forall (λ e, elementType e ≠ dialogue) (elements el)
             ∨ ∃ pre d post,
                 elements el = pre ++ d :: post
                 ∧ Forall (λ e, elementType e ≠ dialogue) pre
                 ∧ elementType d = dialogue
                 ∧ elementContent d = "").
Proof.
  split; [apply audioLoop_filter|]. split; [|split; [|split; [|apply dialogueText_empty]]].
  - intros Hempty. rewrite audioLoop_filter.
    replace (filter spoken blocks) with (@nil (DialogueBlock * nat)); [done|].
    symmetry. induction Hempty as [|b l Hb _ IH]; [done|].
    rewrite filter_cons_False; [exact IH|]. unfold spoken. rewrite Hb. by intros [].
  - intros clips Hclips.
    destruct (audioLoop_run voices blocks audioClips env) as (n & Hn & Hlog & Hres).
    rewrite Hclips in Hres. destruct Hres as (-> & new & -> & Hnew).
    exists new. split; [done|]. split; [done|].
    rewrite Hlog. by rewrite take_ge by (rewrite length_fmap; lia).
  - intros Hservice. rewrite audioLoop_filter.
    assert (Hall : Forall spoken (filter spoken blocks)).
    { apply Forall_forall. intros b Hb. by apply list_elem_of_filter in Hb as [? _]. }
    revert audioClips env Hall.
    induction (filter spoken blocks) as [|[el index] rest IH]; intros clips env Hall; [done|].
    apply Forall_cons in Hall as [Hs Hall]. rewrite audioLoop_spoken by done.
    destruct (Hservice (promptText el) (getProperty voices (character el)) (world env))
      as (payload & w' & pcmData & -> & Hdecode).
    cbv zeta. rewrite Hdecode. by apply IH.
Qed.

End StageClaims.

(** ** The first dialogue line of a block *)

Lemma find_dialogue_dropLater (es : list DialogueElement) :
  List.find (λ e, bool_decide (elementType e = dialogue)) (dropLaterDialogue false es)
  = List.find (λ e, bool_decide (elementType e = dialogue)) es.
Proof.
  induction es as [|e es IH]; [done|].
  cbn [dropLaterDialogue]. destruct (elementType e) eqn:He; cbn [List.find]; rewrite He; done.
Qed.

Lemma find_parenthetical_dropLater (seen : bool) (es : list DialogueElement) :
  List.find (λ e, bool_decide (elementType e = parenthetical)) (dropLaterDialogue seen es)
  = List.find (λ e, bool_decide (elementType e = parenthetical)) es.
Proof.
  revert seen. induction es as [|e es IH]; intros seen; [done|].
  cbn [dropLaterDialogue]. destruct (elementType e) eqn:He.
  - cbn [List.find]. rewrite He. done.
  - destruct seen; cbn [List.find]; rewrite He; cbn; apply IH.
Qed.

Lemma firstDialogueOnly_sameSpeech (b : DialogueBlock * nat) :
  sameSpeech b (firstDialogueOnly b).
Proof.
  destruct b as [[name es] index].
  unfold sameSpeech, firstDialogueOnly, promptText, dialogueText, findElement.
  cbn [fst snd character elements].
  rewrite find_dialogue_dropLater, find_parenthetical_dropLater. done.
Qed.

Lemma find_first (P : DialogueElement → bool) (pre post : list DialogueElement)
    (d : DialogueElement) :
  Forall (λ e, P e = false) pre → P d = true → List.find P (pre ++ d :: post) = Some d.
Proof.
  intros Hpre Hd. induction Hpre as [|e pre He _ IH]; cbn; [by rewrite Hd|by rewrite He].
Qed.

Lemma dropLaterDialogue_seen (es : list DialogueElement) :
  dropLaterDialogue true es = filter (λ e, elementType e = parenthetical) es.
Proof.
  induction es as [|e es IH]; [done|]. cbn [dropLaterDialogue].
  destruct (elementType e) eqn:He.
  - rewrite filter_cons_True by done. by rewrite IH.
  - rewrite filter_cons_False by congruence. done.
Qed.

Lemma dropLaterDialogue_first (pre post : list DialogueElement) (d : DialogueElement) :
  Forall (λ e, elementType e ≠ dialogue) pre → elementType d = dialogue →
  dropLaterDialogue false (pre ++ d :: post)
  = pre ++ d :: filter (λ e, elementType e = parenthetical) post.
Proof.
  intros Hpre Hd. induction Hpre as [|e pre He _ IH]; cbn [app dropLaterDialogue].
  - rewrite Hd. by rewrite dropLaterDialogue_seen.
  - destruct (elementType e); [|done]. by rewrite IH.
Qed.

Section FirstDialogueClaims.
Context `{Platform}.

Lemma audioLoop_sameSpeech (voices : gmap string string)
    (blocks blocks' : list (DialogueBlock * nat)) (audioClips : list GeneratedAudio.t)
    (env : Env) :
  Forall2 sameSpeech blocks blocks' →
  audioLoop voices blocks audioClips env = audioLoop voices blocks' audioClips env.
Proof.
  intros Hsame. revert audioClips env.
  induction Hsame as [|[el i] [el' i'] l l' (Hi & Hc & Hd & Hp) _ IH]; intros clips env; [done|].
  cbn [fst snd] in *. subst i'. cbn [audioLoop]. rewrite <- Hd, <- Hp, <- Hc.
  destruct (Str.truthy (dialogueText el)); cbn [negb]; [|apply IH].
  unfold mbind, M_bind, bind, call, request, liftR.
  destruct (generateSpeech _ _ _) as [[audioBase64|message] w]; [|done].
  destruct (decode audioBase64) as [pcmData|message]; [|done].
  destruct (pcmToWav _ _ _ _); [|done]. apply IH.
Qed.

(** The speech loop goes through when the service answers every request
    with a payload that decodes. *)
Lemma audioLoop_succeeds (voices : gmap string string) (blocks : list (DialogueBlock * nat))
    (audioClips : list GeneratedAudio.t) (env : Env) :
  (∀ text voice w, ∃ payload w' pcmData,
     generateSpeech text voice w = (Ok payload, w') ∧ decode payload = Ok pcmData) →
  isOk (audioLoop voices blocks audioClips env).1.
Proof.
  intros Hservice. rewrite audioLoop_filter.
  assert (Hall : Forall spoken (filter spoken blocks)).
  { apply Forall_forall. intros b Hb. by apply list_elem_of_filter in Hb as [? _]. }
  revert audioClips env Hall.
  induction (filter spoken blocks) as [|[el index] rest IH]; intros clips env Hall; [done|].
  apply Forall_cons in Hall as [Hs Hall]. rewrite audioLoop_spoken by done.
  destruct (Hservice (promptText el) (getProperty voices (character el)) (world env))
    as (payload & w' & pcmData & -> & Hdecode).
  cbv zeta. rewrite Hdecode. by apply IH.
Qed.

(** The request for the first block that has something to say is always
    made. *)
Lemma audioLoop_first_request (voices : gmap string string)
    (blocks : list (DialogueBlock * nat)) (audioClips : list GeneratedAudio.t) (env : Env)
    (b : DialogueBlock * nat) (rest : list (DialogueBlock * nat)) :
  filter spoken blocks = b :: rest →
  ∃ later,
    speechRequests (requests (audioLoop voices blocks audioClips env).2)
    = speechRequests (requests env) ++ speechRequestOf voices b :: later.
Proof.
  intros Hfilter. rewrite audioLoop_filter, Hfilter.
  assert (Hs : spoken b).
  { assert (Hin : b ∈ filter spoken blocks) by (rewrite Hfilter; left).
    by apply list_elem_of_filter in Hin as [? _]. }
  destruct b as [el index]. rewrite audioLoop_spoken by done.
  destruct (generateSpeech _ _ _) as [[audioBase64|message] w]; cbv zeta.
  2:{ exists []. cbn [snd requests]. unfold speechRequests. by rewrite omap_app. }
  destruct (decode audioBase64) as [pcmData|message].
  2:{ exists []. cbn [snd requests]. unfold speechRequests. by rewrite omap_app. }
  match goal with
  | |- context [audioLoop voices rest ?acc ?e] =>
      destruct (audioLoop_run voices rest acc e) as (n & _ & Hlog & _)
  end.
  eexists. rewrite Hlog. cbn [requests]. unfold speechRequests at 1.
  rewrite omap_app, <- app_assoc. reflexivity.
Qed.

(** C10. Only the first dialogue line of a block is used.  The speech stage
    behaves identically, for every world, on the blocks stripped of every
    dialogue line after their first: same requests, same clips, same
    outcome.  The request for the first block with dialogue text is always
    made, and the stage succeeds whenever the service answers every request
    with a payload that decodes; it then has made one request and one clip
    per block with dialogue text.  For a block whose first dialogue line is
    [d], the dialogue text, and so the [dialogue] field of its clip, is the
    content of [d], and the text sent to the service is that content, alone
    or after the tone prefix made from the parenthetical. *)
Theorem audioLoop_first_dialogue_only (voices : gmap string string)
    (blocks : list (DialogueBlock * nat)) (audioClips : list GeneratedAudio.t) (env : Env) :
  audioLoop voices blocks audioClips env
  = audioLoop voices (firstDialogueOnly <$> blocks) audioClips env
  ∧ (∀ clips, (audioLoop voices blocks audioClips env).1 = Ok clips →
       ∃ new, clips = audioClips ++ new
              ∧ Forall2 (λ clip b, GeneratedAudio.dialogue clip = dialogueText b.1)
                  new (filter spoken blocks)
              ∧ speechRequests (requests (audioLoop voices blocks audioClips env).2)
                = speechRequests (requests env)
                  ++ ((λ b, (promptText b.1, getProperty voices (character b.1)))
                        <$> filter spoken blocks))
  ∧ ((∀ text voice w, ∃ payload w' pcmData,
         generateSpeech text voice w = (Ok payload, w') ∧ decode payload = Ok pcmData) →
       isOk (audioLoop voices blocks audioClips env).1)
  ∧ (∀ b rest, filter spoken blocks = b :: rest →
       ∃ later,
         speechRequests (requests (audioLoop voices blocks audioClips env).2)
         = speechRequests (requests env)
           ++ (promptText b.1, getProperty voices (character b.1)) :: later)
  ∧ (∀ name index pre d post,
       Forall (λ e, elementType e ≠ dialogue) pre → elementType d = dialogue →
       let el := {| character := name; elements := pre ++ d :: post |} in
       dialogueText el = elementContent d
       ∧ (promptText el = elementContent d
          ∨ ∃ tone, tone ≠ ""
                    ∧ promptText el
                      = "(speaking in a " +:+ tone +:+ " tone) " +:+ elementContent d)
       ∧ elements (firstDialogueOnly (el, index)).1
         = pre ++ d :: filter (λ e, elementType e = parenthetical) post).
Proof.
  split; [|split; [|split; [apply audioLoop_succeeds|split; [apply audioLoop_first_request|]]]].
  - apply audioLoop_sameSpeech. apply Forall2_fmap_r, Forall_Forall2_diag, Forall_forall.
    intros b _. apply firstDialogueOnly_sameSpeech.
  - intros clips Hclips.
    destruct (audioLoop_run voices blocks audioClips env) as (n & Hn & Hlog & Hres).
    rewrite Hclips in Hres. destruct Hres as (-> & new & -> & Hnew).
    exists new. split; [done|]. split.
    + eapply Forall2_impl; [exact Hnew|]. by intros clip b (_ & _ & ? & _).
    + rewrite Hlog. by rewrite take_ge by (rewrite length_fmap; lia).
  - intros name index pre d post Hpre Hd el.
    assert (Hdt : dialogueText el = elementContent d).
    { unfold dialogueText, findElement, el; cbn [elements].
      rewrite (find_first _ pre post d); [done| |by apply bool_decide_eq_true].
      eapply Forall_impl; [exact Hpre|]. intros e He. by apply bool_decide_eq_false. }
    split; [done|]. split.
    + unfold promptText. rewrite Hdt.
      destruct (findElement parenthetical el) as [e|]; [|by left].
      destruct (elementContent e) as [|c tone] eqn:Htone; [by left|].
      right. exists (String c tone). done.
    + unfold firstDialogueOnly, el; cbn [fst elements]. by apply dropLaterDialogue_first.
Qed.

End FirstDialogueClaims.

Section RunClaims.
Context `{Platform}.

Lemma imageStage_indices (script : Script) (characterImages : gmap string CharacterImage)
    (env : Env) (images : list GeneratedImage.t) :
  (imageStage script characterImages env).1 = Ok images →
  GeneratedImage.sceneIndex <$> images = snd <$> scenesWithAction script.
Proof.
  unfold imageStage. intros Hok.
  destruct (imageLoop_run script characterImages (scenesWithAction script)
              UNKNOWN_SPEAKER [] env) as (n & _ & _ & _ & Hres).
  rewrite Hok in Hres. by destruct Hres as [_ ->].
Qed.

Lemma audioStage_clips (script : Script) (premise : StoryElements) (env : Env)
    (clips : list GeneratedAudio.t) :
  (audioStage script premise env).1 = Ok clips →
  Forall2 clipOf clips (filter spoken (dialogueBlocks script)).
Proof.
  unfold audioStage, mbind, M_bind, bind, liftR. intros Hok.
  destruct (assignVoices premise (dialogueBlocks script)) as [st|]; [|done].
  destruct (audioLoop_run (characterVoices st) (dialogueBlocks script) [] env)
    as (n & _ & _ & Hres).
  rewrite Hok in Hres. by destruct Hres as (_ & new & -> & Hnew).
Qed.

(** C8. Scene indices of the generated assets.  After a run that passed its
    two guards, whatever the services answered, the scene indices of the
    generated images, and those of the generated clips, are pairwise
    distinct and never decrease along the list; every image's index is the
    position in the script of an action with content, and every clip's
    index is the position of the dialogue block whose character and first
    dialogue line the clip records. *)
Theorem handleGenerate_sceneIndex (app : AppState) (env : Env) (premise : StoryElements) :
  Str.trim (userInput app) ≠ "" →
  storyElements app = Some premise →
  let app' := (handleGenerate app env).1 in
  let imageIndices := GeneratedImage.sceneIndex <$> generatedImages app' in
  let audioIndices := GeneratedAudio.sceneIndex <$> generatedAudio app' in
  NoDup imageIndices ∧ nondecreasing imageIndices
  ∧ NoDup audioIndices ∧ nondecreasing audioIndices
  ∧ (∀ img, img ∈ generatedImages app' →
       ∃ script content,
         scriptData app' = Some script
         ∧ scene_elements script !! GeneratedImage.sceneIndex img = Some (Action content)
         ∧ content ≠ "")
  ∧ (∀ clip, clip ∈ generatedAudio app' →
       ∃ script block,
         scriptData app' = Some script
         ∧ scene_elements script !! GeneratedAudio.sceneIndex clip
           = Some (DialogueBlockElement block)
         ∧ GeneratedAudio.character clip = character block
         ∧ GeneratedAudio.dialogue clip = dialogueText block).
Proof.
  intros Hinput Hpremise.
  assert (Hnil : NoDup (@nil nat) ∧ nondecreasing []).
  { split; [constructor|]. by intros i j a b _ Hi. }
  assert (Himg : ∀ script env images,
             (imageStage script (characterImages app) env).1 = Ok images →
             (NoDup (GeneratedImage.sceneIndex <$> images)
              ∧ nondecreasing (GeneratedImage.sceneIndex <$> images))
             ∧ ∀ img, img ∈ images →
                 ∃ content, scene_elements script !! GeneratedImage.sceneIndex img
                            = Some (Action content) ∧ content ≠ "").
  { intros script env0 images Hok. apply imageStage_indices in Hok.
    pose proof (scenesWithAction_increasing script) as Hinc. rewrite <- Hok in Hinc.
    split; [split; [by apply increasing_NoDup|by apply increasing_nondecreasing]|].
    intros img Himg.
    assert (Hin : GeneratedImage.sceneIndex img ∈ (scenesWithAction script).*2).
    { rewrite <- Hok. by apply list_elem_of_fmap_2. }
    apply list_elem_of_fmap in Hin as ([c i] & Hi & Hin). cbn in Hi. subst i.
    exists c. by apply scenesWithAction_spec. }
  assert (Haud : ∀ script env clips,
             (audioStage script premise env).1 = Ok clips →
             (NoDup (GeneratedAudio.sceneIndex <$> clips)
              ∧ nondecreasing (GeneratedAudio.sceneIndex <$> clips))
             ∧ ∀ clip, clip ∈ clips →
                 ∃ block, scene_elements script !! GeneratedAudio.sceneIndex clip
                          = Some (DialogueBlockElement block)
                          ∧ GeneratedAudio.character clip = character block
                          ∧ GeneratedAudio.dialogue clip = dialogueText block).
  { intros script env0 clips Hok. apply audioStage_clips in Hok.
    assert (Hidx : GeneratedAudio.sceneIndex <$> clips
                   = snd <$> filter spoken (dialogueBlocks script)).
    { induction Hok as [|clip b l k (Hi & _) _ IH]; [done|]. cbn. by rewrite Hi, IH. }
    pose proof (increasing_filter_snd spoken _ (dialogueBlocks_increasing script)) as Hinc.
    rewrite <- Hidx in Hinc.
    split; [split; [by apply increasing_NoDup|by apply increasing_nondecreasing]|].
    intros clip Hclip. apply list_elem_of_lookup in Hclip as [n Hn].
    destruct (Forall2_lookup_l _ _ _ _ _ Hok Hn) as ([block i] & Hb & Hi & Hc & Hd & _).
    cbn [fst snd] in *. exists block. split; [|done].
    apply list_elem_of_lookup_2, list_elem_of_filter in Hb as [_ Hb].
    apply dialogueBlocks_spec in Hb. by rewrite Hi. }
  unfold handleGenerate.
  destruct (Str.trim (userInput app)) as [|c s] eqn:Htrim; [done|]. cbn [Str.truthy negb].
  rewrite Hpremise. cbn [userInput characterImages setGeneratedAudio setGeneratedImages
                         setScriptData setError].
  destruct (call _ _ env) as [[script|message] env1].
  2:{ cbn. repeat split; try (apply Hnil); intros x Hx; by apply elem_of_nil in Hx. }
  destruct (imageStage script (characterImages app) env1) as [[images|message] env2] eqn:Hi.
  2:{ cbn. repeat split; try (apply Hnil); intros x Hx; by apply elem_of_nil in Hx. }
  destruct (Himg script env1 images) as [[? ?] Hpos]; [by rewrite Hi|].
  destruct (audioStage script premise env2) as [[clips|message] env3] eqn:Ha.
  - destruct (Haud script env2 clips) as [[? ?] Hposa]; [by rewrite Ha|].
    cbn. repeat split; try done.
    + intros img Himg'. destruct (Hpos img Himg') as (content & ? & ?). by exists script, content.
    + intros clip Hclip. destruct (Hposa clip Hclip) as (block & ? & ? & ?).
      by exists script, block.
  - cbn. repeat split; try done; try (apply Hnil).
    + intros img Himg'. destruct (Hpos img Himg') as (content & ? & ?). by exists script, content.
    + intros x Hx; by apply elem_of_nil in Hx.
Qed.

End RunClaims.

(** ** Voice assignment *)

Lemma firstSeen_ext (s1 s2 names : list string) :
  (∀ x, x ∈ s1 ↔ x ∈ s2) → firstSeen s1 names = firstSeen s2 names.
Proof.
  revert s1 s2. induction names as [|name rest IH]; intros s1 s2 Heq; [done|].
  cbn [firstSeen]. destruct (decide (name ∈ s1)) as [Hin|Hin].
  - rewrite decide_True by (by apply Heq). by apply IH.
  - rewrite decide_False by (by rewrite <- Heq). f_equal. apply IH.
    intros x. rewrite !elem_of_cons, Heq. done.
Qed.

Lemma getProperty_own {V} (object : gmap string V) (name : string) (value : V) :
  object !! name = Some value → getProperty object name = Own value.
Proof. intros Hv. unfold getProperty. by rewrite Hv. Qed.


Lemma getProperty_inherited {V} (object : gmap string V) (name : string) :
  object !! name = None → name ∈ Object_prototype → getProperty object name = Inherited name.
Proof. intros Hv Hn. unfold getProperty. rewrite Hv. by rewrite bool_decide_eq_true_2. Qed.

Lemma getProperty_Own {V} (object : gmap string V) (name : string) (value : V) :
  getProperty object name = Own value ↔ object !! name = Some value.
Proof.
  unfold getProperty. destruct (object !! name) as [v|].
  - split; intros [= ->]; done.
  - destruct (bool_decide _); split; intros [=].
Qed.

Lemma pool_truthy (voice : string) :
  voice ∈ MALE_VOICES ++ FEMALE_VOICES → Str.truthy voice = true.
Proof.
  intros Hv. cbn in Hv.
  repeat (apply elem_of_cons in Hv as [->|Hv]; [done|]). by apply elem_of_nil in Hv.
Qed.

Section VoiceFacts.
Context `{Platform}.






End VoiceFacts.

Section VoiceClaims.
Context `{Platform}.


Lemma assignVoicesFrom_characters (premiseCharacters : string) (st : VoiceState)
    (blocks1 blocks2 : list (DialogueBlock * nat)) :
  (λ b, character b.1) <$> blocks1 = (λ b, character b.1) <$> blocks2 →
  assignVoicesFrom premiseCharacters st blocks1
  = assignVoicesFrom premiseCharacters st blocks2.
Proof.
  revert st blocks2. induction blocks1 as [|[el1 i1] rest1 IH]; intros st [|[el2 i2] rest2] Heq;
    try done.
  cbn [fmap list_fmap fst] in Heq. injection Heq as Hc Hrest.
  cbn [assignVoicesFrom]. unfold assignVoice. rewrite Hc.
  destruct (truthyProperty _ _); cbn [bindR]; [by apply IH|].
  destruct (determineGender _ _ _); cbn [bindR]; [|done].
  destruct (_ && _); cbn [bindR]; by apply IH.
Qed.

(** C4. Determinism of voice assignment.  Two runs whose dialogue blocks
    name the same characters in the same order, with the same premise
    character text, end with the same table of voices (and the same genders
    and cursors), whatever else differs between the runs: the lines spoken,
    the positions of the blocks, the rest of the premise. *)
Theorem assignVoices_deterministic (premise1 premise2 : StoryElements)
    (blocks1 blocks2 : list (DialogueBlock * nat)) :
  (λ b, character b.1) <$> blocks1 = (λ b, character b.1) <$> blocks2 →
  characters premise1 = characters premise2 →
  assignVoices premise1 blocks1 = assignVoices premise2 blocks2.
Proof.
  intros Hblocks Hpremise. unfold assignVoices. rewrite Hpremise.
  by apply assignVoicesFrom_characters.
Qed.

End VoiceClaims.

(** ** Asset file names *)

Lemma length_padding (k : nat) (pad : ascii) (s : string) :
  String.length (string_of_list_ascii (replicate k pad) +:+ s) = k + String.length s.
Proof.
  induction k as [|k IH]; [done|].
  simpl. by rewrite IH.
Qed.

Lemma decimalValue_zeros (k : nat) (s : string) :
  decimalValue (string_of_list_ascii (replicate k "0"%char) +:+ s) = decimalValue s.
Proof. induction k as [|k IH]; [done|]. simpl. by rewrite IH. Qed.

Lemma digitValue_pretty_N_char (d : N) :
  (d < 10)%N → digitValue (pretty_N_char d) = N.to_nat d.
Proof.
  intros Hd.
  assert (d = 0 ∨ d = 1 ∨ d = 2 ∨ d = 3 ∨ d = 4 ∨ d = 5 ∨ d = 6 ∨ d = 7 ∨ d = 8 ∨ d = 9)%N
    as Hcases by lia.
  repeat destruct Hcases as [->|Hcases]; try subst d; reflexivity.
Qed.

Lemma decimalValue_pretty_N_go (x : N) (s : string) :
  decimalValue (pretty_N_go x s) = N.to_nat x * 10 ^ String.length s + decimalValue s.
Proof.
  revert s. induction (N.lt_wf_0 x) as [x _ IH]; intros s.
  destruct (decide (x = 0)%N) as [->|Hx]; [by rewrite pretty_N_go_0|].
  rewrite pretty_N_go_step by lia. rewrite IH by (apply N.div_lt; lia).
  cbn [decimalValue String.length]. rewrite digitValue_pretty_N_char by (apply N.mod_lt; lia).
  rewrite Nat.pow_succ_r'.
  pose proof (N.div_mod x 10 ltac:(lia)) as Hdm.
  assert (Hnat : N.to_nat x = 10 * N.to_nat (x `div` 10) + N.to_nat (x `mod` 10)) by lia.
  rewrite Hnat. lia.
Qed.

Lemma decimalValue_ofNat (n : nat) : decimalValue (Str.ofNat n) = n.
Proof.
  unfold Str.ofNat, pretty, pretty_nat, pretty, pretty_N.
  destruct (decide (N.of_nat n = 0)%N) as [Hn|Hn].
  - assert (n = 0) as -> by lia. reflexivity.
  - rewrite decimalValue_pretty_N_go, Nat2N.id. simpl. lia.
Qed.

Lemma length_pretty_N_go (k : nat) (x : N) (s : string) :
  (x < 10 ^ N.of_nat k)%N → String.length (pretty_N_go x s) ≤ k + String.length s.
Proof.
  revert x s. induction k as [|k IH]; intros x s Hx.
  - assert (x = 0%N) as -> by (cbn in Hx; lia). rewrite pretty_N_go_0. lia.
  - destruct (decide (x = 0)%N) as [->|Hx0]; [rewrite pretty_N_go_0; lia|].
    rewrite pretty_N_go_step by lia.
    etrans; [apply IH|cbn; lia].
    replace (N.of_nat (S k)) with (N.succ (N.of_nat k)) in Hx by lia.
    rewrite N.pow_succ_r' in Hx. apply N.Div0.div_lt_upper_bound. lia.
Qed.

Lemma length_ofNat (n : nat) :
  (Z.of_nat n < 10000)%Z → String.length (Str.ofNat n) ≤ 4.
Proof.
  intros Hn. unfold Str.ofNat, pretty, pretty_nat, pretty, pretty_N.
  destruct (decide (N.of_nat n = 0)%N) as [_|_]; [simpl; lia|].
  etrans; [apply (length_pretty_N_go 4)|simpl; lia].
  change (10 ^ N.of_nat 4)%N with 10000%N. lia.
Qed.

Lemma padStart_digits (n : nat) :
  decimalValue (Str.padStart 4 "0" (Str.ofNat n)) = n
  ∧ 4 ≤ String.length (Str.padStart 4 "0" (Str.ofNat n))
  ∧ ((Z.of_nat n < 10000)%Z → String.length (Str.padStart 4 "0" (Str.ofNat n)) = 4).
Proof.
  unfold Str.padStart. rewrite decimalValue_zeros, decimalValue_ofNat, length_padding.
  split; [done|]. split; [lia|]. intros Hn. pose proof (length_ofNat n Hn). lia.
Qed.

Lemma length_append (u v : string) :
  String.length (u +:+ v) = String.length u + String.length v.
Proof. induction u as [|x u IH]; simpl; [done|by rewrite IH]. Qed.

Lemma append_inj_r (a b c : string) : a +:+ c = b +:+ c → a = b.
Proof.
  revert b. induction a as [|x a IH]; intros [|y b] Hab; simpl in Hab.
  - done.
  - apply (f_equal String.length) in Hab. rewrite !length_append in Hab. simpl in Hab. lia.
  - apply (f_equal String.length) in Hab. rewrite !length_append in Hab. simpl in Hab. lia.
  - injection Hab as -> Hab. f_equal. by apply IH.
Qed.

Lemma assetFileName_inj (n m : nat) (extension : string) :
  assetFileName n extension = assetFileName m extension → n = m.
Proof.
  unfold assetFileName. intros Heq. apply append_inj_r in Heq.
  rewrite <- (proj1 (padStart_digits n)), <- (proj1 (padStart_digits m)). by rewrite Heq.
Qed.

(** ** The archive *)

Section Insertions.
Context {A : Type} (path : A → string) (data : A → ZipEntry).

Lemma foldl_add_other (zip : gmap string ZipEntry) (l : list A) (key : string) :
  (∀ x, x ∈ l → path x ≠ key) → foldl (addEntry path data) zip l !! key = zip !! key.
Proof.
  induction l as [|y l IH] using rev_ind; intros Hother; [done|].
  rewrite foldl_snoc. unfold addEntry at 1. rewrite lookup_insert_ne.
  - apply IH. intros x Hx. apply Hother, elem_of_app. by left.
  - apply Hother, elem_of_app. right. by apply list_elem_of_singleton.
Qed.

Lemma foldl_add_member (zip : gmap string ZipEntry) (l : list A) (x : A) :
  x ∈ l → (∀ y, y ∈ l → path y = path x → data y = data x) →
  foldl (addEntry path data) zip l !! path x = Some (data x).
Proof.
  induction l as [|y l IH] using rev_ind; intros Hx Hsame; [by apply elem_of_nil in Hx|].
  rewrite foldl_snoc. unfold addEntry at 1.
  destruct (decide (path y = path x)) as [Heq|Hne].
  - rewrite Heq, lookup_insert_eq. f_equal. apply Hsame; [|done].
    apply elem_of_app. right. by apply list_elem_of_singleton.
  - rewrite lookup_insert_ne by done. apply IH.
    + apply elem_of_app in Hx as [Hx|Hx]; [done|].
      apply list_elem_of_singleton in Hx. by subst.
    + intros z Hz. apply Hsame, elem_of_app. by left.
Qed.


End Insertions.

Lemma NoDup_fmap_eq {A B} (f : A → B) (l : list A) (x y : A) :
  NoDup (f <$> l) → x ∈ l → y ∈ l → f x = f y → x = y.
Proof.
  intros Hnd Hx Hy Hf.
  apply list_elem_of_lookup in Hx as [i Hi]. apply list_elem_of_lookup in Hy as [j Hj].
  assert (i = j) as ->; [|congruence].
  apply (NoDup_lookup _ i j (f x) Hnd); rewrite list_lookup_fmap; [by rewrite Hi|].
  rewrite Hj. cbn. by rewrite Hf.
Qed.



Section BundleClaims.
Context `{Platform}.

Lemma handleDownloadZip_outcome (app : AppState) (script : Script) :
  scriptData app = Some script →
  handleDownloadZip app
  = match JSZip_generateAsync
            (bundleEntries script (generatedImages app) (generatedAudio app)) with
    | Ok _ =>
        (setError None app,
         Some {| downloadName := safeTitle (title script) +:+ "_assets.zip";
                 archive := bundleEntries script (generatedImages app) (generatedAudio app) |})
    | Throw errorMessage =>
        (setError (Some ("Failed to create zip file: " +:+ errorMessage)) app, None)
    end.
Proof.
  intros Hscript. unfold handleDownloadZip, bundleEntries. rewrite Hscript.
  cbn [generatedImages generatedAudio setError].
  assert (Hfold : ∀ (zip : gmap string ZipEntry) (l : list GeneratedAudio.t),
             (if 0 <? length l then foldl addAudio zip l else zip) = foldl addAudio zip l).
  { intros zip [|x l]; done. }
  rewrite Hfold. by destruct (JSZip_generateAsync _).
Qed.


End BundleClaims.

(** ** Decoding the payload *)

Lemma length_decodeSextets (l : list Z) :
  length (Base64.decodeSextets l) = 3 * length l / 4.
Proof.
  assert (Hgen : ∀ n (l : list Z), length l ≤ n →
            length (Base64.decodeSextets l) = 3 * length l / 4).
  { clear l. induction n as [n IH] using (well_founded_induction lt_wf).
    intros [|a [|b [|c [|d rest]]]] Hlen; try reflexivity.
    cbn [Base64.decodeSextets length]. rewrite (IH (length rest)); [|simpl in Hlen; lia|done].
    replace (3 * S (S (S (S (length rest))))) with (3 * length rest + 3 * 4) by lia.
    rewrite Nat.div_add by done. lia. }
  by apply (Hgen (length l)).
Qed.

Lemma length_binaryString (bytes : list Z) :
  String.length (Base64.binaryString bytes) = length bytes.
Proof.
  unfold Base64.binaryString. induction bytes as [|b bytes IH]; [done|].
  cbn. by rewrite IH.
Qed.

Lemma length_store_loop (s : string) (bytes : list Z) (indices : list nat) :
  length (foldl (λ bytes i, <[i := (charCodeAt s i mod 256)%Z]> bytes) bytes indices)
  = length bytes.
Proof.
  revert bytes. induction indices as [|i indices IH]; intros bytes; [done|].
  cbn [foldl]. by rewrite IH, length_insert.
Qed.

Lemma decode_length (payload : string) (pcmData : list Z) :
  decode payload = Ok pcmData →
  length pcmData = 3 * significantLength payload / 4
  ∧ significantLength payload mod 4 ≠ 1.
Proof.
  unfold decode, Base64.atob, significantLength.
  set (data := Base64.stripPadding _).
  destruct (length data mod 4 =? 1) eqn:Hmod; [done|]. apply Nat.eqb_neq in Hmod.
  destruct (mapM Base64.sextet data) as [sextets|] eqn:Hsext; [|done].
  cbn [bindR]. intros [= <-]. split; [|done].
  rewrite length_store_loop. unfold newUint8Array.
  rewrite length_replicate, length_binaryString, length_decodeSextets.
  by rewrite (length_mapM _ _ _ Hsext).
Qed.

Lemma even_buffer_iff (k : nat) :
  k mod 4 ≠ 1 →
  (3 * k / 4) mod 2 = 0 ↔ k mod 8 = 0 ∨ k mod 8 = 3 ∨ k mod 8 = 6.
Proof.
  intros Hk.
  pose proof (Nat.div_mod k 8 ltac:(done)) as Hk8.
  pose proof (Nat.mod_upper_bound k 8 ltac:(done)) as Hlt.
  set (q := k / 8) in *. set (r := k mod 8) in *. clearbody q r.
  assert (Hr : k mod 4 = r mod 4).
  { rewrite Hk8. replace (8 * q + r) with (r + (2 * q) * 4) by lia.
    by rewrite Nat.Div0.mod_add. }
  assert (Hdiv : 3 * k / 4 = 6 * q + 3 * r / 4).
  { rewrite Hk8. replace (3 * (8 * q + r)) with (3 * r + (6 * q) * 4) by lia.
    rewrite Nat.div_add by done. lia. }
  assert (Hpar : (3 * k / 4) mod 2 = (3 * r / 4) mod 2).
  { rewrite Hdiv. replace (6 * q + 3 * r / 4) with (3 * r / 4 + (3 * q) * 2) by lia.
    by rewrite Nat.Div0.mod_add. }
  rewrite Hpar. rewrite Hr in Hk. clear -Hlt Hk.
  assert (r = 0 ∨ r = 1 ∨ r = 2 ∨ r = 3 ∨ r = 4 ∨ r = 5 ∨ r = 6 ∨ r = 7) as Hcases by lia.
  repeat destruct Hcases as [->|Hcases]; try subst r; cbn in *; try lia;
    (split; [intros ?|intros [?|[?|?]]]; lia).
Qed.

(** ** The premise feeds *)

Section PremiseClaims.
Context `{Platform}.

(** Every rejection of a feed carries the fetcher's own message. *)
Lemma fetchDescriptionFromRSS_reason (url : string) (env : Env) (message : string) :
  (fetchDescriptionFromRSS url env).1 = Throw message →
  message = "Could not fetch or parse from " +:+ url +:+
            ". The source might be unavailable or blocked.".
Proof.
  unfold fetchDescriptionFromRSS, tryCatch, call, request, throw.
  destruct (rssDescription url (world env)) as [[value|reason] w]; cbn; congruence.
Qed.

Lemma capitalize_feedNames :
  capitalize "characters" = "Characters" ∧ capitalize "story" = "Story"
  ∧ capitalize "today" = "Today".
Proof.
  unfold capitalize. cbn [Str.charAt0 Str.slice1].
  rewrite !String_toUpperCase_ascii by reflexivity. done.
Qed.

(** C5. Aggregate failure of the premise feeds.  [fetchStoryElements] reads
    its three feeds, characters, story and today.  For all outcomes of the
    three reads it fails exactly when at least one read failed; its error
    message then lists one entry per failed feed, in feed order, each made
    of the feed's name (capitalised) and of the reason that
    [fetchDescriptionFromRSS] gives for every failure, which names the
    address of the feed and not the cause.  When characters and story are
    read and today fails, for whatever reason, the message has the single
    entry for Today with that reason.  When the three feeds are read, their
    three values are returned. *)
Theorem fetchStoryElements_aggregate (env : Env) :
  let url := feedUrl (getDailyVariable env) in
  ∃ rc rs rt w1 w2 w3,
    rssDescription (url "characters") (world env) = (rc, w1)
    ∧ rssDescription (url "story") w1 = (rs, w2)
    ∧ rssDescription (url "today") w2 = (rt, w3)
    ∧ (isOk (fetchStoryElements env).1 = false
       ↔ isOk rc = false ∨ isOk rs = false ∨ isOk rt = false)
    ∧ (isOk (fetchStoryElements env).1 = false →
         (fetchStoryElements env).1
         = Throw (failedFeedsMessage
                    (failedFeedEntries
                       [("Characters", settledFeed (url "characters") rc);
                        ("Story", settledFeed (url "story") rs);
                        ("Today", settledFeed (url "today") rt)])))
    ∧ (∀ c s t, rc = Ok c → rs = Ok s → rt = Ok t →
         (fetchStoryElements env).1 = Ok {| characters := c; story := s; today := t |})
    ∧ (∀ c s reason, rc = Ok c → rs = Ok s → rt = Throw reason →
         (fetchStoryElements env).1
         = Throw (failedFeedsMessage
                    ["'Today' feed: Could not fetch or parse from " +:+ url "today" +:+
                     ". The source might be unavailable or blocked."])).
Proof.
  intros url. unfold fetchStoryElements.
  cbn [feedNames map allSettled]. fold url.
  unfold fetchDescriptionFromRSS, tryCatch, call, request, throw.
  destruct capitalize_feedNames as (Hc & Hs & Ht).
  destruct (rssDescription (url "characters") (world env)) as [rc w1].
  destruct (rssDescription (url "story") w1) as [rs w2] eqn:Hrs.
  destruct (rssDescription (url "today") w2) as [rt w3] eqn:Hrt.
  exists rc, rs, rt, w1, w2, w3. split; [done|].
  destruct rc as [c|mc]; cbn [world requests fst snd]; rewrite Hrs;
    destruct rs as [s|ms]; cbn [world requests fst snd]; rewrite Hrt;
    destruct rt as [t|mt]; cbn [world requests fst snd];
    unfold storyElementsOfResults; cbn [feedNames collectResults];
    rewrite ?Hc, ?Hs, ?Ht; cbn;
    (split; [done|]); (split; [done|]);
    (split; [intuition congruence|]);
    (split; [first [done|intros _; reflexivity]|]);
    split; intros; simplify_eq; reflexivity.
Qed.

End PremiseClaims.

(** ** The buffer handed to the encoder *)

Section BufferClaims.
Context `{Platform}.

(** C9, as the code has it.  The samples encoded for a clip are the bytes
    that the payload of the speech service decodes to, passed on unchanged
    and unchecked: for a payload with [k] significant base64 characters they
    are [3k/4] bytes (rounded down), an even number exactly when [k mod 8]
    is 0, 3 or 6; the WAV file of the clip is the header for that length
    followed by those bytes. *)
Theorem audioLoop_encodes_decoded_payload (voices : gmap string string)
    (el : DialogueBlock) (index : nat) (rest : list (DialogueBlock * nat))
    (audioClips : list GeneratedAudio.t) (env : Env) (payload : string) (w : World)
    (pcmData : list Z) :
  spoken (el, index) →
  generateSpeech (promptText el) (getProperty voices (character el)) (world env)
  = (Ok payload, w) →
  decode payload = Ok pcmData →
  audioLoop voices ((el, index) :: rest) audioClips env
  = audioLoop voices rest
      (audioClips ++
       [{| GeneratedAudio.sceneIndex := index;
           GeneratedAudio.audioBlob :=
             wavHeaderBytes (Z.of_nat (length pcmData)) SAMPLE_RATE 1 16 ++ pcmData;
           GeneratedAudio.duration :=
             (num (Z.of_nat (length pcmData)) / num (SAMPLE_RATE * 2))%Q;
           GeneratedAudio.character := character el;
           GeneratedAudio.dialogue := dialogueText el |}])
      {| world := w;
         requests :=
           requests env
           ++ [SpeechRequest (promptText el) (getProperty voices (character el))] |}
  ∧ pcmToWav pcmData SAMPLE_RATE 1 16
    = Ok (wavHeaderBytes (Z.of_nat (length pcmData)) SAMPLE_RATE 1 16 ++ pcmData)
  ∧ length pcmData = 3 * significantLength payload / 4
  ∧ (length pcmData mod 2 = 0
     ↔ significantLength payload mod 8 = 0
       ∨ significantLength payload mod 8 = 3
       ∨ significantLength payload mod 8 = 6).
Proof.
  intros Hspoken Hspeech Hdecode.
  split; [|split; [apply pcmToWav_header|]].
  - rewrite audioLoop_spoken by done. by rewrite Hspeech, Hdecode.
  - destruct (decode_length payload pcmData Hdecode) as [Hlen Hmod].
    split; [done|]. rewrite Hlen. by apply even_buffer_iff.
Qed.

End BufferClaims.

(** ** The pipeline on the sample script *)

(** One action before any dialogue, a block for URSULA, a silent block for
    REX, then another action: the first action is attributed to the
    sentinel, the second to the nearest block before it. *)
Example sample_speakers :
  imagePromptRequests
    (requests (imageStage (H := samplePlatform "AAAA") sampleScript ∅
                 (initialEnv (H := samplePlatform "AAAA") 0)).2)
  = [("A character", "A saucer hovers over the hills."); ("REX", "She pulls a lever.")].
Proof. vm_compute. reflexivity. Qed.

(** URSULA, marked (f) in the premise, gets the first female voice; REX,
    for whom the look-up finds nothing, the first male voice. *)
Example sample_voices :
  ∃ st, assignVoices (H := samplePlatform "AAAA") samplePremise (dialogueBlocks sampleScript)
        = Ok st
        ∧ characterVoices st !! "URSULA" = Some "Kore"
        ∧ characterVoices st !! "REX" = Some "Puck"
        ∧ maleVoiceIndex st = 1 ∧ femaleVoiceIndex st = 1.
Proof. eexists. split; [vm_compute; reflexivity|]. repeat split; vm_compute; reflexivity. Qed.

(** Only URSULA's block is spoken, and only its first line. *)
Example sample_speech :
  speechRequests
    (requests (audioStage (H := samplePlatform "AAAA") sampleScript samplePremise
                 (initialEnv (H := samplePlatform "AAAA") 0)).2)
  = [("(speaking in a gleeful tone) Hello, Hollywood.", Own "Kore")].
Proof. vm_compute. reflexivity. Qed.

(** The no-break space is white space, and the capital letters of Latin-1
    have small ones: [trim] and [toLowerCase] on U+00A0 and on U+00C9. *)
Example trim_no_break_space :
  Str.trim (String (ascii_of_nat 160) ("REX" +:+ String (ascii_of_nat 160) "")) = "REX".
Proof. reflexivity. Qed.

Example toLowerCase_latin1 :
  Str.toLowerCase (String (ascii_of_nat 201) "VE") = String (ascii_of_nat 233) "ve".
Proof. reflexivity. Qed.

(** An empty table reads the inherited property under [constructor] and
    nothing under URSULA. *)
Example getProperty_empty :
  getProperty (V := string) ∅ "constructor" = Inherited "constructor"
  ∧ getProperty (V := string) ∅ "URSULA" = Undefined.
Proof. split; reflexivity. Qed.

(** ** Instances *)

Lemma pcmToWav_header_fields_witness :
  (36 + Z.of_nat (length [1; 2; 3; 4]%Z) < 2 ^ 32)%Z
  ∧ ∃ wav, pcmToWav [1; 2; 3; 4]%Z SAMPLE_RATE 1 16 = Ok wav
           ∧ dataSize (readWavHeader (take 44 wav)) = 4%Z.
Proof.
  assert (Hfit : (36 + Z.of_nat (length [1; 2; 3; 4]%Z) < 2 ^ 32)%Z) by (simpl; lia).
  split; [exact Hfit|].
  destruct (pcmToWav_header_fields [1; 2; 3; 4]%Z Hfit) as (wav & Hwav & _ & _ & Hhdr).
  exists wav. split; [exact Hwav|]. rewrite Hhdr. reflexivity.
Defined.


Lemma assignVoices_deterministic_witness :
  assignVoices (H := samplePlatform "AAAA") samplePremise
    [(ursulaBlock, 1); (silentBlock, 2)]
  = assignVoices (H := samplePlatform "AAAA")
      {| characters := characters samplePremise; story := "Another story."; today := "" |}
      [({| character := "URSULA"; elements := [] |}, 7);
       ({| character := "REX"; elements := elements ursulaBlock |}, 9)].
Proof.
  apply (assignVoices_deterministic (H := samplePlatform "AAAA")); reflexivity.
Defined.


Lemma handleGenerate_sceneIndex_witness :
  Str.trim (userInput sampleApp) ≠ ""
  ∧ storyElements sampleApp = Some samplePremise
  ∧ NoDup (GeneratedImage.sceneIndex
             <$> generatedImages
                   (handleGenerate (H := samplePlatform "AAAA") sampleApp
                      (initialEnv (H := samplePlatform "AAAA") 0)).1).
Proof.
  assert (Hinput : Str.trim (userInput sampleApp) ≠ "") by (vm_compute; discriminate).
  assert (Hpremise : storyElements sampleApp = Some samplePremise) by reflexivity.
  split; [exact Hinput|]. split; [exact Hpremise|].
  exact (proj1 (handleGenerate_sceneIndex (H := samplePlatform "AAAA") sampleApp
                  (initialEnv (H := samplePlatform "AAAA") 0) samplePremise Hinput Hpremise)).
Defined.

Lemma audioLoop_encodes_decoded_payload_witness :
  spoken (ursulaBlock, 1)
  ∧ decode "UklGRg==" = Ok [82; 73; 70; 70]%Z
  ∧ length [82; 73; 70; 70]%Z = 3 * significantLength "UklGRg==" / 4.
Proof.
  assert (Hspoken : spoken (ursulaBlock, 1)) by exact I.
  assert (Hdecode : decode "UklGRg==" = Ok [82; 73; 70; 70]%Z) by (vm_compute; reflexivity).
  split; [exact Hspoken|]. split; [exact Hdecode|].
  exact (proj1 (proj2 (proj2
           (audioLoop_encodes_decoded_payload (H := samplePlatform "UklGRg==") ∅
              ursulaBlock 1 [] [] (initialEnv (H := samplePlatform "UklGRg==") 0)
              "UklGRg==" 1 [82; 73; 70; 70]%Z Hspoken eq_refl Hdecode)))).
Defined.

(** ** Counterexamples *)

(** C9 as stated fails: the service may answer with a payload that encodes
    an odd number of bytes, and the pipeline encodes it as it is.  The
    payload AAAA decodes to three bytes, which become the samples of the
    clip. *)
Lemma odd_buffer_reaches_encoder :
  ∃ clip env',
    audioStage (H := samplePlatform "AAAA") sampleScript samplePremise
      (initialEnv (H := samplePlatform "AAAA") 0)
    = (Ok [clip], env')
    ∧ decode "AAAA" = Ok [0; 0; 0]%Z
    ∧ GeneratedAudio.audioBlob clip = wavHeaderBytes 3 SAMPLE_RATE 1 16 ++ [0; 0; 0]%Z
    ∧ length [0; 0; 0]%Z mod 2 = 1.
Proof.
  eexists _, _. split; [vm_compute; reflexivity|].
  split; [vm_compute; reflexivity|]. split; [vm_compute; reflexivity|reflexivity].
Qed.


(** C5 as stated fails for the reason of a failure: [fetchDescriptionFromRSS]
    replaces every reason by its own message.  When the feed of today
    answers with status 503, the read fails with that status, and the
    message of [fetchStoryElements] has one entry, for Today, in which the
    status does not appear. *)
Lemma fetchStoryElements_hides_status :
  (liveReadFeed todayDownServices (feedUrl "28" "today") 2).1
  = Throw "Network response was not ok, status: 503"
  ∧ ∃ message,
      (fetchStoryElements (H := livePlatform todayDownServices)
         (initialEnv (H := livePlatform todayDownServices) 0)).1
      = Throw message
      ∧ message
        = failedFeedsMessage
            [failedFeedEntry "Today" (feedUnavailable (feedUrl "28" "today"))]
      ∧ Str.includes "503" message = false.
Proof.
  split; [vm_compute; reflexivity|].
  eexists. split; [vm_compute; reflexivity|]. split; vm_compute; reflexivity.
Qed.


(** * Further properties *)

(** ** The premise *)

Section PremiseFacts.
Context `{Platform}.

(** X1. The daily variable.  [getDailyVariable] always returns one of the
    seven codes of its table; for a day index from 0 (Sunday) to 6
    (Saturday) it is the code of that day, and for any other index the
    default 22. *)
Theorem getDailyVariable_codes (env : Env) :
  getDailyVariable env ∈ ["28"; "27"; "21"; "22"; "18"; "24"; "25"]
  ∧ (∀ i, i < 7 → pstDayIndex (world env) = i →
       ["28"; "27"; "21"; "22"; "18"; "24"; "25"] !! i = Some (getDailyVariable env))
  ∧ (7 ≤ pstDayIndex (world env) → getDailyVariable env = "22").
Proof.
  unfold getDailyVariable.
  destruct (pstDayIndex (world env)) as [|[|[|[|[|[|[|n]]]]]]] eqn:Hday.
  all: split; [vm_compute; set_solver|split; [intros i Hi <-; try reflexivity; lia|]].
  all: intros Hge; try lia; reflexivity.
Qed.

(** One feed: the request, the world and the outcome. *)
Lemma fetchDescriptionFromRSS_outcome (url : string) (env : Env) :
  requests (fetchDescriptionFromRSS url env).2 = requests env ++ [FeedRequest url]
  ∧ world (fetchDescriptionFromRSS url env).2 = (rssDescription url (world env)).2
  ∧ (fetchDescriptionFromRSS url env).1
    = match (rssDescription url (world env)).1 with
      | Ok description => Ok description
      | Throw _ => Throw (feedUnavailable url)
      end.
Proof.
  unfold fetchDescriptionFromRSS, tryCatch, call, request, throw.
  destruct (rssDescription url (world env)) as [[description|reason] w]; done.
Qed.

(** X2. The feeds of the premise.  [fetchStoryElements] asks for its three
    feeds, characters, story and today, in this order and with the code of
    the day in each address, whether or not an earlier feed failed.  When it
    fails, its message lists a non-empty selection of the three feeds, in
    feed order, each with the message of [fetchDescriptionFromRSS] for the
    address of that feed. *)
Theorem fetchStoryElements_requests (env : Env) :
  let x := getDailyVariable env in
  requests (fetchStoryElements env).2
  = requests env ++ [FeedRequest (feedUrl x "characters");
                     FeedRequest (feedUrl x "story");
                     FeedRequest (feedUrl x "today")]
  ∧ ((∃ message, (fetchStoryElements env).1 = Throw message)
     → ∃ failed, failed ≠ [] ∧ sublist failed feedNames
         ∧ (fetchStoryElements env).1
           = Throw (failedFeedsMessage
                      ((λ name, failedFeedEntry (capitalize name)
                                  (feedUnavailable (feedUrl x name))) <$> failed))).
Proof.
  intros x. unfold fetchStoryElements. fold x.
  cbn [feedNames map allSettled].
  pose proof (fetchDescriptionFromRSS_outcome (feedUrl x "characters") env) as (Hr1 & _ & Ho1).
  destruct (fetchDescriptionFromRSS (feedUrl x "characters") env) as [rc env1].
  pose proof (fetchDescriptionFromRSS_outcome (feedUrl x "story") env1) as (Hr2 & _ & Ho2).
  destruct (fetchDescriptionFromRSS (feedUrl x "story") env1) as [rs env2].
  pose proof (fetchDescriptionFromRSS_outcome (feedUrl x "today") env2) as (Hr3 & _ & Ho3).
  destruct (fetchDescriptionFromRSS (feedUrl x "today") env2) as [rt env3].
  cbn [fst snd] in *. split.
  { rewrite Hr3, Hr2, Hr1, <- !app_assoc. done. }
  intros [message Hfail].
  destruct (rssDescription _ (world env)).1; destruct (rssDescription _ (world env1)).1;
    destruct (rssDescription _ (world env2)).1; subst rc rs rt; try done.
  - exists ["today"]. split; [done|]. split; [|done]. by repeat constructor.
  - exists ["story"]. split; [done|]. split; [|done]. by repeat constructor.
  - exists ["story"; "today"]. split; [done|]. split; [|done]. by repeat constructor.
  - exists ["characters"]. split; [done|]. split; [|done]. by repeat constructor.
  - exists ["characters"; "today"]. split; [done|]. split; [|done]. by repeat constructor.
  - exists ["characters"; "story"]. split; [done|]. split; [|done]. by repeat constructor.
  - exists ["characters"; "story"; "today"]. split; [done|]. split; [|done]. by repeat constructor.
Qed.

End PremiseFacts.

(** ** The table of voices *)

Section VoiceTable.
Context `{Platform}.

Lemma determineGender_other (premiseCharacters characterName : string)
    (genders genders' : gmap string Gender) (name : string) :
  determineGender premiseCharacters characterName genders = Ok genders' →
  name ≠ characterName → genders' !! name = genders !! name.
Proof.
  unfold determineGender. intros Hd Hne.
  destruct (truthyProperty _ _); [by injection Hd as <-|].
  destruct (RegExp_match _ _ _) as [m| |[g|]]; try done; injection Hd as <-; [done|].
  by rewrite lookup_insert_ne.
Qed.

Lemma setVoice_lookup (characterName : string) (pool : list string) (i : nat)
    (voices : gmap string string) :
  pool ≠ [] →
  ∃ voice, voice ∈ pool ∧ setVoice characterName pool i voices = <[characterName := voice]> voices.
Proof.
  intros Hpool. unfold setVoice.
  assert (Hlt : i mod length pool < length pool).
  { apply Nat.mod_upper_bound. by destruct pool. }
  destruct (lookup_lt_is_Some_2 _ _ Hlt) as [voice Hv]. rewrite Hv.
  exists voice. split; [by eapply list_elem_of_lookup_2|done].
Qed.

Lemma getProperty_lookup {V} (object object' : gmap string V) (name : string) :
  object' !! name = object !! name → getProperty object' name = getProperty object name.
Proof. intros Heq. unfold getProperty. by rewrite Heq. Qed.

(** A character for which the table reads a truthy value is left alone. *)
Lemma assignVoice_truthy (premiseCharacters : string) (st : VoiceState) (el : DialogueBlock) :
  truthyProperty Str.truthy (getProperty (characterVoices st) (character el)) = true →
  assignVoice premiseCharacters st el = Ok st.
Proof. intros Ht. unfold assignVoice. by rewrite Ht. Qed.

(** One step of the assignment: afterwards the table reads a truthy value
    for the character, and only its entry can have changed; a new entry
    holds a voice of the pool of the gender then recorded. *)
Lemma assignVoice_step (premiseCharacters : string) (st st' : VoiceState) (el : DialogueBlock) :
  assignVoice premiseCharacters st el = Ok st' →
  truthyProperty Str.truthy (getProperty (characterVoices st') (character el)) = true
  ∧ (∀ name, name ≠ character el → characterVoices st' !! name = characterVoices st !! name)
  ∧ (pooledVoices st → pooledVoices st').
Proof.
  unfold assignVoice.
  destruct (truthyProperty Str.truthy (getProperty (characterVoices st) (character el)))
    eqn:Htruthy.
  { intros [= <-]. done. }
  assert (Hfresh : pooledVoices st →
            characterVoices st !! character el = None ∧ character el ∉ Object_prototype).
  { intros [Hown Hpool _ _]. unfold getProperty in Htruthy.
    destruct (characterVoices st !! character el) as [voice|] eqn:Hvoice.
    - cbn in Htruthy. rewrite pool_truthy in Htruthy by (by eapply Hpool). done.
    - split; [done|]. intros Hproto. by rewrite bool_decide_eq_true_2 in Htruthy. }
  destruct (determineGender _ _ _) as [genders|message] eqn:Hgenders; [|done]. cbn [bindR].
  destruct (bool_decide (getProperty genders (character el) = Own female)) eqn:Hg; cbn [andb].
  - apply bool_decide_eq_true, getProperty_Own in Hg. cbn. intros [= <-].
    destruct (setVoice_lookup (character el) FEMALE_VOICES (femaleVoiceIndex st)
                (characterVoices st)) as (voice & Hin & Hset); [done|].
    cbn [characterVoices assignedGenders maleVoiceIndex femaleVoiceIndex]. rewrite Hset.
    split.
    { rewrite (getProperty_own _ _ voice) by apply lookup_insert_eq.
      apply pool_truthy, elem_of_app. by right. }
    split; [by intros name Hne; rewrite lookup_insert_ne|].
    intros Hinv. destruct (Hfresh Hinv) as [Hnone Hproto].
    destruct Hinv as [Hown Hpool Hfem Hsize].
    split; cbn [characterVoices assignedGenders maleVoiceIndex femaleVoiceIndex].
    + intros name. destruct (decide (name = character el)) as [->|Hne]; [done|].
      rewrite lookup_insert_ne by done. apply Hown.
    + intros name v. destruct (decide (name = character el)) as [->|Hne].
      * rewrite lookup_insert_eq. intros [= <-]. apply elem_of_app. by right.
      * rewrite lookup_insert_ne by done. apply Hpool.
    + intros name v. destruct (decide (name = character el)) as [->|Hne].
      * rewrite lookup_insert_eq. intros [= <-]. done.
      * rewrite lookup_insert_ne by done. intros Hv.
        rewrite (determineGender_other _ _ _ _ name Hgenders Hne). by apply Hfem.
    + rewrite map_size_insert_None by done. lia.
  - apply bool_decide_eq_false in Hg. rewrite getProperty_Own in Hg. intros [= <-].
    destruct (setVoice_lookup (character el) MALE_VOICES (maleVoiceIndex st)
                (characterVoices st)) as (voice & Hin & Hset); [done|].
    cbn [characterVoices assignedGenders maleVoiceIndex femaleVoiceIndex]. rewrite Hset.
    split.
    { rewrite (getProperty_own _ _ voice) by apply lookup_insert_eq.
      apply pool_truthy, elem_of_app. by left. }
    split; [by intros name Hne; rewrite lookup_insert_ne|].
    intros Hinv. destruct (Hfresh Hinv) as [Hnone Hproto].
    destruct Hinv as [Hown Hpool Hfem Hsize].
    split; cbn [characterVoices assignedGenders maleVoiceIndex femaleVoiceIndex].
    + intros name. destruct (decide (name = character el)) as [->|Hne]; [done|].
      rewrite lookup_insert_ne by done. apply Hown.
    + intros name v. destruct (decide (name = character el)) as [->|Hne].
      * rewrite lookup_insert_eq. intros [= <-]. apply elem_of_app. by left.
      * rewrite lookup_insert_ne by done. apply Hpool.
    + intros name v. destruct (decide (name = character el)) as [->|Hne].
      * rewrite lookup_insert_eq. intros [= <-]. split; [|done].
        intros Hfemale. exfalso. revert Hin Hfemale. unfold MALE_VOICES, FEMALE_VOICES.
        rewrite !elem_of_cons, !elem_of_nil. intros [->|[->|[->|[->|[]]]]] [?|[]]; done.
      * rewrite lookup_insert_ne by done. intros Hv.
        rewrite (determineGender_other _ _ _ _ name Hgenders Hne). by apply Hfem.
    + rewrite map_size_insert_None by done. lia.
Qed.

(** A truthy reading is kept by every later step. *)
Lemma assignVoice_keeps (premiseCharacters : string) (st st' : VoiceState)
    (el : DialogueBlock) (name : string) :
  assignVoice premiseCharacters st el = Ok st' →
  truthyProperty Str.truthy (getProperty (characterVoices st) name) = true →
  getProperty (characterVoices st') name = getProperty (characterVoices st) name.
Proof.
  intros Hstep Ht. destruct (decide (name = character el)) as [->|Hne].
  - rewrite (assignVoice_truthy _ _ _ Ht) in Hstep. by injection Hstep as <-.
  - apply getProperty_lookup. by apply (assignVoice_step _ _ _ _ Hstep).
Qed.

Lemma assignVoicesFrom_app (premiseCharacters : string) (st : VoiceState)
    (l1 l2 : list (DialogueBlock * nat)) :
  assignVoicesFrom premiseCharacters st (l1 ++ l2)
  = bindR (assignVoicesFrom premiseCharacters st l1)
      (λ st', assignVoicesFrom premiseCharacters st' l2).
Proof.
  revert st. induction l1 as [|[el i] l1 IH]; intros st; [done|].
  cbn [app assignVoicesFrom]. destruct (assignVoice _ _ _); cbn [bindR]; [apply IH|done].
Qed.

(** After the assignment the table reads a truthy value for every character
    of the blocks, and for every name for which it did before. *)
Lemma assignVoicesFrom_truthy (premiseCharacters : string) (st st' : VoiceState)
    (blocks : list (DialogueBlock * nat)) (name : string) :
  assignVoicesFrom premiseCharacters st blocks = Ok st' →
  truthyProperty Str.truthy (getProperty (characterVoices st) name) = true
  ∨ name ∈ (λ b, character b.1) <$> blocks →
  truthyProperty Str.truthy (getProperty (characterVoices st') name) = true.
Proof.
  revert st. induction blocks as [|[el i] rest IH]; intros st.
  - intros [= <-] [?|Hin]; [done|]. by apply elem_of_nil in Hin.
  - cbn [assignVoicesFrom].
    destruct (assignVoice premiseCharacters st el) as [st1|] eqn:Hstep; [|done]. cbn [bindR].
    intros Hrest Hname. apply (IH st1 Hrest).
    destruct Hname as [Ht|Hin].
    + left. by rewrite (assignVoice_keeps _ _ _ _ _ Hstep Ht).
    + rewrite fmap_cons in Hin. cbn [fst] in Hin. apply elem_of_cons in Hin as [->|Hin].
      * left. by apply (assignVoice_step _ _ _ _ Hstep).
      * by right.
Qed.

Lemma assignVoicesFrom_table (premiseCharacters : string) (st st' : VoiceState)
    (blocks : list (DialogueBlock * nat)) :
  assignVoicesFrom premiseCharacters st blocks = Ok st' →
  pooledVoices st →
  (∀ name, is_Some (characterVoices st' !! name)
           ↔ is_Some (characterVoices st !! name)
             ∨ (name ∈ (λ b, character b.1) <$> blocks ∧ name ∉ Object_prototype))
  ∧ pooledVoices st'.
Proof.
  revert st. induction blocks as [|[el i] rest IH]; intros st.
  - intros [= <-] Hinv. split; [|done]. intros name. rewrite fmap_nil, elem_of_nil. tauto.
  - cbn [assignVoicesFrom].
    destruct (assignVoice premiseCharacters st el) as [st1|] eqn:Hstep; [|done]. cbn [bindR].
    intros Hrest Hinv.
    destruct (assignVoice_step _ _ _ _ Hstep) as (Hnew & Hother & Hpool).
    destruct (IH st1 Hrest (Hpool Hinv)) as (Hdom & Hpool').
    split; [|done].
    intros name. rewrite Hdom, fmap_cons, elem_of_cons. cbn [fst].
    destruct (decide (name = character el)) as [->|Hne].
    + assert (Hiff : is_Some (characterVoices st1 !! character el)
                     ↔ character el ∉ Object_prototype).
      { split; [apply (pooled_own _ (Hpool Hinv))|].
        intros Hproto. unfold getProperty in Hnew.
        destruct (characterVoices st1 !! character el); [by eexists|].
        by rewrite bool_decide_eq_false_2 in Hnew. }
      pose proof (pooled_own _ Hinv (character el)). tauto.
    + rewrite (Hother name Hne). tauto.
Qed.

Lemma initialVoiceState_pooled : pooledVoices initialVoiceState.
Proof.
  split; [intros name|intros name voice|intros name voice|]; cbn; rewrite ?lookup_empty;
    try done; by intros [? ?].
Qed.

Lemma assignVoices_pooled (premise : StoryElements) (blocks : list (DialogueBlock * nat))
    (st : VoiceState) :
  assignVoices premise blocks = Ok st →
  (∀ name, is_Some (characterVoices st !! name)
           ↔ name ∈ (λ b, character b.1) <$> blocks ∧ name ∉ Object_prototype)
  ∧ pooledVoices st.
Proof.
  unfold assignVoices. intros Hst.
  destruct (assignVoicesFrom_table _ _ _ _ Hst initialVoiceState_pooled) as (Hdom & Hpool).
  split; [|done].
  intros name. rewrite Hdom. cbn. rewrite lookup_empty. split; [|by right].
  intros [[? ?]|?]; done.
Qed.

(** X3. The table of voices.  After a successful assignment the characters
    with a voice are exactly the characters of the dialogue blocks whose
    name is not a property of [Object.prototype]; every voice comes from one
    of the two pools; a character has the female voice Kore exactly when it
    was recorded as female; the two cursors together count the characters
    with a voice; and for every character of the blocks the table reads
    either its voice or, under the name of a property of
    [Object.prototype], what the table inherits. *)
Theorem assignVoices_table (premise : StoryElements) (blocks : list (DialogueBlock * nat))
    (st : VoiceState) :
  assignVoices premise blocks = Ok st →
  (∀ name, is_Some (characterVoices st !! name)
           ↔ name ∈ (λ b, character b.1) <$> blocks ∧ name ∉ Object_prototype)
  ∧ (∀ name voice, characterVoices st !! name = Some voice →
       voice ∈ MALE_VOICES ++ FEMALE_VOICES
       ∧ (voice = "Kore" ↔ assignedGenders st !! name = Some female))
  ∧ size (characterVoices st) = maleVoiceIndex st + femaleVoiceIndex st
  ∧ (∀ name, name ∈ (λ b, character b.1) <$> blocks →
       (∃ voice, getProperty (characterVoices st) name = Own voice
                 ∧ voice ∈ MALE_VOICES ++ FEMALE_VOICES)
       ∨ (name ∈ Object_prototype
          ∧ getProperty (characterVoices st) name = Inherited name)).
Proof.
  intros Hst. destruct (assignVoices_pooled premise blocks st Hst) as [Hdom Hpool].
  destruct Hpool as [Hown Hvoice Hfemale Hsize].
  split; [done|]. split; [|split; [done|]].
  - intros name voice Hv. split; [by eapply Hvoice|].
    rewrite <- (Hfemale name voice Hv). unfold FEMALE_VOICES.
    rewrite elem_of_cons, elem_of_nil. tauto.
  - intros name Hname. destruct (decide (name ∈ Object_prototype)) as [Hproto|Hproto].
    + right. split; [done|]. apply getProperty_inherited; [|done].
      apply eq_None_not_Some. rewrite Hdom. tauto.
    + left. destruct (proj2 (Hdom name)) as [voice Hv]; [done|].
      exists voice. split; [by apply getProperty_own|by eapply Hvoice].
Qed.

(** X4. A speaker met again.  A dialogue block whose character already
    occurs in an earlier block changes nothing: the assignment is the same
    with or without it. *)
Theorem assignVoices_repeated_speaker (premiseCharacters : string) (st : VoiceState)
    (l1 l2 : list (DialogueBlock * nat)) (b : DialogueBlock * nat) :
  character b.1 ∈ (λ b, character b.1) <$> l1 →
  assignVoicesFrom premiseCharacters st (l1 ++ b :: l2)
  = assignVoicesFrom premiseCharacters st (l1 ++ l2).
Proof.
  intros Hseen. rewrite !assignVoicesFrom_app.
  destruct (assignVoicesFrom premiseCharacters st l1) as [st1|] eqn:Hl1; [|done].
  cbn [bindR]. destruct b as [el i]. cbn [assignVoicesFrom fst] in *.
  rewrite assignVoice_truthy; [done|].
  apply (assignVoicesFrom_truthy _ _ _ _ _ Hl1). by right.
Qed.

End VoiceTable.

(** ** The requests of a run *)

Section RunRequests.
Context `{Platform}.

Lemma imageExchanges_app (characterImages : gmap string CharacterImage)
    (l1 l2 : list Request) :
  imageExchanges characterImages l1 → imageExchanges characterImages l2 →
  imageExchanges characterImages (l1 ++ l2).
Proof. induction 1; intros Hl2; [done|]. cbn. constructor. auto. Qed.

Lemma imageLoop_requests (script : Script) (characterImages : gmap string CharacterImage)
    (scenes : list (string * nat)) (lastCharacter : string)
    (images : list GeneratedImage.t) (env : Env) :
  ∃ exchanges,
    requests (imageLoop script characterImages scenes lastCharacter images env).2
    = requests env ++ exchanges
    ∧ imageExchanges characterImages exchanges
    ∧ ∀ images',
        (imageLoop script characterImages scenes lastCharacter images env).1 = Ok images' →
        length exchanges = 2 * length scenes
        ∧ ∃ new, images' = images ++ new
                 ∧ length new = length scenes
                 ∧ Forall (λ img, ∃ payload,
                             GeneratedImage.imageUrl img = "data:image/png;base64," +:+ payload)
                     new.
Proof.
  revert lastCharacter images env.
  induction scenes as [|[c i] rest IH]; intros lc images env.
  - exists []. cbn. rewrite app_nil_r. split; [done|]. split; [constructor|].
    intros images' [= <-]. split; [done|]. exists []. by rewrite app_nil_r.
  - cbn [imageLoop].
    set (lc' := resolveSpeaker script i lc).
    unfold mbind, M_bind, bind, ask, call, request.
    destruct (createImagePromptFromAction lc' c (world env)) as [text w1] eqn:Hprompt.
    cbn [world requests].
    match goal with
    | |- context [generateImage ?p ?b ?m w1] =>
        destruct (generateImage p b m w1) as [[imageBase64|message] w2] eqn:Himage
    end.
    + match goal with
      | |- context [imageLoop script characterImages rest lc' ?acc ?e] =>
          destruct (IH lc' acc e) as (exchanges & Hlog & Hex & Hres)
      end.
      eexists (_ :: _ :: exchanges). split; [|split].
      * rewrite Hlog. cbn [requests]. rewrite <- !app_assoc. reflexivity.
      * apply (imageExchanges_cons characterImages lc' c text). exact Hex.
      * intros images' Hok. destruct (Hres images' Hok) as (Hlen & new & -> & Hnew & Hurl).
        split; [cbn; lia|]. eexists (_ :: new). rewrite <- app_assoc. split; [done|].
        split; [cbn; lia|]. constructor; [by eexists|done].
    + eexists [_; _]. split; [|split].
      * cbn [requests snd]. rewrite <- !app_assoc. reflexivity.
      * apply (imageExchanges_cons characterImages lc' c text). constructor.
      * cbn. done.
Qed.

Lemma audioLoop_requests (voices : gmap string string) (blocks : list (DialogueBlock * nat))
    (audioClips : list GeneratedAudio.t) (env : Env) :
  ∃ n,
    requests (audioLoop voices blocks audioClips env).2
    = requests env
      ++ take n ((λ b, SpeechRequest (promptText b.1) (getProperty voices (character b.1)))
                   <$> filter spoken blocks)
    ∧ ∀ clips, (audioLoop voices blocks audioClips env).1 = Ok clips →
        n = length (filter spoken blocks)
        ∧ length clips = length audioClips + length (filter spoken blocks).
Proof.
  rewrite audioLoop_filter.
  assert (Hall : Forall spoken (filter spoken blocks)).
  { apply Forall_forall. intros b Hb. by apply list_elem_of_filter in Hb as [? _]. }
  revert audioClips env Hall.
  induction (filter spoken blocks) as [|[el index] rest IH]; intros clips env Hall.
  - exists 0. cbn. rewrite app_nil_r. split; [done|]. intros clips' [= <-]. split; [done|lia].
  - apply Forall_cons in Hall as [Hs Hall]. rewrite audioLoop_spoken by done.
    destruct (generateSpeech _ _ _) as [[audioBase64|message] w]; cbv zeta.
    2:{ exists 1. split; [|done]. cbn. by rewrite take_0. }
    destruct (decode audioBase64) as [pcmData|message].
    2:{ exists 1. split; [|done]. cbn. by rewrite take_0. }
    match goal with
    | |- context [audioLoop voices rest ?acc ?e] =>
        destruct (IH acc e Hall) as (n & Hlog & Hres)
    end.
    exists (S n). split.
    + rewrite Hlog. cbn [requests fmap list_fmap take fst]. by rewrite <- app_assoc.
    + intros clips' Hok. destruct (Hres clips' Hok) as [-> Hlen]. split; [done|].
      rewrite Hlen, length_app. cbn. lia.
Qed.

Lemma audioStage_requests (script : Script) (premise : StoryElements) (env : Env) :
  ∃ speeches,
    requests (audioStage script premise env).2 = requests env ++ speeches
    ∧ Forall pooledSpeechRequest speeches
    ∧ ∀ clips, (audioStage script premise env).1 = Ok clips →
        length speeches = length clips.
Proof.
  unfold audioStage, mbind, M_bind, bind, liftR.
  destruct (assignVoices premise (dialogueBlocks script)) as [st|message] eqn:Hst.
  2:{ exists []. cbn. rewrite app_nil_r. done. }
  destruct (audioLoop_requests (characterVoices st) (dialogueBlocks script) [] env)
    as (n & Hlog & Hres).
  eexists. split; [exact Hlog|]. split.
  - apply Forall_take, Forall_fmap, Forall_forall. intros [el i] Hb.
    apply list_elem_of_filter in Hb as [_ Hb]. unfold compose. cbn [fst].
    destruct (assignVoices_pooled premise _ st Hst) as (Hdom & [_ Hvoice _ _]).
    assert (Hin : character el ∈ (λ b, character b.1) <$> dialogueBlocks script).
    { apply list_elem_of_fmap. by exists (el, i). }
    exists (promptText el), (getProperty (characterVoices st) (character el)).
    split; [done|].
    destruct (decide (character el ∈ Object_prototype)) as [Hproto|Hproto].
    + right. exists (character el). split; [|done]. apply getProperty_inherited; [|done].
      apply eq_None_not_Some. rewrite Hdom. tauto.
    + left. destruct (proj2 (Hdom (character el))) as [voice Hv]; [done|].
      exists voice. split; [by apply getProperty_own|by eapply Hvoice].
  - intros clips Hok. destruct (Hres clips Hok) as [-> Hlen].
    rewrite length_take, length_fmap, Hlen. cbn. lia.
Qed.

End RunRequests.

(** ** Runs *)

Section RunFacts.
Context `{Platform}.

Lemma app_eq_self {A} (l k : list A) : l ++ k = l → k = [].
Proof.
  intros Heq. apply (f_equal length) in Heq. rewrite length_app in Heq.
  destruct k; [done|]. cbn in Heq. lia.
Qed.

(** X5. When a run starts.  [handleGenerate] sends no request exactly when
    the input is blank or the premise is missing; it then leaves an error
    message and keeps the script, the images and the clips of the state as
    they were. *)
Theorem handleGenerate_guards (app : AppState) (env : Env) :
  (requests (handleGenerate app env).2 = requests env
   ↔ Str.trim (userInput app) = "" ∨ storyElements app = None)
  ∧ (Str.trim (userInput app) = "" ∨ storyElements app = None →
       (handleGenerate app env).2 = env
       ∧ is_Some (error (handleGenerate app env).1)
       ∧ scriptData (handleGenerate app env).1 = scriptData app
       ∧ generatedImages (handleGenerate app env).1 = generatedImages app
       ∧ generatedAudio (handleGenerate app env).1 = generatedAudio app).
Proof.
  unfold handleGenerate.
  destruct (Str.trim (userInput app)) as [|c s] eqn:Htrim; cbn [Str.truthy negb].
  { split; [split; [by left|done]|]. intros _. by repeat split; [eexists|..]. }
  destruct (storyElements app) as [premise|] eqn:Hpremise.
  2:{ split; [split; [by right|done]|]. intros _. by repeat split; [eexists|..]. }
  split; [|by intros [?|?]].
  split; [|by intros [?|?]]. intros Hlog. exfalso.
  unfold call, request in Hlog.
  destruct (generateStory _ (world env)) as [[script|message] w]; cbn [snd requests] in Hlog.
  2:{ by apply app_eq_self in Hlog. }
  cbn [characterImages setGeneratedAudio setGeneratedImages setScriptData setError] in Hlog.
  match type of Hlog with
  | context [imageStage script ?ci ?e] =>
      destruct (imageLoop_requests script ci (scenesWithAction script) UNKNOWN_SPEAKER [] e)
        as (exchanges & Hi & _); fold (imageStage script ci e) in Hi;
      destruct (imageStage script ci e) as [[images|message] env2]
  end; cbn [snd requests] in *.
  2:{ rewrite Hi, <- app_assoc in Hlog. by apply app_eq_self in Hlog. }
  destruct (audioStage_requests script premise env2) as (speeches & Ha & _).
  destruct (audioStage script premise env2) as [[clips|message] env3]; cbn [snd] in *;
    rewrite Ha, Hi, <- !app_assoc in Hlog; by apply app_eq_self in Hlog.
Qed.

(** X6. What a run leaves behind.  A run that starts keeps the input, the
    premise and the reference images.  Without an error it holds a script,
    one image per non-empty action, with the scene indices of the actions
    in order, and one clip per spoken dialogue block.  With an error it
    holds no clip, and without a script it holds no image. *)
Theorem handleGenerate_outcome (app : AppState) (env : Env) (premise : StoryElements) :
  Str.trim (userInput app) ≠ "" →
  storyElements app = Some premise →
  let app' := (handleGenerate app env).1 in
  userInput app' = userInput app
  ∧ storyElements app' = storyElements app
  ∧ characterImages app' = characterImages app
  ∧ (error app' = None →
       ∃ script, scriptData app' = Some script
                 ∧ GeneratedImage.sceneIndex <$> generatedImages app'
                   = snd <$> scenesWithAction script
                 ∧ Forall2 clipOf (generatedAudio app') (filter spoken (dialogueBlocks script)))
  ∧ (is_Some (error app') → generatedAudio app' = [])
  ∧ (scriptData app' = None → generatedImages app' = []).
Proof.
  intros Hinput Hpremise. unfold handleGenerate.
  destruct (Str.trim (userInput app)) as [|c s] eqn:Htrim; [done|]. cbn [Str.truthy negb].
  rewrite Hpremise. cbn [userInput characterImages setGeneratedAudio setGeneratedImages
                         setScriptData setError].
  destruct (call _ _ env) as [[script|message] env1]; [|by cbn].
  destruct (imageStage script (characterImages app) env1) as [[images|message] env2] eqn:Hi;
    [|by cbn].
  destruct (audioStage script premise env2) as [[clips|message] env3] eqn:Ha; cbn.
  - split; [done|]. split; [done|]. split; [done|]. split; [|split; [by intros [? ?]|done]].
    intros _. exists script. split; [done|]. split.
    + apply (imageStage_indices script (characterImages app) env1). by rewrite Hi.
    + apply (audioStage_clips script premise env2). by rewrite Ha.
  - by repeat split.
Qed.

(** X7. The requests of a run.  A run that starts sends the story request
    with the prompt built from the premise and the input, then the requests
    of the image loop, which come in pairs (the image prompt for a speaker
    and an action, then the image: with the instruction to use the input
    image when the table of images reads something under the speaker's key,
    and with the reference image when what it reads is an image of the
    table), then the speech requests, each naming a voice of a pool or, for
    a character named like a property of [Object.prototype], what the table
    of voices inherits under that name.  No speech is requested before every
    image is made, and without an error there are two image requests per
    image and one speech request per clip. *)
Theorem handleGenerate_requests (app : AppState) (env : Env) (premise : StoryElements) :
  Str.trim (userInput app) ≠ "" →
  storyElements app = Some premise →
  let app' := (handleGenerate app env).1 in
  ∃ exchanges speeches,
    requests (handleGenerate app env).2
    = requests env
      ++ StoryRequest (constructFinalPrompt premise (userInput app)) :: exchanges ++ speeches
    ∧ imageExchanges (characterImages app) exchanges
    ∧ Forall pooledSpeechRequest speeches
    ∧ (speeches ≠ [] → length exchanges = 2 * length (generatedImages app'))
    ∧ (error app' = None →
         length exchanges = 2 * length (generatedImages app')
         ∧ length speeches = length (generatedAudio app')).
Proof.
  intros Hinput Hpremise. unfold handleGenerate.
  destruct (Str.trim (userInput app)) as [|c s] eqn:Htrim; [done|]. cbn [Str.truthy negb].
  rewrite Hpremise. cbn [userInput characterImages setGeneratedAudio setGeneratedImages
                         setScriptData setError].
  unfold call, request.
  destruct (generateStory _ (world env)) as [[script|message] w].
  2:{ exists [], []. cbn. repeat split; try done; constructor. }
  match goal with
  | |- context [imageStage script ?ci ?e] =>
      destruct (imageLoop_requests script ci (scenesWithAction script) UNKNOWN_SPEAKER [] e)
        as (exchanges & Hi & Hex & Hres); fold (imageStage script ci e) in Hi, Hres;
      destruct (imageStage script ci e) as [[images|message] env2]
  end; cbn [fst snd requests] in *.
  2:{ exists exchanges, []. rewrite Hi, app_nil_r, <- app_assoc. cbn.
      repeat split; try done. }
  destruct (Hres images eq_refl) as (Hlen & new & -> & Hnew & _). cbn [List.app] in *.
  destruct (audioStage_requests script premise env2) as (speeches & Ha & Hpooled & Hclips).
  exists exchanges, speeches.
  destruct (audioStage script premise env2) as [[clips|message] env3]; cbn [fst snd] in *.
  - rewrite Ha, Hi, <- !app_assoc. cbn. repeat split; try done; try lia.
    by apply Hclips.
  - rewrite Ha, Hi, <- !app_assoc. cbn. repeat split; try done; lia.
Qed.

Lemma handleGenerate_first_request (app : AppState) (env : Env) (premise : StoryElements) :
  Str.trim (userInput app) ≠ "" →
  storyElements app = Some premise →
  ∃ rest,
    requests (handleGenerate app env).2
    = requests env ++ StoryRequest (constructFinalPrompt premise (userInput app)) :: rest.
Proof.
  intros Hinput Hpremise. unfold handleGenerate.
  destruct (Str.trim (userInput app)) as [|c s] eqn:Htrim; [done|]. cbn [Str.truthy negb].
  rewrite Hpremise. cbn [userInput characterImages setGeneratedAudio setGeneratedImages
                         setScriptData setError].
  unfold call, request.
  destruct (generateStory _ (world env)) as [[script|message] w].
  2:{ by exists []. }
  match goal with
  | |- context [imageStage script ?ci ?e] =>
      destruct (imageLoop_requests script ci (scenesWithAction script) UNKNOWN_SPEAKER [] e)
        as (exchanges & Hi & _); fold (imageStage script ci e) in Hi;
      destruct (imageStage script ci e) as [[images|message] env2]
  end; cbn [fst snd requests] in *.
  2:{ exists exchanges. by rewrite Hi, <- app_assoc. }
  destruct (audioStage_requests script premise env2) as (speeches & Ha & _).
  exists (exchanges ++ speeches).
  destruct (audioStage script premise env2) as [[clips|message] env3]; cbn [fst snd] in *;
    by rewrite Ha, Hi, <- !app_assoc.
Qed.

Lemma handleFetchPremise_outcome (app : AppState) (env : Env) :
  let app' := (handleFetchPremise app env).1 in
  (Str.trim (userInput app) = "" →
     (handleFetchPremise app env).2 = env
     ∧ storyElements app' = storyElements app
     ∧ is_Some (error app'))
  ∧ (Str.trim (userInput app) ≠ "" →
       (handleFetchPremise app env).2 = (fetchStoryElements env).2
       ∧ match (fetchStoryElements env).1 with
         | Ok elements => storyElements app' = Some elements ∧ error app' = None
         | Throw message => storyElements app' = None ∧ error app' = Some message
         end)
  ∧ userInput app' = userInput app
  ∧ scriptData app' = scriptData app
  ∧ generatedImages app' = generatedImages app
  ∧ generatedAudio app' = generatedAudio app
  ∧ characterImages app' = characterImages app.
Proof.
  cbv zeta. unfold handleFetchPremise.
  destruct (Str.trim (userInput app)) as [|c s] eqn:Htrim; cbn [Str.truthy negb].
  - split; [intros _; by repeat split; [eexists|..]|]. split; [done|]. done.
  - split; [done|].
    destruct (fetchStoryElements env) as [[elements|message] env']; cbn; by repeat split.
Qed.

(** X8. Fetching, then generating.  With a non-blank input, a run that
    follows [handleFetchPremise] continues the log of the fetch with the
    story request for the fetched premise; when the fetch failed, the run
    sends nothing and reports that the premise is not loaded. *)
Theorem handleFetchPremise_then_handleGenerate (app : AppState) (env : Env) :
  Str.trim (userInput app) ≠ "" →
  let fetched := handleFetchPremise app env in
  match (fetchStoryElements env).1 with
  | Ok elements =>
      ∃ rest,
        requests (handleGenerate fetched.1 fetched.2).2
        = requests (fetchStoryElements env).2
          ++ StoryRequest (constructFinalPrompt elements (userInput app)) :: rest
  | Throw message =>
      handleGenerate fetched.1 fetched.2
      = (setError (Some "Story premise not loaded. Please fetch it first.") fetched.1,
         fetched.2)
  end.
Proof.
  intros Hinput fetched.
  destruct (handleFetchPremise_outcome app env) as (_ & Hrun & Hui & _).
  destruct (Hrun Hinput) as [Henv Hcase]. fold fetched in Henv, Hcase, Hui.
  destruct (fetchStoryElements env).1 as [elements|message].
  - destruct Hcase as [Hse _].
    destruct (handleGenerate_first_request fetched.1 fetched.2 elements)
      as (rest & Hlog); [by rewrite Hui|done|].
    exists rest. by rewrite Hlog, Henv, Hui.
  - destruct Hcase as [Hse _]. unfold handleGenerate. rewrite Hui, Hse.
    destruct (Str.trim (userInput app)); done.
Qed.

Lemma handleStartOver_resets (app : AppState) (env : Env) :
  (handleGenerate (handleStartOver app) env).2 = env
  ∧ (handleFetchPremise (handleStartOver app) env).2 = env
  ∧ handleDownloadZip (handleStartOver app) = (handleStartOver app, None)
  ∧ generatedImages (handleGenerate (handleStartOver app) env).1 = []
  ∧ generatedAudio (handleGenerate (handleStartOver app) env).1 = [].
Proof. done. Qed.

End RunFacts.

(** ** WAV files for all parameters *)

Lemma byteOf_isByte (v : Z) (k : nat) : isByte (byteOf v k).
Proof. unfold isByte. rewrite byteOf_div. apply Z.mod_pos_bound. lia. Qed.

Lemma fieldBytes_isByte (width : nat) (v : Z) (le : bool) :
  Forall isByte (fieldBytes width v le).
Proof.
  unfold fieldBytes.
  assert (Forall isByte (map (byteOf v) (seq 0 width))) as Hle.
  { apply Forall_forall. intros b Hb. apply list_elem_of_fmap in Hb as (k & -> & _).
    apply byteOf_isByte. }
  destruct le; [done|]. by apply Forall_rev.
Qed.

Lemma wavHeaderBytes_isByte (n sr nc bps : Z) : Forall isByte (wavHeaderBytes n sr nc bps).
Proof.
  unfold wavHeaderBytes. rewrite !Forall_app. repeat split; apply fieldBytes_isByte.
Qed.

Lemma fromLE_uint32_mod (v : Z) :
  fromLE [byteOf v 0; byteOf v 1; byteOf v 2; byteOf v 3] = (v mod 2 ^ 32)%Z.
Proof.
  change [byteOf v 0; byteOf v 1; byteOf v 2; byteOf v 3] with (map (byteOf v) (seq 0 4)).
  rewrite fromLE_fieldBytes. simpl (2 ^ _)%Z. by rewrite Z.div_1_r.
Qed.

Lemma fromLE_uint16_mod (v : Z) : fromLE [byteOf v 0; byteOf v 1] = (v mod 2 ^ 16)%Z.
Proof.
  change [byteOf v 0; byteOf v 1] with (map (byteOf v) (seq 0 2)).
  rewrite fromLE_fieldBytes. simpl (2 ^ _)%Z. by rewrite Z.div_1_r.
Qed.

Lemma toUint_idemp (bits : Z) (x : Q) :
  (0 < bits)%Z → (toUint bits x mod 2 ^ bits = toUint bits x)%Z.
Proof. intros Hbits. unfold toUint. apply Z.mod_mod. apply Z.pow_nonzero; lia. Qed.

Lemma truncate_byteRate (sr nc bps : Z) :
  truncate (num sr * num nc * (num bps / num 8))%Q = Z.quot (sr * nc * bps) 8.
Proof. unfold truncate, num. cbn. f_equal. ring. Qed.

Lemma truncate_blockAlign (nc bps : Z) :
  truncate (num nc * (num bps / num 8))%Q = Z.quot (nc * bps) 8.
Proof. unfold truncate, num. cbn. f_equal. ring. Qed.

Lemma readWavHeader_any (n sr nc bps : Z) :
  readWavHeader (wavHeaderBytes n sr nc bps)
  = {| riffTag := asciiBytes "RIFF";
       fileSize := (36 + n) mod 2 ^ 32;
       waveTag := asciiBytes "WAVE";
       fmtTag := asciiBytes "fmt ";
       fmtChunkSize := 16;
       audioFormat := 1;
       numChannels := nc mod 2 ^ 16;
       sampleRate := sr mod 2 ^ 32;
       byteRate := Z.quot (sr * nc * bps) 8 mod 2 ^ 32;
       blockAlign := Z.quot (nc * bps) 8 mod 2 ^ 16;
       bitsPerSample := bps mod 2 ^ 16;
       dataTag := asciiBytes "data";
       dataSize := n mod 2 ^ 32 |}.
Proof.
  unfold readWavHeader, getUint32, getUint16, getUint, wavHeaderBytes, fieldBytes.
  set (v1 := toUint 32 (num (36 + n))). set (v2 := toUint 16 (num nc)).
  set (v3 := toUint 32 (num sr)). set (v4 := toUint 32 (_ * _ * _)%Q).
  set (v5 := toUint 16 (_ * _)%Q). set (v6 := toUint 16 (num bps)).
  set (v7 := toUint 32 (num n)).
  cbn [map seq rev app firstn skipn].
  rewrite (fromLE_uint32_mod v1), (fromLE_uint16_mod v2), (fromLE_uint32_mod v3),
    (fromLE_uint32_mod v4), (fromLE_uint16_mod v5), (fromLE_uint16_mod v6),
    (fromLE_uint32_mod v7).
  subst v1 v2 v3 v4 v5 v6 v7. rewrite !toUint_idemp by lia.
  rewrite !toUint_num. unfold toUint. rewrite truncate_byteRate, truncate_blockAlign.
  f_equal; vm_compute; reflexivity.
Qed.

(** X9. The encoder for all parameters.  For every buffer and all
    non-negative integer parameters below 2^53 whose products, the sample
    rate by the channels, the channels by the bits per sample and the three
    together, are below 2^53 as well (the range where the products of the
    source, on doubles, are exact), [pcmToWav] returns a file of 44 bytes
    plus the buffer; the payload is the buffer unchanged, every header byte
    is a byte, and the header holds the tags, the sizes modulo 2^32, the
    parameters modulo the width of their fields, and the byte rate and
    block align rounded down. *)
Theorem pcmToWav_any_parameters (pcmData : list Z) (sampleRate numChannels bitsPerSample : Z) :
  (0 ≤ sampleRate < 2 ^ 53)%Z → (0 ≤ numChannels < 2 ^ 53)%Z →
  (0 ≤ bitsPerSample < 2 ^ 53)%Z →
  (sampleRate * numChannels < 2 ^ 53)%Z →
  (numChannels * bitsPerSample < 2 ^ 53)%Z →
  (sampleRate * numChannels * bitsPerSample < 2 ^ 53)%Z →
  ∃ wav,
    pcmToWav pcmData sampleRate numChannels bitsPerSample = Ok wav
    ∧ length wav = 44 + length pcmData
    ∧ drop 44 wav = pcmData
    ∧ Forall isByte (take 44 wav)
    ∧ readWavHeader (take 44 wav)
      = {| riffTag := asciiBytes "RIFF";
           fileSize := (36 + Z.of_nat (length pcmData)) mod 2 ^ 32;
           waveTag := asciiBytes "WAVE";
           fmtTag := asciiBytes "fmt ";
           fmtChunkSize := 16;
           audioFormat := 1;
           numChannels := numChannels mod 2 ^ 16;
           sampleRate := sampleRate mod 2 ^ 32;
           byteRate := (sampleRate * numChannels * bitsPerSample / 8) mod 2 ^ 32;
           blockAlign := (numChannels * bitsPerSample / 8) mod 2 ^ 16;
           bitsPerSample := bitsPerSample mod 2 ^ 16;
           dataTag := asciiBytes "data";
           dataSize := Z.of_nat (length pcmData) mod 2 ^ 32 |}.
Proof.
  intros Hsr Hnc Hbps _ _ _. eexists. split; [apply pcmToWav_header|].
  pose proof (length_wavHeaderBytes (Z.of_nat (length pcmData)) sampleRate numChannels
                bitsPerSample) as Hlen.
  split; [by rewrite length_app, Hlen|].
  split; [by rewrite drop_app_length' by done|].
  rewrite take_app_length' by done.
  split; [apply wavHeaderBytes_isByte|].
  rewrite readWavHeader_any.
  rewrite !Z.quot_div_nonneg by nia. done.
Qed.

(** ** Decoding *)

Lemma store_loop (f : nat → Z) (pre : list Z) (k : nat) :
  foldl (λ bytes i, <[i := f i]> bytes) (pre ++ replicate k 0%Z) (seq (length pre) k)
  = pre ++ map f (seq (length pre) k).
Proof.
  revert pre. induction k as [|k IH]; intros pre; [done|].
  cbn [seq foldl replicate map].
  rewrite insert_app_r_alt by lia. rewrite Nat.sub_diag. cbn [insert list_insert].
  replace (pre ++ f (length pre) :: replicate k 0%Z)
    with ((pre ++ [f (length pre)]) ++ replicate k 0%Z) by (by rewrite <- app_assoc).
  replace (S (length pre)) with (length (pre ++ [f (length pre)]))
    by (rewrite length_app; cbn; lia).
  rewrite IH. by rewrite <- app_assoc.
Qed.

Lemma charCodes_asciiBytes (s : string) :
  map (λ i, (charCodeAt s i mod 256)%Z) (seq 0 (String.length s)) = asciiBytes s.
Proof.
  induction s as [|c s IH]; [done|].
  cbn [String.length seq map]. rewrite <- seq_shift, map_map.
  unfold asciiBytes. cbn [list_ascii_of_string map]. f_equal.
  - unfold charCodeAt. cbn. apply Z.mod_small.
    pose proof (nat_ascii_bounded c). lia.
  - exact IH.
Qed.

Lemma asciiBytes_isByte (s : string) : Forall isByte (asciiBytes s).
Proof.
  unfold asciiBytes. apply Forall_forall. intros b Hb.
  apply list_elem_of_fmap in Hb as (c & -> & _).
  pose proof (nat_ascii_bounded c). unfold isByte. lia.
Qed.

Lemma decode_atob (payload : string) :
  decode payload
  = match Base64.atob payload with
    | Ok binaryString => Ok (asciiBytes binaryString)
    | Throw message => Throw message
    end.
Proof.
  unfold decode. destruct (Base64.atob payload) as [s|message]; [|done]. cbn [bindR].
  unfold newUint8Array. f_equal.
  etrans; [exact (store_loop (λ i, (charCodeAt s i mod 256)%Z) [] (String.length s))|].
  apply charCodes_asciiBytes.
Qed.

Lemma decode_isByte (payload : string) (pcmData : list Z) :
  decode payload = Ok pcmData → Forall isByte pcmData.
Proof.
  rewrite decode_atob. destruct (Base64.atob payload) as [s|message]; [|done].
  intros [= <-]. apply asciiBytes_isByte.
Qed.

(** X10. [decode].  [decode] fails exactly when [atob] fails, with the
    same message; otherwise it returns one byte per character of the binary
    string of [atob], each the character code of that character. *)
Theorem decode_bytes (payload : string) :
  decode payload
  = match Base64.atob payload with
    | Ok binaryString => Ok (asciiBytes binaryString)
    | Throw message => Throw message
    end
  ∧ ∀ pcmData, decode payload = Ok pcmData →
      Forall isByte pcmData
      ∧ ∃ binaryString, Base64.atob payload = Ok binaryString
                        ∧ length pcmData = String.length binaryString
                        ∧ ∀ i, i < length pcmData →
                            pcmData !! i = Some (charCodeAt binaryString i).
Proof.
  split; [apply decode_atob|]. intros pcmData Hdecode.
  split; [by apply (decode_isByte payload)|]. revert Hdecode. rewrite decode_atob.
  destruct (Base64.atob payload) as [s|message]; [|done]. intros [= <-].
  exists s. split; [done|].
  assert (Hlen : length (asciiBytes s) = String.length s).
  { rewrite <- charCodes_asciiBytes. by rewrite length_map, length_seq. }
  split; [done|]. intros i Hi.
  rewrite <- charCodes_asciiBytes at 1.
  rewrite list_lookup_fmap, lookup_seq_lt by lia. cbn. f_equal.
  apply Z.mod_small.
  unfold charCodeAt. destruct (String.get i s) as [c|]; [|lia].
  pose proof (nat_ascii_bounded c). lia.
Qed.

(** ** The clips of the speech stage *)

Section Clips.
Context `{Platform}.

Lemma audioLoop_encoded (voices : gmap string string) (blocks : list (DialogueBlock * nat))
    (audioClips clips : list GeneratedAudio.t) (env : Env) :
  (audioLoop voices blocks audioClips env).1 = Ok clips →
  ∃ new, clips = audioClips ++ new ∧ Forall encodedClip new.
Proof.
  rewrite audioLoop_filter.
  assert (Hall : Forall spoken (filter spoken blocks)).
  { apply Forall_forall. intros b Hb. by apply list_elem_of_filter in Hb as [? _]. }
  revert audioClips env Hall.
  induction (filter spoken blocks) as [|[el index] rest IH]; intros acc env Hall.
  - intros [= <-]. exists []. by rewrite app_nil_r.
  - apply Forall_cons in Hall as [Hs Hall]. rewrite audioLoop_spoken by done.
    destruct (generateSpeech _ _ _) as [[audioBase64|message] w]; cbv zeta; [|done].
    destruct (decode audioBase64) as [pcmData|message] eqn:Hdecode; [|done].
    intros Hok. destruct (IH _ _ Hall Hok) as (new & -> & Hnew).
    eexists (_ :: new). rewrite <- app_assoc. split; [done|].
    constructor; [|done]. by exists audioBase64, pcmData.
Qed.

(** X11. The clips of the speech stage.  Every clip of a successful speech
    stage is the encoding of the bytes that a payload decodes to: a file of
    bytes, at least 44 long, whose data size field is the number of bytes
    after the header (modulo 2^32) and whose duration is that number over
    48000. *)
Theorem audioStage_clips_are_wav (script : Script) (premise : StoryElements) (env : Env)
    (clips : list GeneratedAudio.t) :
  (audioStage script premise env).1 = Ok clips →
  Forall (λ clip,
            encodedClip clip
            ∧ Forall isByte (GeneratedAudio.audioBlob clip)
            ∧ 44 ≤ length (GeneratedAudio.audioBlob clip)
            ∧ dataSize (readWavHeader (take 44 (GeneratedAudio.audioBlob clip)))
              = (Z.of_nat (length (GeneratedAudio.audioBlob clip) - 44) mod 2 ^ 32)%Z
            ∧ (GeneratedAudio.duration clip
               == num (Z.of_nat (length (GeneratedAudio.audioBlob clip) - 44)) / num 48000)%Q)
    clips.
Proof.
  unfold audioStage, mbind, M_bind, bind, liftR.
  destruct (assignVoices premise (dialogueBlocks script)) as [st|message]; [|done].
  intros Hok. apply audioLoop_encoded in Hok as (new & -> & Hnew). cbn [List.app].
  eapply Forall_impl; [exact Hnew|]. intros clip Hclip. split; [exact Hclip|].
  destruct Hclip as (payload & pcmData & Hdecode & -> & ->).
  pose proof (length_wavHeaderBytes (Z.of_nat (length pcmData)) SAMPLE_RATE 1 16) as Hlen.
  split.
  { rewrite Forall_app. split; [apply wavHeaderBytes_isByte|].
    by apply (decode_isByte payload). }
  split; [rewrite length_app; lia|].
  rewrite take_app_length' by done. rewrite readWavHeader_any. cbn [dataSize].
  rewrite length_app, Hlen. replace (44 + length pcmData - 44) with (length pcmData) by lia.
  split; [done|]. reflexivity.
Qed.

End Clips.

(** ** Strings *)

Lemma str_app_assoc (a b c : string) : (a +:+ b) +:+ c = a +:+ (b +:+ c).
Proof. induction a as [|x a IH]; [done|]. change (String x ((a +:+ b) +:+ c) = String x (a +:+ b +:+ c)). by f_equal. Qed.

Lemma str_app_nil_r (a : string) : a +:+ "" = a.
Proof. induction a as [|x a IH]; [done|]. change (String x (a +:+ "") = String x a). by f_equal. Qed.

Lemma rev_app_append (s1 s2 : string) : String.rev_app s1 s2 = String.rev s1 +:+ s2.
Proof.
  revert s2. induction s1 as [|c s1 IH]; intros s2; [done|].
  unfold String.rev. cbn [String.rev_app]. rewrite IH, (IH (String c "")).
  by rewrite str_app_assoc.
Qed.

Lemma rev_String (c : ascii) (s : string) : String.rev (String c s) = String.rev s +:+ String c "".
Proof. unfold String.rev at 1. cbn [String.rev_app]. apply rev_app_append. Qed.


Lemma splitGo_none (sep : ascii) (cur s : string) :
  occurs sep s = false → Str.splitGo sep cur s = [String.rev cur +:+ s].
Proof.
  revert cur. induction s as [|c s IH]; intros cur Hs.
  - cbn. by rewrite str_app_nil_r.
  - cbn [occurs] in Hs. apply orb_false_iff in Hs as [Hc Hs].
    cbn [Str.splitGo]. rewrite Hc, IH by done. rewrite rev_String, str_app_assoc. done.
Qed.

Lemma splitGo_first (sep : ascii) (cur a b : string) :
  occurs sep a = false →
  Str.splitGo sep cur (a +:+ String sep b)
  = (String.rev cur +:+ a) :: Str.splitGo sep "" b.
Proof.
  revert cur. induction a as [|c a IH]; intros cur Ha.
  - change ("" +:+ String sep b) with (String sep b). cbn [Str.splitGo].
    rewrite Ascii.eqb_refl. by rewrite str_app_nil_r.
  - cbn [occurs] in Ha. apply orb_false_iff in Ha as [Hc Ha].
    change (String c a +:+ String sep b) with (String c (a +:+ String sep b)).
    cbn [Str.splitGo]. rewrite Hc, IH by done. rewrite rev_String, str_app_assoc. done.
Qed.












Lemma split_data_uri (s : string) :
  Str.split "," (PNG_DATA_URI +:+ s) = "data:image/png;base64" :: Str.split "," s.
Proof.
  unfold Str.split.
  change (PNG_DATA_URI +:+ s) with ("data:image/png;base64" +:+ String ","%char s).
  by rewrite splitGo_first.
Qed.

Lemma split_data_uri_payload (payload : string) :
  occurs "," payload = false →
  Str.split "," (PNG_DATA_URI +:+ payload) !! 1 = Some payload.
Proof. intros Hp. rewrite split_data_uri. unfold Str.split. by rewrite splitGo_none. Qed.

(** X13. The picture stored for an image.  [addImage] changes the archive
    at the path of the image only.  For an image whose address is a PNG data
    URI the entry holds, as base64 data, the part of the address between its
    first and its second comma: the payload itself when the payload has no
    comma, and its part before the first comma otherwise.  For an address
    without a comma the entry holds no data. *)
Theorem image_payload_of_data_uri (zip : gmap string ZipEntry) (sceneIndex : nat)
    (payload : string) :
  let stored url :=
    addImage zip {| GeneratedImage.sceneIndex := sceneIndex; GeneratedImage.imageUrl := url |}
      !! imagePath sceneIndex in
  (∀ url key, key ≠ imagePath sceneIndex →
     addImage zip {| GeneratedImage.sceneIndex := sceneIndex; GeneratedImage.imageUrl := url |}
       !! key = zip !! key)
  ∧ (occurs "," payload = false →
       stored (PNG_DATA_URI +:+ payload) = Some (ZipBase64 (Some payload)))
  ∧ (∀ head tail, occurs "," head = false →
       stored (PNG_DATA_URI +:+ head +:+ "," +:+ tail) = Some (ZipBase64 (Some head)))
  ∧ (∀ url, occurs "," url = false → stored url = Some (ZipBase64 None)).
Proof.
  intros stored. subst stored. unfold addImage, imagePath. cbn [GeneratedImage.sceneIndex
                                                                GeneratedImage.imageUrl].
  split; [intros url key Hkey; by rewrite lookup_insert_ne|].
  rewrite !lookup_insert_eq.
  split; [intros Hp; by rewrite split_data_uri_payload|split].
  - intros head tail Hhead. rewrite lookup_insert_eq, split_data_uri. unfold Str.split.
    change ("," +:+ tail) with (String ","%char tail). by rewrite splitGo_first.
  - intros url Hurl. rewrite lookup_insert_eq. unfold Str.split. by rewrite splitGo_none.
Qed.

(** ** The name of the download *)





(** ** The transcript and the prompt *)

Lemma foldl_append {A} (f : A → string) (init : string) (l : list A) :
  foldl (λ text x, text +:+ f x) init l = init +:+ Str.join "" (f <$> l).
Proof.
  revert init. induction l as [|x l IH]; intros init.
  - cbn. by rewrite str_app_nil_r.
  - cbn [foldl fmap list_fmap]. rewrite IH, str_app_assoc. f_equal.
    destruct l as [|y l]; [cbn; by rewrite str_app_nil_r|done].
Qed.

Lemma join_empty_app (l1 l2 : list string) :
  Str.join "" (l1 ++ l2) = Str.join "" l1 +:+ Str.join "" l2.
Proof.
  induction l1 as [|x l1 IH]; [done|].
  assert (Hcons : ∀ l, Str.join "" (x :: l) = x +:+ Str.join "" l).
  { intros [|y l]; [cbn; by rewrite str_app_nil_r|done]. }
  cbn [app]. by rewrite !Hcons, IH, str_app_assoc.
Qed.

(** X15. The transcript.  The transcript of a script is the title line
    followed by the texts of the scene elements in order; the text of a
    dialogue block is the character in upper case, as [toUpperCase] gives
    it, followed by its lines; and the transcript of a script extended with
    further elements is the transcript of the script followed by the texts
    of those elements. *)
Theorem scriptToText_elements `{Platform} (script : Script) :
  scriptToText (Some script)
  = "Title: " +:+ title script +:+ LF +:+ LF
    +:+ Str.join "" (elementText <$> scene_elements script)
  ∧ (∀ block,
       elementText (DialogueBlockElement block)
       = TAB +:+ String_toUpperCase (character block) +:+ LF
         +:+ Str.join "" (dialogueLine <$> elements block) +:+ LF)
  ∧ (∀ source l1 l2,
       scriptToText (Some {| source_file := source; title := title script;
                             scene_elements := l1 ++ l2 |})
       = scriptToText (Some {| source_file := source; title := title script;
                               scene_elements := l1 |})
         +:+ Str.join "" (elementText <$> l2)).
Proof.
  assert (Htext : ∀ s, scriptToText (Some s)
                       = "Title: " +:+ title s +:+ LF +:+ LF
                         +:+ Str.join "" (elementText <$> scene_elements s)).
  { intros s. unfold scriptToText. rewrite foldl_append.
    by rewrite !str_app_assoc. }
  split; [apply Htext|]. split.
  - intros block. cbn [elementText]. rewrite foldl_append. done.
  - intros source l1 l2. rewrite !Htext. cbn [title scene_elements].
    rewrite fmap_app, join_empty_app. by rewrite !str_app_assoc.
Qed.

Lemma prefix_app (needle rest : string) : String.prefix needle (needle +:+ rest) = true.
Proof.
  induction needle as [|c needle IH]; [by destruct rest|].
  simpl. destruct (ascii_dec c c); [exact IH|congruence].
Qed.

Lemma includes_app (needle before after : string) :
  Str.includes needle (before +:+ needle +:+ after) = true.
Proof.
  induction before as [|c before IH].
  - change ("" +:+ needle +:+ after) with (needle +:+ after).
    destruct (needle +:+ after) eqn:Heq; cbn [Str.includes]; rewrite <- Heq, prefix_app; done.
  - change (String c before +:+ needle +:+ after)
      with (String c (before +:+ needle +:+ after)).
    cbn [Str.includes]. rewrite IH. apply orb_true_r.
Qed.

Lemma app_inj_middle (before after x y : string) :
  before +:+ x +:+ after = before +:+ y +:+ after → x = y.
Proof. intros Heq. apply (inj (String.app before)) in Heq. by apply append_inj_r in Heq. Qed.

(** X16. The prompt of the story.  The prompt contains the three parts of
    the premise and the event as they are, begins with the writer's
    instruction, and differs for different events. *)
Theorem constructFinalPrompt_parts (premise : StoryElements) (inspirationalEvent : string) :
  Forall (λ part, Str.includes part (constructFinalPrompt premise inspirationalEvent) = true)
    [characters premise; story premise; today premise; inspirationalEvent]
  ∧ (∀ other, constructFinalPrompt premise other
              = constructFinalPrompt premise inspirationalEvent →
              other = inspirationalEvent)
  ∧ String.prefix "You are a creative writer for a sci-fi comedy series."
      (constructFinalPrompt premise inspirationalEvent) = true.
Proof.
  split; [|split].
  - unfold constructFinalPrompt. repeat constructor.
    + apply includes_app.
    + rewrite <- !str_app_assoc. rewrite !str_app_assoc.
      match goal with
      | |- Str.includes ?n (?a +:+ ?c +:+ ?b +:+ ?n +:+ ?rest) = true =>
          rewrite <- (str_app_assoc a c (b +:+ n +:+ rest)),
                  <- (str_app_assoc (a +:+ c) b (n +:+ rest))
      end.
      apply includes_app.
    + match goal with
      | |- Str.includes ?n (?a +:+ ?c +:+ ?b +:+ ?s +:+ ?d +:+ ?n +:+ ?rest) = true =>
          rewrite <- (str_app_assoc a c (b +:+ s +:+ d +:+ n +:+ rest)),
                  <- (str_app_assoc (a +:+ c) b (s +:+ d +:+ n +:+ rest)),
                  <- (str_app_assoc ((a +:+ c) +:+ b) s (d +:+ n +:+ rest)),
                  <- (str_app_assoc (((a +:+ c) +:+ b) +:+ s) d (n +:+ rest))
      end.
      apply includes_app.
    + match goal with
      | |- Str.includes ?n (?a +:+ ?c +:+ ?b +:+ ?s +:+ ?d +:+ ?t +:+ ?e +:+ ?n +:+ ?rest)
           = true =>
          rewrite <- (str_app_assoc a c (b +:+ s +:+ d +:+ t +:+ e +:+ n +:+ rest)),
                  <- (str_app_assoc (a +:+ c) b (s +:+ d +:+ t +:+ e +:+ n +:+ rest)),
                  <- (str_app_assoc ((a +:+ c) +:+ b) s (d +:+ t +:+ e +:+ n +:+ rest)),
                  <- (str_app_assoc (((a +:+ c) +:+ b) +:+ s) d (t +:+ e +:+ n +:+ rest)),
                  <- (str_app_assoc ((((a +:+ c) +:+ b) +:+ s) +:+ d) t (e +:+ n +:+ rest)),
                  <- (str_app_assoc (((((a +:+ c) +:+ b) +:+ s) +:+ d) +:+ t) e (n +:+ rest))
      end.
      apply includes_app.
  - intros other. unfold constructFinalPrompt. intros Heq.
    repeat (apply (inj (String.app _)) in Heq). by apply append_inj_r in Heq.
  - unfold constructFinalPrompt.
    match goal with |- String.prefix ?p (?a +:+ ?rest) = true =>
      change a with (p +:+ " Your task is to write a new short movie script based on a series premise and a user-provided event.

**Series Premise:**
---
**Characters:**
") end.
    rewrite str_app_assoc. apply prefix_app.
Qed.

(** ** The entries of the archive *)

Section Entries.
Context {A : Type} (path : A → string) (data : A → ZipEntry).

Lemma foldl_add_dom (zip : gmap string ZipEntry) (l : list A) (key : string) :
  is_Some (foldl (addEntry path data) zip l !! key)
  ↔ is_Some (zip !! key) ∨ key ∈ path <$> l.
Proof.
  induction l as [|y l IH] using rev_ind.
  - cbn. rewrite elem_of_nil. tauto.
  - rewrite foldl_snoc, fmap_app, elem_of_app. unfold addEntry at 1. cbn [fmap list_fmap].
    rewrite list_elem_of_singleton.
    destruct (decide (path y = key)) as [<-|Hne].
    + rewrite lookup_insert_eq. split; [by right; right|by eexists].
    + rewrite lookup_insert_ne by done. rewrite IH. split; [tauto|].
      intros [?|[?|?]]; [tauto|tauto|by subst].
Qed.

Lemma foldl_add_size (zip : gmap string ZipEntry) (l : list A) :
  NoDup (path <$> l) → (∀ x, x ∈ l → zip !! path x = None) →
  size (foldl (addEntry path data) zip l) = size zip + length l.
Proof.
  induction l as [|y l IH] using rev_ind; intros Hnd Hfresh; [cbn; lia|].
  rewrite fmap_app in Hnd. apply NoDup_app in Hnd as (Hnd & Hy & _).
  rewrite foldl_snoc, length_app. unfold addEntry at 1. cbn [length].
  rewrite map_size_insert_None.
  - rewrite IH; [lia|done|]. intros x Hx. apply Hfresh, elem_of_app. by left.
  - apply eq_None_not_Some. rewrite foldl_add_dom. intros [Hzip|Hin].
    + rewrite Hfresh in Hzip; [by destruct Hzip|]. apply elem_of_app. right.
      by apply list_elem_of_singleton.
    + apply (Hy (path y)); [done|]. cbn. by apply list_elem_of_singleton.
Qed.

Lemma foldl_add_latest (zip : gmap string ZipEntry) (l1 l2 : list A) (x : A) :
  path x ∉ path <$> l2 →
  foldl (addEntry path data) zip (l1 ++ x :: l2) !! path x = Some (data x).
Proof.
  intros Hlater. rewrite foldl_app. cbn [foldl]. rewrite foldl_add_other.
  - unfold addEntry. by rewrite lookup_insert_eq.
  - intros y Hy Heq. apply Hlater. rewrite <- Heq. by apply list_elem_of_fmap_2.
Qed.

End Entries.

Lemma assetFileName_not_empty (n : nat) (extension : string) : assetFileName n extension ≠ "".
Proof.
  intros Heq. apply (f_equal String.length) in Heq. unfold assetFileName in Heq.
  rewrite length_append in Heq. pose proof (proj1 (proj2 (padStart_digits n))). cbn in Heq. lia.
Qed.

Lemma imagePath_inj (n m : nat) : imagePath n = imagePath m → n = m.
Proof. unfold imagePath. intros Heq. by apply (inj (String.app "images/")), assetFileName_inj in Heq. Qed.

Lemma audioPath_inj (n m : nat) : audioPath n = audioPath m → n = m.
Proof. unfold audioPath. intros Heq. by apply (inj (String.app "audio/")), assetFileName_inj in Heq. Qed.

Lemma first_char_differs (a b : string) : String.get 0 a ≠ String.get 0 b → a ≠ b.
Proof. by intros Hne ->. Qed.

Lemma imagePath_not_fixed (n : nat) :
  imagePath n ≠ "script.json" ∧ imagePath n ≠ "story.txt" ∧ imagePath n ≠ "images/"
  ∧ imagePath n ≠ "audio/" ∧ ∀ m, imagePath n ≠ audioPath m.
Proof.
  repeat split; try (apply first_char_differs; cbv; discriminate).
  - unfold imagePath. change "images/" with ("images/" +:+ "") at 2.
    intros Heq. apply (inj (String.app "images/")) in Heq. by apply assetFileName_not_empty in Heq.
  - intros m. apply first_char_differs. cbv. discriminate.
Qed.

Lemma audioPath_not_fixed (n : nat) :
  audioPath n ≠ "script.json" ∧ audioPath n ≠ "story.txt" ∧ audioPath n ≠ "images/"
  ∧ audioPath n ≠ "audio/".
Proof.
  repeat split; try (apply first_char_differs; cbv; discriminate).
  unfold audioPath. change "audio/" with ("audio/" +:+ "") at 2.
  intros Heq. apply (inj (String.app "audio/")) in Heq. by apply assetFileName_not_empty in Heq.
Qed.

Section ArchiveFacts.
Context `{Platform}.

Lemma bundleEntries_addEntry (script : Script) (images : list GeneratedImage.t)
    (clips : list GeneratedAudio.t) :
  bundleEntries script images clips
  = foldl (addEntry (λ audio, audioPath (GeneratedAudio.sceneIndex audio))
             (λ audio, ZipBlob (GeneratedAudio.audioBlob audio)))
      (<["audio/" := ZipFolder]>
         (foldl (addEntry (λ img, imagePath (GeneratedImage.sceneIndex img))
                   (λ img, ZipBase64 (Str.split "," (GeneratedImage.imageUrl img) !! 1)))
            (<["images/" := ZipFolder]>
               (<["story.txt" := ZipText (scriptToText (Some script))]>
                  (<["script.json" := ZipText (JSON_stringify script)]> ∅)))
            images))
      clips.
Proof. reflexivity. Qed.

Lemma archive_lookup (script : Script) (images : list GeneratedImage.t)
    (clips : list GeneratedAudio.t) (key : string) :
  is_Some (bundleEntries script images clips !! key)
  ↔ key ∈ ["script.json"; "story.txt"; "images/"; "audio/"]
    ∨ key ∈ (λ img, imagePath (GeneratedImage.sceneIndex img)) <$> images
    ∨ key ∈ (λ audio, audioPath (GeneratedAudio.sceneIndex audio)) <$> clips.
Proof.
  rewrite bundleEntries_addEntry, foldl_add_dom.
  destruct (decide (key = "audio/")) as [->|Haudio].
  { rewrite lookup_insert_eq. split; intros _; left; [by repeat constructor|by eexists]. }
  rewrite lookup_insert_ne by done. rewrite foldl_add_dom.
  destruct (decide (key = "images/")) as [->|Himages].
  { rewrite lookup_insert_eq. split; intros _; left; [by repeat constructor|left; by eexists]. }
  rewrite lookup_insert_ne by done.
  destruct (decide (key = "story.txt")) as [->|Hstory].
  { rewrite lookup_insert_eq. split; intros _; left; [by repeat constructor|left; by eexists]. }
  rewrite lookup_insert_ne by done.
  destruct (decide (key = "script.json")) as [->|Hjson].
  { rewrite lookup_insert_eq. split; intros _; left; [by repeat constructor|left; by eexists]. }
  rewrite lookup_insert_ne by done. rewrite lookup_empty.
  split.
  - intros [[[? ?]|?]|?]; [done|tauto|tauto].
  - intros [Hin|[?|?]]; [|tauto|tauto]. exfalso. revert Hin.
    rewrite !elem_of_cons, elem_of_nil. tauto.
Qed.

Lemma archive_size (script : Script) (images : list GeneratedImage.t)
    (clips : list GeneratedAudio.t) :
  NoDup (GeneratedImage.sceneIndex <$> images) →
  NoDup (GeneratedAudio.sceneIndex <$> clips) →
  size (bundleEntries script images clips) = 4 + length images + length clips.
Proof.
  intros HndI HndA. rewrite bundleEntries_addEntry.
  assert (Hfmap : ∀ {A} (f : A → nat) (g : nat → string) (l : list A),
            (∀ n m, g n = g m → n = m) → NoDup (f <$> l) → NoDup ((λ x, g (f x)) <$> l)).
  { intros A f g l Hg Hnd. change (NoDup (g ∘ f <$> l)). rewrite list_fmap_compose.
    apply NoDup_fmap_2; [|done]. intros n m. apply Hg. }
  rewrite foldl_add_size.
  2:{ apply Hfmap; [apply audioPath_inj|done]. }
  2:{ intros audio _. apply eq_None_not_Some.
      destruct (audioPath_not_fixed (GeneratedAudio.sceneIndex audio)) as (? & ? & ? & ?).
      rewrite lookup_insert_ne by done. rewrite foldl_add_dom.
      rewrite !lookup_insert_ne by done. rewrite lookup_empty.
      intros [[? ?]|Hin]; [done|]. apply list_elem_of_fmap in Hin as (img & Heq & _).
      symmetry in Heq. by apply (proj2 (proj2 (proj2 (proj2 (imagePath_not_fixed _))))) in Heq. }
  rewrite map_size_insert_None.
  2:{ apply eq_None_not_Some. rewrite foldl_add_dom.
      rewrite !lookup_insert_ne by done. rewrite lookup_empty.
      intros [[? ?]|Hin]; [done|]. apply list_elem_of_fmap in Hin as (img & Heq & _).
      symmetry in Heq. by apply (imagePath_not_fixed _) in Heq. }
  rewrite foldl_add_size.
  2:{ apply Hfmap; [apply imagePath_inj|done]. }
  2:{ intros img _.
      destruct (imagePath_not_fixed (GeneratedImage.sceneIndex img)) as (? & ? & ? & ? & ?).
      rewrite !lookup_insert_ne by done. apply lookup_empty. }
  rewrite !map_size_insert_None, map_size_empty; [lia|..]; by rewrite ?lookup_insert_ne.
Qed.

Lemma archive_fixed (script : Script) (images : list GeneratedImage.t)
    (clips : list GeneratedAudio.t) :
  fixedEntries script ⊆ bundleEntries script images clips.
Proof.
  rewrite bundleEntries_addEntry. apply map_subseteq_spec. intros key entry Hkey.
  assert (Hfixed : key ∈ ["script.json"; "story.txt"; "images/"; "audio/"]).
  { rewrite !elem_of_cons, elem_of_nil. unfold fixedEntries in Hkey.
    destruct (decide (key = "audio/")); [tauto|]. rewrite lookup_insert_ne in Hkey by done.
    destruct (decide (key = "images/")); [tauto|]. rewrite lookup_insert_ne in Hkey by done.
    destruct (decide (key = "story.txt")); [tauto|]. rewrite lookup_insert_ne in Hkey by done.
    destruct (decide (key = "script.json")); [tauto|]. rewrite lookup_insert_ne in Hkey by done.
    by rewrite lookup_empty in Hkey. }
  rewrite foldl_add_other.
  2:{ intros audio _ Heq. rewrite <- Heq in Hfixed.
      destruct (audioPath_not_fixed (GeneratedAudio.sceneIndex audio)) as (? & ? & ? & ?).
      revert Hfixed. rewrite !elem_of_cons, elem_of_nil. tauto. }
  rewrite <- Hkey. unfold fixedEntries.
  destruct (decide (key = "audio/")) as [->|Haudio]; [by rewrite !lookup_insert_eq|].
  rewrite !(lookup_insert_ne _ "audio/") by done.
  rewrite foldl_add_other; [done|].
  intros img _ Heq. rewrite <- Heq in Hfixed.
  destruct (imagePath_not_fixed (GeneratedImage.sceneIndex img)) as (? & ? & ? & ? & ?).
  revert Hfixed. rewrite !elem_of_cons, elem_of_nil. tauto.
Qed.

Lemma archive_image (script : Script) (images : list GeneratedImage.t)
    (clips : list GeneratedAudio.t) (img : GeneratedImage.t) :
  NoDup (GeneratedImage.sceneIndex <$> images) →
  img ∈ images →
  bundleEntries script images clips !! imagePath (GeneratedImage.sceneIndex img)
  = Some (ZipBase64 (Str.split "," (GeneratedImage.imageUrl img) !! 1)).
Proof.
  intros Hnd Himg. rewrite bundleEntries_addEntry.
  rewrite foldl_add_other
    by (intros audio _ Heq; symmetry in Heq;
        by apply (proj2 (proj2 (proj2 (proj2 (imagePath_not_fixed _))))) in Heq).
  rewrite lookup_insert_ne by (intros Heq; symmetry in Heq; by apply (imagePath_not_fixed _) in Heq).
  apply (foldl_add_member (λ img, imagePath (GeneratedImage.sceneIndex img))
           (λ img, ZipBase64 (Str.split "," (GeneratedImage.imageUrl img) !! 1))); [done|].
  intros y Hy Heq. apply imagePath_inj in Heq.
  by rewrite (NoDup_fmap_eq _ _ y img Hnd Hy Himg Heq).
Qed.

Lemma archive_audio (script : Script) (images : list GeneratedImage.t)
    (clips : list GeneratedAudio.t) (audio : GeneratedAudio.t) :
  NoDup (GeneratedAudio.sceneIndex <$> clips) →
  audio ∈ clips →
  bundleEntries script images clips !! audioPath (GeneratedAudio.sceneIndex audio)
  = Some (ZipBlob (GeneratedAudio.audioBlob audio)).
Proof.
  intros Hnd Haudio. rewrite bundleEntries_addEntry.
  apply (foldl_add_member (λ audio, audioPath (GeneratedAudio.sceneIndex audio))
           (λ audio, ZipBlob (GeneratedAudio.audioBlob audio))); [done|].
  intros y Hy Heq. apply audioPath_inj in Heq.
  by rewrite (NoDup_fmap_eq _ _ y audio Hnd Hy Haudio Heq).
Qed.

(** X17. The entries of the archive.  With a script, [handleDownloadZip]
    hands to the archive library the script, the transcript and the two
    folders, and an entry exactly at these four paths and at the paths of
    the images and of the clips; with distinct scene indices that is four
    entries plus one per image and per clip, and when two assets share a
    scene index the later one is kept.  When the library generates the
    archive, the error of the state is cleared and the download is offered
    under the safe title, with these entries; when it rejects, nothing is
    offered and the error of the state is the library's message after
    [Failed to create zip file: ].  The rest of the state is as it was. *)
Theorem handleDownloadZip_entries (app : AppState) (script : Script) :
  scriptData app = Some script →
  let entries := bundleEntries script (generatedImages app) (generatedAudio app) in
  handleDownloadZip app
  = match JSZip_generateAsync entries with
    | Ok _ =>
        (setError None app,
         Some {| downloadName := safeTitle (title script) +:+ "_assets.zip";
                 archive := entries |})
    | Throw errorMessage =>
        (setError (Some ("Failed to create zip file: " +:+ errorMessage)) app, None)
    end
  ∧ fixedEntries script ⊆ entries
  ∧ (∀ key, is_Some (entries !! key)
            ↔ key ∈ ["script.json"; "story.txt"; "images/"; "audio/"]
              ∨ key ∈ (λ img, imagePath (GeneratedImage.sceneIndex img))
                        <$> generatedImages app
              ∨ key ∈ (λ audio, audioPath (GeneratedAudio.sceneIndex audio))
                        <$> generatedAudio app)
  ∧ (NoDup (GeneratedImage.sceneIndex <$> generatedImages app) →
     NoDup (GeneratedAudio.sceneIndex <$> generatedAudio app) →
     size entries = 4 + length (generatedImages app) + length (generatedAudio app))
  ∧ (∀ earlier img later,
       generatedImages app = earlier ++ img :: later →
       GeneratedImage.sceneIndex img ∉ GeneratedImage.sceneIndex <$> later →
       entries !! imagePath (GeneratedImage.sceneIndex img)
       = Some (ZipBase64 (Str.split "," (GeneratedImage.imageUrl img) !! 1)))
  ∧ (∀ earlier audio later,
       generatedAudio app = earlier ++ audio :: later →
       GeneratedAudio.sceneIndex audio ∉ GeneratedAudio.sceneIndex <$> later →
       entries !! audioPath (GeneratedAudio.sceneIndex audio)
       = Some (ZipBlob (GeneratedAudio.audioBlob audio))).
Proof.
  intros Hscript entries.
  split; [exact (handleDownloadZip_outcome app script Hscript)|].
  split; [apply archive_fixed|].
  split; [intros key; apply archive_lookup|].
  split; [apply archive_size|].
  subst entries. rewrite bundleEntries_addEntry. split.
  - intros earlier img later Himages Hlater.
    rewrite foldl_add_other
      by (intros audio _ Heq; symmetry in Heq;
          by apply (proj2 (proj2 (proj2 (proj2 (imagePath_not_fixed _))))) in Heq).
    rewrite lookup_insert_ne by (intros Heq; symmetry in Heq; by apply (imagePath_not_fixed _) in Heq).
    rewrite Himages.
    apply (foldl_add_latest (λ img, imagePath (GeneratedImage.sceneIndex img))
             (λ img, ZipBase64 (Str.split "," (GeneratedImage.imageUrl img) !! 1))).
    intros Hin. apply Hlater. apply list_elem_of_fmap in Hin as (y & Heq & Hy).
    apply imagePath_inj in Heq. rewrite Heq. by apply list_elem_of_fmap_2.
  - intros earlier audio later Haudio Hlater. rewrite Haudio.
    apply (foldl_add_latest (λ audio, audioPath (GeneratedAudio.sceneIndex audio))
             (λ audio, ZipBlob (GeneratedAudio.audioBlob audio))).
    intros Hin. apply Hlater. apply list_elem_of_fmap in Hin as (y & Heq & Hy).
    apply audioPath_inj in Heq. rewrite Heq. by apply list_elem_of_fmap_2.
Qed.

End ArchiveFacts.

Section RunThenBundle.
Context `{Platform}.

Lemma clipOf_indices (clips : list GeneratedAudio.t) (blocks : list (DialogueBlock * nat)) :
  Forall2 clipOf clips blocks → GeneratedAudio.sceneIndex <$> clips = blocks.*2.
Proof. induction 1 as [|clip b clips blocks (Hi & _) _ IH]; [done|]. cbn. by rewrite Hi, IH. Qed.

(** The state after a run that reported no error. *)
Lemma handleGenerate_success (app : AppState) (env : Env) (premise : StoryElements) :
  Str.trim (userInput app) ≠ "" →
  storyElements app = Some premise →
  error (handleGenerate app env).1 = None →
  ∃ script,
    scriptData (handleGenerate app env).1 = Some script
    ∧ GeneratedImage.sceneIndex <$> generatedImages (handleGenerate app env).1
      = (scenesWithAction script).*2
    ∧ Forall (λ img, ∃ payload, GeneratedImage.imageUrl img = PNG_DATA_URI +:+ payload)
        (generatedImages (handleGenerate app env).1)
    ∧ Forall2 clipOf (generatedAudio (handleGenerate app env).1)
        (filter spoken (dialogueBlocks script)).
Proof.
  intros Hinput Hpremise. unfold handleGenerate.
  destruct (Str.trim (userInput app)) as [|c s] eqn:Htrim; [done|]. cbn [Str.truthy negb].
  rewrite Hpremise. cbn [userInput characterImages setGeneratedAudio setGeneratedImages
                         setScriptData setError].
  destruct (call _ _ env) as [[script|message] env1]; [|by cbn].
  destruct (imageStage script (characterImages app) env1) as [[images|message] env2] eqn:Hi;
    [|by cbn].
  destruct (audioStage script premise env2) as [[clips|message] env3] eqn:Ha; [|by cbn].
  cbn. intros _. exists script. split; [done|]. split; [|split].
  - apply (imageStage_indices script (characterImages app) env1). by rewrite Hi.
  - destruct (imageLoop_requests script (characterImages app) (scenesWithAction script)
                UNKNOWN_SPEAKER [] env1) as (exchanges & _ & _ & Hres).
    fold (imageStage script (characterImages app) env1) in Hres. rewrite Hi in Hres.
    destruct (Hres images eq_refl) as (_ & new & -> & _ & Hurl). exact Hurl.
  - apply (audioStage_clips script premise env2). by rewrite Ha.
Qed.

(** X18. A run, then the archive.  After a run without error
    [handleDownloadZip] hands to the archive library four entries plus one
    per non-empty action and one per spoken dialogue block: at the image
    path of every non-empty action the picture of a PNG data URI (its
    payload itself when that has no comma), at the audio path of every
    spoken dialogue block a WAV file, and nothing at the audio path of a
    block that is not spoken.  The download is offered exactly when the
    library generates the archive, and then it holds these entries. *)
Theorem handleGenerate_then_handleDownloadZip (app : AppState) (env : Env)
    (premise : StoryElements) :
  Str.trim (userInput app) ≠ "" →
  storyElements app = Some premise →
  error (handleGenerate app env).1 = None →
  let app' := (handleGenerate app env).1 in
  ∃ script,
    scriptData app' = Some script
    ∧ let entries := bundleEntries script (generatedImages app') (generatedAudio app') in
      (∀ download,
         (handleDownloadZip app').2 = Some download
         ↔ isOk (JSZip_generateAsync entries)
           ∧ download = {| downloadName := safeTitle (title script) +:+ "_assets.zip";
                           archive := entries |})
      ∧ size entries
        = 4 + length (scenesWithAction script) + length (filter spoken (dialogueBlocks script))
      ∧ (∀ action i, (action, i) ∈ scenesWithAction script →
           ∃ payload,
             entries !! imagePath i
             = Some (ZipBase64 (Str.split "," (PNG_DATA_URI +:+ payload) !! 1))
             ∧ (occurs "," payload = false →
                  entries !! imagePath i = Some (ZipBase64 (Some payload))))
      ∧ (∀ b, b ∈ dialogueBlocks script →
           if decide (spoken b) then
             ∃ pcmData,
               entries !! audioPath b.2
               = Some (ZipBlob (wavHeaderBytes (Z.of_nat (length pcmData)) SAMPLE_RATE 1 16
                                ++ pcmData))
           else entries !! audioPath b.2 = None).
Proof.
  intros Hinput Hpremise Herror app'.
  destruct (handleGenerate_success app env premise Hinput Hpremise Herror)
    as (script & Hscript & Hindices & Hurls & Hclips).
  fold app' in Hscript, Hindices, Hurls, Hclips.
  pose proof (handleDownloadZip_outcome app' script Hscript) as Hzip.
  pose proof (clipOf_indices _ _ Hclips) as Hcindices.
  assert (HndI : NoDup (GeneratedImage.sceneIndex <$> generatedImages app')).
  { rewrite Hindices. apply increasing_NoDup, scenesWithAction_increasing. }
  assert (HndB : NoDup (dialogueBlocks script).*2).
  { apply increasing_NoDup, dialogueBlocks_increasing. }
  assert (HndA : NoDup (GeneratedAudio.sceneIndex <$> generatedAudio app')).
  { rewrite Hcindices. apply increasing_NoDup, increasing_filter_snd, dialogueBlocks_increasing. }
  exists script. split; [done|]. intros entries. fold entries in Hzip.
  split; [|split; [|split]].
  - intros download. rewrite Hzip.
    destruct (JSZip_generateAsync entries) as [[]|message]; cbn [snd isOk].
    + split; [by intros [= <-]|by intros [_ ->]].
    + split; [done|by intros [[] _]].
  - subst entries. rewrite (archive_size script _ _ HndI HndA).
    apply (f_equal length) in Hindices. apply (f_equal length) in Hcindices.
    rewrite !length_fmap in Hindices. rewrite !length_fmap in Hcindices. lia.
  - intros action i Hin.
    assert (Hi : i ∈ GeneratedImage.sceneIndex <$> generatedImages app').
    { rewrite Hindices. apply list_elem_of_fmap. by exists (action, i). }
    apply list_elem_of_fmap in Hi as (img & -> & Himg).
    rewrite Forall_forall in Hurls. destruct (Hurls img Himg) as [payload Hurl].
    exists payload. subst entries.
    rewrite (archive_image script _ _ img HndI Himg), Hurl.
    split; [done|]. intros Hcomma. by rewrite split_data_uri_payload.
  - intros b Hb. subst entries. destruct (decide (spoken b)) as [Hs|Hs].
    + assert (Hfb : b ∈ filter spoken (dialogueBlocks script)) by (by apply list_elem_of_filter).
      apply list_elem_of_lookup in Hfb as [k Hk].
      destruct (Forall2_lookup_r _ _ _ _ _ Hclips Hk) as (clip & Hclip & Hi & _ & _ & pcmData & Hblob).
      exists pcmData. rewrite <- Hi, <- Hblob.
      apply (archive_audio script _ _ clip HndA).
      by eapply list_elem_of_lookup_2.
    + apply eq_None_not_Some. rewrite archive_lookup.
      destruct (audioPath_not_fixed b.2) as (? & ? & ? & ?).
      rewrite !elem_of_cons, elem_of_nil. intros [?|[Hin|Hin]]; [tauto| |].
      * apply list_elem_of_fmap in Hin as (img & Heq & _). symmetry in Heq.
        by apply (proj2 (proj2 (proj2 (proj2 (imagePath_not_fixed _))))) in Heq.
      * apply list_elem_of_fmap in Hin as (clip & Heq & Hclip). apply audioPath_inj in Heq.
        assert (Hin : b.2 ∈ (filter spoken (dialogueBlocks script)).*2).
        { rewrite <- Hcindices, Heq. by apply list_elem_of_fmap_2. }
        apply list_elem_of_fmap in Hin as (b' & Heq' & Hb').
        apply list_elem_of_filter in Hb' as [Hs' Hb'].
        apply Hs. by rewrite (NoDup_fmap_eq snd _ b b' HndB Hb Hb' Heq').
Qed.

End RunThenBundle.

(** ** The wrappers of the generative service *)

Section GeminiFacts.
Variable W : Type.
Variable generateContent :
  Gemini.GenerateContentRequest → W → Result Gemini.GenerateContentResponse * W.
Variable JSON_parse : string → Result Script.
Variable typeErrorMessage : Gemini.GenerateContentResponse → string.

(** X19. The story request.  [generateStory] makes one request, to
    gemini-2.5-pro, with the prompt as its text.  It returns a script
    exactly when the answer has a non-empty text that parses to it; every
    failure, of the service, of a missing or empty text or of the parser, is
    reported with the same message. *)
Theorem generateStory_outcome (finalPrompt : string) (w : W) :
  let answer := generateContent (storyRequest finalPrompt) w in
  (Gemini.generateStory W generateContent JSON_parse finalPrompt w).2 = answer.2
  ∧ (∀ script,
       (Gemini.generateStory W generateContent JSON_parse finalPrompt w).1 = Ok script
       ↔ ∃ response scriptJson,
           answer.1 = Ok response
           ∧ Gemini.responseText response = Some scriptJson
           ∧ scriptJson ≠ ""
           ∧ JSON_parse scriptJson = Ok script)
  ∧ (∀ message,
       (Gemini.generateStory W generateContent JSON_parse finalPrompt w).1 = Throw message →
       message = Gemini.STORY_ERROR).
Proof.
  cbv zeta. unfold Gemini.generateStory. fold (storyRequest finalPrompt).
  destruct (generateContent (storyRequest finalPrompt) w) as [[response|reason] w'];
    cbn [bindR fst snd].
  2:{ split; [done|]. split; [|by intros message [= <-]].
      intros script. split; [done|]. by intros (? & ? & ? & _). }
  destruct (Gemini.responseText response) as [scriptJson|] eqn:Htext; cbn [fst snd].
  2:{ split; [done|]. split; [|by intros message [= <-]].
      intros script. split; [done|]. intros (? & ? & [= <-] & ? & _). cbn [fst snd]; congruence. }
  destruct scriptJson as [|c s]; cbn [Str.truthy fst snd].
  { split; [done|]. split; [|by intros message [= <-]].
    intros script. split; [done|]. intros (? & ? & [= <-] & ? & ? & _). cbn [fst snd]; congruence. }
  destruct (JSON_parse (String c s)) as [script|reason] eqn:Hparse; cbn [fst snd].
  - split; [done|]. split; [|done]. intros script'. split.
    + intros [= <-]. by exists response, (String c s).
    + intros (? & ? & [= <-] & ? & _ & ?). cbn [fst snd]; congruence.
  - split; [done|]. split; [|by intros message [= <-]].
    intros script. split; [done|]. intros (? & ? & [= <-] & ? & _ & ?). cbn [fst snd]; congruence.
Qed.

(** X20. The image prompt.  [createImagePromptFromAction] makes one
    request and never fails: it returns the trimmed text of the answer, and
    the character followed by the action when the service fails or the
    answer has no text.  An empty text is returned as it is, without the
    fall-back. *)
Theorem createImagePromptFromAction_fallback (character action : string) (w : W) :
  let answer := generateContent (imagePromptRequest character action) w in
  let result :=
    Gemini.createImagePromptFromAction W generateContent typeErrorMessage character action w in
  result.2 = answer.2
  ∧ result.1
    = Ok match answer.1 with
         | Ok response =>
             match Gemini.responseText response with
             | Some text => Str.trim text
             | None => character +:+ " " +:+ action
             end
         | Throw _ => character +:+ " " +:+ action
         end
  ∧ (∀ response, answer.1 = Ok response → Gemini.responseText response = Some "" →
       result.1 = Ok "").
Proof.
  cbv zeta. unfold Gemini.createImagePromptFromAction.
  fold (imagePromptRequest character action).
  destruct (generateContent (imagePromptRequest character action) w) as [[response|reason] w'];
    cbn [bindR fst snd]; [|done].
  destruct (Gemini.responseText response) as [text|] eqn:Htext; cbn [fst snd].
  - split; [done|]. split; [done|]. intros ? [= <-] Hempty.
    rewrite Htext in Hempty. by injection Hempty as ->.
  - split; [done|]. split; [done|]. intros ? [= <-] Hempty. congruence.
Qed.

Lemma firstInlineData_spec (parts : list Gemini.ResponsePart) (data : string) :
  Gemini.firstInlineData parts = Some data
  ↔ ∃ before part after,
      parts = before ++ part :: after
      ∧ Forall (λ p, Gemini.inlineData p = None) before
      ∧ Gemini.inlineData part = Some data.
Proof.
  induction parts as [|p parts IH]; cbn [Gemini.firstInlineData].
  - split; [done|]. intros ([|? ?] & ? & ? & ? & _); done.
  - destruct (Gemini.inlineData p) as [d|] eqn:Hp.
    + split.
      * intros [= <-]. exists [], p, parts. by repeat split.
      * intros ([|q before] & part & after & Heq & Hbefore & Hpart).
        -- injection Heq as <- _. cbn [fst snd]; congruence.
        -- injection Heq as <- _. apply Forall_cons in Hbefore as [Hq _]. cbn [fst snd]; congruence.
    + rewrite IH. split.
      * intros (before & part & after & -> & Hbefore & Hpart).
        exists (p :: before), part, after. split; [done|]. split; [by constructor|done].
      * intros ([|q before] & part & after & Heq & Hbefore & Hpart).
        -- injection Heq as <- _. cbn [fst snd]; congruence.
        -- injection Heq as <- ->. apply Forall_cons in Hbefore as [_ Hbefore].
           by exists before, part, after.
Qed.

Lemma firstInlineData_none (parts : list Gemini.ResponsePart) :
  Gemini.firstInlineData parts = None → Forall (λ p, Gemini.inlineData p = None) parts.
Proof.
  induction parts as [|p parts IH]; [constructor|]. cbn [Gemini.firstInlineData].
  destruct (Gemini.inlineData p) eqn:Hp; [done|]. intros Hrest. constructor; auto.
Qed.

(** X21. The image request.  [generateImage] makes one request whose parts
    are the reference image, when both its data and its type are given and
    non-empty, and then the prompt with the cinematic suffix.  It returns
    the inline data of the first part that has some; a failure is reported
    with the prompt and the reason: the error of the service, the type error
    of a missing candidate, or that no part holds image data. *)
Theorem generateImage_outcome (prompt : string) (characterImageBase64 mimeType : option string)
    (w : W) :
  let reference :=
    match characterImageBase64, mimeType with
    | Some data, Some type =>
        if decide (data ≠ "" ∧ type ≠ "") then [Gemini.InlineDataPart data type] else []
    | _, _ => []
    end in
  let answer := generateContent (imageRequest prompt reference) w in
  let result :=
    Gemini.generateImage W generateContent typeErrorMessage prompt characterImageBase64
      mimeType w in
  result.2 = answer.2
  ∧ (∀ data,
       result.1 = Ok data
       ↔ ∃ response parts before part after,
           answer.1 = Ok response
           ∧ Gemini.candidateParts response = Some parts
           ∧ parts = before ++ part :: after
           ∧ Forall (λ p, Gemini.inlineData p = None) before
           ∧ Gemini.inlineData part = Some data)
  ∧ (∀ message,
       result.1 = Throw message →
       ∃ reason,
         message = Gemini.imageError prompt reason
         ∧ (answer.1 = Throw reason
            ∨ (∃ response,
                 answer.1 = Ok response
                 ∧ Gemini.candidateParts response = None
                 ∧ reason = typeErrorMessage response)
            ∨ (∃ response parts,
                 answer.1 = Ok response
                 ∧ Gemini.candidateParts response = Some parts
                 ∧ Forall (λ p, Gemini.inlineData p = None) parts
                 ∧ reason = "No image data found in the response."))).
Proof.
  cbv zeta. unfold Gemini.generateImage.
  assert (Href : Gemini.referencePart characterImageBase64 mimeType
                 = match characterImageBase64, mimeType with
                   | Some data, Some type =>
                       if decide (data ≠ "" ∧ type ≠ "") then [Gemini.InlineDataPart data type]
                       else []
                   | _, _ => []
                   end).
  { unfold Gemini.referencePart. destruct characterImageBase64 as [[|c d]|]; [| |done];
      destruct mimeType as [[|c' t]|]; try done.
    all: destruct (decide _) as [[? ?]|Hn]; try done.
    all: exfalso; by apply Hn. }
  rewrite Href. clear Href.
  match goal with
  | |- context [generateContent ?r w] =>
      change r with (imageRequest prompt
                       match characterImageBase64, mimeType with
                       | Some data, Some type =>
                           if decide (data ≠ "" ∧ type ≠ "")
                           then [Gemini.InlineDataPart data type] else []
                       | _, _ => []
                       end)
  end.
  destruct (generateContent _ w) as [[response|reason] w']; cbn [bindR fst snd].
  2:{ split; [done|]. split.
      - intros data. split; [done|]. by intros (? & ? & ? & ? & ? & ? & _).
      - intros message [= <-]. exists reason. split; [done|by left]. }
  destruct (Gemini.candidateParts response) as [parts|] eqn:Hparts; cbn [fst snd].
  2:{ split; [done|]. split.
      - intros data. split; [done|]. intros (? & ? & ? & ? & ? & [= <-] & ? & _). cbn [fst snd]; congruence.
      - intros message [= <-]. exists (typeErrorMessage response). split; [done|].
        right. left. by exists response. }
  destruct (Gemini.firstInlineData parts) as [data|] eqn:Hfirst; cbn [fst snd].
  - split; [done|]. split; [|done]. intros data'. split.
    + intros [= <-]. apply firstInlineData_spec in Hfirst as (before & part & after & ? & ? & ?).
      by exists response, parts, before, part, after.
    + intros (? & parts' & before & part & after & [= <-] & Hp & Heq & Hb & Hd).
      assert (parts' = parts) as -> by congruence.
      assert (Gemini.firstInlineData parts = Some data') as Hfirst'.
      { apply firstInlineData_spec. by exists before, part, after. }
      cbn [fst snd]; congruence.
  - split; [done|]. split.
    + intros data. split; [done|].
      intros (? & parts' & before & part & after & [= <-] & Hp & Heq & Hb & Hd).
      assert (parts' = parts) as -> by congruence.
      assert (Gemini.firstInlineData parts = Some data) as Hfirst'.
      { apply firstInlineData_spec. by exists before, part, after. }
      cbn [fst snd]; congruence.
    + intros message [= <-]. eexists. split; [done|]. right. right.
      exists response, parts. split; [done|]. split; [done|]. split; [|done].
      by apply firstInlineData_none.
Qed.

(** X22. The speech request.  [generateSpeech] makes one request with the
    text and the voice.  It returns the inline data of the first part of
    the answer, and only when it is not empty; every failure is reported
    with the same message, which quotes the text. *)
Theorem generateSpeech_outcome (text : string) (voiceName : Property string) (w : W) :
  let answer := generateContent (speechRequest text voiceName) w in
  let result := Gemini.generateSpeech W generateContent text voiceName w in
  result.2 = answer.2
  ∧ (∀ data,
       result.1 = Ok data
       ↔ data ≠ ""
         ∧ ∃ response part parts,
             answer.1 = Ok response
             ∧ Gemini.candidateParts response = Some (part :: parts)
             ∧ Gemini.inlineData part = Some data)
  ∧ (∀ message, result.1 = Throw message → message = Gemini.speechError text).
Proof.
  cbv zeta. unfold Gemini.generateSpeech. fold (speechRequest text voiceName).
  destruct (generateContent (speechRequest text voiceName) w) as [[response|reason] w'];
    cbn [bindR fst snd].
  2:{ split; [done|]. split; [|by intros message [= <-]].
      intros data. split; [done|]. by intros (_ & ? & ? & ? & ? & _). }
  destruct (Gemini.candidateParts response) as [[|part parts]|] eqn:Hparts; cbn.
  - split; [done|]. split; [|by intros message [= <-]].
    intros data. split; [done|]. intros (_ & ? & ? & ? & [= <-] & ? & _). cbn [fst snd]; congruence.
  - destruct (Gemini.inlineData part) as [[|c d]|] eqn:Hdata; cbn.
    + split; [done|]. split; [|by intros message [= <-]].
      intros data. split; [done|]. intros (Hne & ? & ? & ? & [= <-] & ? & ?). cbn [fst snd]; congruence.
    + split; [done|]. split; [|done]. intros data. split.
      * intros [= <-]. split; [done|]. by exists response, part, parts.
      * intros (_ & ? & ? & ? & [= <-] & ? & ?). cbn [fst snd]; congruence.
    + split; [done|]. split; [|by intros message [= <-]].
      intros data. split; [done|]. intros (_ & ? & ? & ? & [= <-] & ? & ?). cbn [fst snd]; congruence.
  - split; [done|]. split; [|by intros message [= <-]].
    intros data. split; [done|]. intros (_ & ? & ? & ? & [= <-] & ? & _). cbn [fst snd]; congruence.
Qed.

End GeminiFacts.

(** ** Reading a feed *)

Lemma validSeed_spec (seed : string) :
  Rss.validSeed seed = true
  ↔ 20 < String.length seed
    ∧ String.prefix "http://" seed = false ∧ String.prefix "https://" seed = false.
Proof.
  unfold Rss.validSeed. rewrite !andb_true_iff, negb_true_iff, orb_false_iff, Nat.ltb_lt.
  split; [tauto|]. intros (Hlen & ? & ?). split; [|done]. split; [|done].
  destruct seed; [cbn in Hlen; lia|done].
Qed.

Section RssFacts.
Variable W : Type.
Variable fetch : string → W → Result Rss.HttpResponse * W.
Variable encodeURIComponent : string → string.
Variable parseXml : string → Rss.XmlDocument.
Variable htmlText : string → string.

Lemma firstSeed_spec (descriptions : list (option string)) :
  match Rss.firstSeed htmlText descriptions with
  | Ok seed =>
      ∃ before htmlContent after,
        descriptions = before ++ Some htmlContent :: after
        ∧ Forall (skipped htmlText) before
        ∧ htmlContent ≠ ""
        ∧ seed = Str.trim (htmlText htmlContent)
        ∧ Rss.validSeed seed = true
  | Throw message =>
      message = "No valid story seed found in any of the RSS items."
      ∧ Forall (skipped htmlText) descriptions
  end.
Proof.
  induction descriptions as [|description rest IH]; cbn [Rss.firstSeed]; [done|].
  assert (Hskip : skipped htmlText description →
            match Rss.firstSeed htmlText rest with
            | Ok seed =>
                ∃ before htmlContent after,
                  description :: rest = before ++ Some htmlContent :: after
                  ∧ Forall (skipped htmlText) before
                  ∧ htmlContent ≠ ""
                  ∧ seed = Str.trim (htmlText htmlContent)
                  ∧ Rss.validSeed seed = true
            | Throw message =>
                message = "No valid story seed found in any of the RSS items."
                ∧ Forall (skipped htmlText) (description :: rest)
            end).
  { intros Hd. destruct (Rss.firstSeed htmlText rest) as [seed|message].
    - destruct IH as (before & html & after & -> & Hb & Hne & Hseed & Hvalid).
      exists (description :: before), html, after. split; [done|]. split; [by constructor|done].
    - destruct IH as [-> Hall]. split; [done|by constructor]. }
  destruct description as [[|c html]|]; cbn [Str.truthy].
  - apply Hskip. by left.
  - destruct (Rss.validSeed (Str.trim (htmlText (String c html)))) eqn:Hvalid.
    + exists [], (String c html), rest. by repeat split.
    + apply Hskip. by right.
  - by apply Hskip.
Qed.

Lemma readFeed_valid (url : string) (w : W) (seed : string) :
  (Rss.readFeed W fetch encodeURIComponent parseXml htmlText url w).1 = Ok seed →
  Rss.validSeed seed = true.
Proof.
  unfold Rss.readFeed.
  destruct (fetch (Rss.CORS_PROXY +:+ encodeURIComponent url) w) as [[response|reason] w'];
    cbn [bindR fst snd]; [|done].
  destruct (Rss.ok response); cbn [negb]; [|done].
  destruct (Rss.body response) as [xmlText|reason]; cbn [bindR]; [|done].
  destruct (parseXml xmlText) as [parserError|[|description rest]]; [done|done|].
  pose proof (firstSeed_spec (description :: rest)) as Hspec. intros Hseed.
  rewrite Hseed in Hspec. by destruct Hspec as (_ & _ & _ & _ & _ & _ & _ & Hvalid).
Qed.

(** X23. Reading a feed.  [fetchDescriptionFromRSS] makes one request,
    through the proxy.  A seed it returns has more than 20 characters, does
    not begin like a web address, and is the trimmed text of the first item
    of the feed that yields such a seed.  Every failure is reported with the
    same message, which names the feed; an answer that is not ok fails
    whatever its body. *)
Theorem fetchDescriptionFromRSS_seed (url : string) (w : W) :
  let answer := fetch (Rss.CORS_PROXY +:+ encodeURIComponent url) w in
  let result := Rss.fetchDescriptionFromRSS W fetch encodeURIComponent parseXml htmlText url w in
  result.2 = answer.2
  ∧ (∀ seed,
       result.1 = Ok seed →
       20 < String.length seed
       ∧ String.prefix "http://" seed = false ∧ String.prefix "https://" seed = false
       ∧ ∃ response xmlText before htmlContent after,
           answer.1 = Ok response
           ∧ Rss.ok response = true
           ∧ Rss.body response = Ok xmlText
           ∧ parseXml xmlText = Rss.Items (before ++ Some htmlContent :: after)
           ∧ Forall (skipped htmlText) before
           ∧ seed = Str.trim (htmlText htmlContent))
  ∧ (∀ message, result.1 = Throw message → message = feedUnavailable url)
  ∧ (∀ response, answer.1 = Ok response → Rss.ok response = false →
       result.1 = Throw (feedUnavailable url)).
Proof.
  cbv zeta. unfold Rss.fetchDescriptionFromRSS, Rss.readFeed.
  destruct (fetch (Rss.CORS_PROXY +:+ encodeURIComponent url) w) as [[response|reason] w'];
    cbn [bindR fst snd].
  2:{ split; [done|]. split; [done|]. split; [by intros ? [= <-]|done]. }
  destruct (Rss.ok response) eqn:Hok; cbn [negb fst snd].
  2:{ split; [done|]. split; [done|]. split; [by intros ? [= <-]|done]. }
  assert (Hok' : ∀ response0 : Rss.HttpResponse,
            Ok response = Ok response0 → Rss.ok response0 = false → False).
  { intros ? [= <-]. congruence. }
  destruct (Rss.body response) as [xmlText|reason] eqn:Hbody; cbn [bindR fst snd].
  2:{ split; [done|]. split; [done|]. split; [by intros ? [= <-]|].
      intros r Hr Hr'. by destruct (Hok' r). }
  destruct (parseXml xmlText) as [parserError|descriptions] eqn:Hxml; cbn [fst snd].
  { split; [done|]. split; [done|]. split; [by intros ? [= <-]|].
    intros r Hr Hr'. by destruct (Hok' r). }
  assert (Hloop : match descriptions with
                  | [] => Throw "No <item> elements found in the RSS feed."
                  | _ :: _ => Rss.firstSeed htmlText descriptions
                  end
                  = match Rss.firstSeed htmlText descriptions with
                    | Ok seed => Ok seed
                    | Throw _ =>
                        match descriptions with
                        | [] => Throw "No <item> elements found in the RSS feed."
                        | _ :: _ => Rss.firstSeed htmlText descriptions
                        end
                    end).
  { destruct descriptions; [done|]. by destruct (Rss.firstSeed _ _). }
  rewrite Hloop. clear Hloop.
  pose proof (firstSeed_spec descriptions) as Hspec.
  destruct (Rss.firstSeed htmlText descriptions) as [seed|message] eqn:Hseed; cbn [fst snd].
  - destruct Hspec as (before & html & after & -> & Hb & Hne & -> & Hvalid).
    split; [done|]. split; [|split; [done|]].
    + intros seed [= <-].
      apply validSeed_spec in Hvalid as (? & ? & ?). repeat split; try done.
      by exists response, xmlText, before, html, after.
    + intros r Hr Hr'. by destruct (Hok' r).
  - destruct descriptions; cbn [fst snd].
    all: split; [done|]; split; [done|]; split; [by intros ? [= <-]|].
    all: intros r Hr Hr'; by destruct (Hok' r).
Qed.

End RssFacts.

(** ** The parts of a fetched premise *)

Section PremiseParts.
Context `{Platform}.

Lemma fetchStoryElements_fields (P : string → Prop) (env : Env) (elements : StoryElements) :
  (∀ url w seed, (rssDescription url w).1 = Ok seed → P seed) →
  (fetchStoryElements env).1 = Ok elements →
  P (characters elements) ∧ P (story elements) ∧ P (today elements).
Proof.
  intros HP. unfold fetchStoryElements. set (x := getDailyVariable env).
  cbn [feedNames map allSettled].
  pose proof (fetchDescriptionFromRSS_outcome (feedUrl x "characters") env) as (_ & _ & Ho1).
  destruct (fetchDescriptionFromRSS (feedUrl x "characters") env) as [rc env1].
  pose proof (fetchDescriptionFromRSS_outcome (feedUrl x "story") env1) as (_ & _ & Ho2).
  destruct (fetchDescriptionFromRSS (feedUrl x "story") env1) as [rs env2].
  pose proof (fetchDescriptionFromRSS_outcome (feedUrl x "today") env2) as (_ & _ & Ho3).
  destruct (fetchDescriptionFromRSS (feedUrl x "today") env2) as [rt env3].
  cbn [fst snd] in *.
  destruct (rssDescription _ (world env)).1 as [a|] eqn:Ha;
    destruct (rssDescription _ (world env1)).1 as [b|] eqn:Hb;
    destruct (rssDescription _ (world env2)).1 as [c|] eqn:Hc; subst rc rs rt; try done.
  intros [= <-]. cbn. repeat split; eapply HP; eassumption.
Qed.

End PremiseParts.

(** ** The application over its services *)

Section LiveFacts.
Variable services : Services.

(** X24. The premise of the application.  Over the services of the source,
    the feed reader of the premise is [fetchDescriptionFromRSS] as the
    source writes it, and the three parts of a fetched premise each have
    more than 20 characters and do not begin like a web address. *)
Theorem live_fetchStoryElements_seeds (env : Env (H := livePlatform services)) :
  (∀ url,
     (fetchDescriptionFromRSS (H := livePlatform services) url env).1
     = (Rss.fetchDescriptionFromRSS (ServiceWorld services) (fetch services)
          (encodeURIComponent services) (parseXml services) (htmlText services) url
          (world env)).1
     ∧ world (fetchDescriptionFromRSS (H := livePlatform services) url env).2
       = (Rss.fetchDescriptionFromRSS (ServiceWorld services) (fetch services)
            (encodeURIComponent services) (parseXml services) (htmlText services) url
            (world env)).2)
  ∧ ∀ elements,
      (fetchStoryElements (H := livePlatform services) env).1 = Ok elements →
      Forall (λ seed, 20 < String.length seed
                      ∧ String.prefix "http://" seed = false
                      ∧ String.prefix "https://" seed = false)
        [characters elements; story elements; today elements].
Proof.
  split.
  - intros url. unfold fetchDescriptionFromRSS, tryCatch, call, request, throw.
    unfold Rss.fetchDescriptionFromRSS. cbn [rssDescription livePlatform]. unfold liveReadFeed.
    by destruct (Rss.readFeed (ServiceWorld services) (fetch services)
                   (encodeURIComponent services) (parseXml services) (htmlText services) url
                   (world env)) as [[seed|reason] w].
  - intros elements Hok.
    destruct (fetchStoryElements_fields (H := livePlatform services)
                (λ seed, 20 < String.length seed
                         ∧ String.prefix "http://" seed = false
                         ∧ String.prefix "https://" seed = false) env elements)
      as (Hc & Hs & Ht); [|done|].
    + intros url w seed Hseed. apply validSeed_spec.
      apply (readFeed_valid (ServiceWorld services) (fetch services)
               (encodeURIComponent services) (parseXml services) (htmlText services) url w).
      exact Hseed.
    + repeat (constructor; [done|]). constructor.
Qed.

(** X25. A run whose story fails.  Over the services of the source, a run
    that starts makes the story request to gemini-2.5-pro.  When the answer
    has a non-empty text that parses to a script, the run keeps that script,
    whatever happens later.  In every other case (the service fails, the
    answer has no text or an empty one, the text does not parse) the run
    ends there: its error is the message of [generateStory], the story
    request is the only one made, and it leaves no script, no image and no
    clip. *)
Theorem live_handleGenerate_story (app : AppState) (env : Env (H := livePlatform services))
    (premise : StoryElements) :
  Str.trim (userInput app) ≠ "" →
  storyElements app = Some premise →
  let finalPrompt := constructFinalPrompt premise (userInput app) in
  let answer := generateContent services (storyRequest finalPrompt) (world env) in
  let run := handleGenerate (H := livePlatform services) app env in
  let parsed script :=
    ∃ response scriptJson,
      answer.1 = Ok response
      ∧ Gemini.responseText response = Some scriptJson
      ∧ scriptJson ≠ ""
      ∧ JSON_parse services scriptJson = Ok script in
  (∀ script, parsed script → scriptData run.1 = Some script)
  ∧ ((∀ script, ¬ parsed script) →
       error run.1 = Some Gemini.STORY_ERROR
       ∧ scriptData run.1 = None
       ∧ generatedImages run.1 = []
       ∧ generatedAudio run.1 = []
       ∧ requests run.2 = requests env ++ [StoryRequest finalPrompt]
       ∧ world run.2 = answer.2).
Proof.
  intros Hinput Hpremise finalPrompt answer run parsed.
  subst run parsed. unfold handleGenerate.
  destruct (Str.trim (userInput app)) as [|c s] eqn:Htrim; [done|]. cbn [Str.truthy negb].
  rewrite Hpremise. cbn [userInput characterImages setGeneratedAudio setGeneratedImages
                         setScriptData setError].
  fold finalPrompt. unfold call, request. cbn [generateStory livePlatform].
  unfold Gemini.generateStory. fold (storyRequest finalPrompt).
  change (generateContent services (storyRequest finalPrompt) (world env)) with answer.
  destruct answer as [[response|reason] w']; cbn [bindR fst snd].
  2:{ split; [by intros script (? & ? & ? & _)|]. intros _. done. }
  destruct (Gemini.responseText response) as [scriptJson|] eqn:Htext.
  2:{ split; [by intros script (? & ? & [= <-] & ? & _); congruence|]. intros _. done. }
  destruct scriptJson as [|c' s']; cbn [Str.truthy].
  { split; [|by intros _].
    intros script (? & ? & [= <-] & ? & ? & _). congruence. }
  destruct (JSON_parse services (String c' s')) as [script|reason] eqn:Hparse.
  - split.
    + intros script' (? & ? & [= <-] & ? & _ & ?).
      assert (script' = script) as -> by congruence.
      destruct (imageStage _ _ _) as [[images|message] env2]; [|done].
      by destruct (audioStage _ _ _) as [[clips|message] env3].
    + intros Hnone. destruct (Hnone script). by exists response, (String c' s').
  - split; [|by intros _].
    intros script (? & ? & [= <-] & ? & _ & ?). congruence.
Qed.

End LiveFacts.

(** ** Further instances *)

(** With the sample services every feed skips its first two items and
    yields the trimmed text of the third. *)
Example live_premise_sample :
  (fetchStoryElements (H := livePlatform sampleServices)
     (initialEnv (H := livePlatform sampleServices) 0)).1
  = Ok {| characters := "A crew of misfits runs a noodle bar on the moon.";
          story := "A crew of misfits runs a noodle bar on the moon.";
          today := "A crew of misfits runs a noodle bar on the moon." |}.
Proof. vm_compute. reflexivity. Qed.

Lemma assignVoices_table_witness :
  ∃ st,
    assignVoices (H := samplePlatform "AAAA") samplePremise (dialogueBlocks sampleScript)
    = Ok st
    ∧ size (characterVoices st) = maleVoiceIndex st + femaleVoiceIndex st.
Proof.
  eexists. split.
  - vm_compute. reflexivity.
  - apply (assignVoices_table (H := samplePlatform "AAAA") samplePremise
             (dialogueBlocks sampleScript)).
    vm_compute. reflexivity.
Defined.

Lemma assignVoices_repeated_speaker_witness :
  character (ursulaBlock, 3).1 ∈ (λ b, character b.1) <$> [(ursulaBlock, 1)]
  ∧ assignVoicesFrom (H := samplePlatform "AAAA") (characters samplePremise)
      initialVoiceState ([(ursulaBlock, 1)] ++ (ursulaBlock, 3) :: [(silentBlock, 2)])
    = assignVoicesFrom (H := samplePlatform "AAAA") (characters samplePremise)
        initialVoiceState ([(ursulaBlock, 1)] ++ [(silentBlock, 2)]).
Proof.
  assert (Hseen : character (ursulaBlock, 3).1 ∈ (λ b, character b.1) <$> [(ursulaBlock, 1)])
    by (cbn; left).
  split; [exact Hseen|].
  exact (assignVoices_repeated_speaker (H := samplePlatform "AAAA") (characters samplePremise)
           initialVoiceState [(ursulaBlock, 1)] [(silentBlock, 2)] (ursulaBlock, 3) Hseen).
Defined.

Lemma handleGenerate_outcome_witness :
  Str.trim (userInput sampleApp) ≠ ""
  ∧ storyElements sampleApp = Some samplePremise
  ∧ userInput (handleGenerate (H := samplePlatform "AAAA") sampleApp
                 (initialEnv (H := samplePlatform "AAAA") 0)).1
    = userInput sampleApp.
Proof.
  assert (Hinput : Str.trim (userInput sampleApp) ≠ "") by (vm_compute; discriminate).
  assert (Hpremise : storyElements sampleApp = Some samplePremise) by reflexivity.
  split; [exact Hinput|]. split; [exact Hpremise|].
  exact (proj1 (handleGenerate_outcome (H := samplePlatform "AAAA") sampleApp
                  (initialEnv (H := samplePlatform "AAAA") 0) samplePremise Hinput Hpremise)).
Defined.

Lemma handleGenerate_requests_witness :
  Str.trim (userInput sampleApp) ≠ ""
  ∧ storyElements sampleApp = Some samplePremise
  ∧ ∃ exchanges speeches,
      requests (handleGenerate (H := samplePlatform "AAAA") sampleApp
                  (initialEnv (H := samplePlatform "AAAA") 0)).2
      = StoryRequest (constructFinalPrompt samplePremise (userInput sampleApp))
        :: exchanges ++ speeches
      ∧ Forall pooledSpeechRequest speeches.
Proof.
  assert (Hinput : Str.trim (userInput sampleApp) ≠ "") by (vm_compute; discriminate).
  assert (Hpremise : storyElements sampleApp = Some samplePremise) by reflexivity.
  split; [exact Hinput|]. split; [exact Hpremise|].
  destruct (handleGenerate_requests (H := samplePlatform "AAAA") sampleApp
              (initialEnv (H := samplePlatform "AAAA") 0) samplePremise Hinput Hpremise)
    as (exchanges & speeches & Hlog & _ & Hpooled & _).
  exists exchanges, speeches. split; [exact Hlog|exact Hpooled].
Defined.

Lemma handleFetchPremise_then_handleGenerate_witness :
  Str.trim (userInput sampleApp) ≠ ""
  ∧ ∃ rest,
      requests
        (handleGenerate (H := samplePlatform "AAAA")
           (handleFetchPremise (H := samplePlatform "AAAA") sampleApp
              (initialEnv (H := samplePlatform "AAAA") 0)).1
           (handleFetchPremise (H := samplePlatform "AAAA") sampleApp
              (initialEnv (H := samplePlatform "AAAA") 0)).2).2
      = [FeedRequest (feedUrl "28" "characters"); FeedRequest (feedUrl "28" "story");
         FeedRequest (feedUrl "28" "today")]
        ++ StoryRequest
             (constructFinalPrompt
                {| characters := "premise from " +:+ feedUrl "28" "characters";
                   story := "premise from " +:+ feedUrl "28" "story";
                   today := "premise from " +:+ feedUrl "28" "today" |}
                (userInput sampleApp)) :: rest.
Proof.
  assert (Hinput : Str.trim (userInput sampleApp) ≠ "") by (vm_compute; discriminate).
  split; [exact Hinput|].
  exact (handleFetchPremise_then_handleGenerate (H := samplePlatform "AAAA") sampleApp
           (initialEnv (H := samplePlatform "AAAA") 0) Hinput).
Defined.

Lemma pcmToWav_any_parameters_witness :
  (0 ≤ 44100 < 2 ^ 53)%Z ∧ (0 ≤ 2 < 2 ^ 53)%Z ∧ (0 ≤ 12 < 2 ^ 53)%Z
  ∧ (44100 * 2 < 2 ^ 53)%Z ∧ (2 * 12 < 2 ^ 53)%Z ∧ (44100 * 2 * 12 < 2 ^ 53)%Z
  ∧ ∃ wav, pcmToWav [1; 2; 3]%Z 44100 2 12 = Ok wav
           ∧ byteRate (readWavHeader (take 44 wav)) = 132300%Z
           ∧ blockAlign (readWavHeader (take 44 wav)) = 3%Z.
Proof.
  assert (Hsr : (0 ≤ 44100 < 2 ^ 53)%Z) by lia. assert (Hnc : (0 ≤ 2 < 2 ^ 53)%Z) by lia.
  assert (Hbps : (0 ≤ 12 < 2 ^ 53)%Z) by lia.
  assert (Hrc : (44100 * 2 < 2 ^ 53)%Z) by lia. assert (Hcb : (2 * 12 < 2 ^ 53)%Z) by lia.
  assert (Hfit : (44100 * 2 * 12 < 2 ^ 53)%Z) by lia.
  split; [exact Hsr|]. split; [exact Hnc|]. split; [exact Hbps|]. split; [exact Hrc|].
  split; [exact Hcb|]. split; [exact Hfit|].
  destruct (pcmToWav_any_parameters [1; 2; 3]%Z 44100 2 12 Hsr Hnc Hbps Hrc Hcb Hfit)
    as (wav & Hwav & _ & _ & _ & Hhdr).
  exists wav. split; [exact Hwav|]. rewrite Hhdr. split; reflexivity.
Defined.

Lemma audioStage_clips_are_wav_witness :
  (audioStage (H := samplePlatform "AAAA") sampleScript samplePremise
     (initialEnv (H := samplePlatform "AAAA") 0)).1
  = Ok [sampleClip]
  ∧ Forall (λ clip, 44 ≤ length (GeneratedAudio.audioBlob clip)) [sampleClip].
Proof.
  assert (Hrun : (audioStage (H := samplePlatform "AAAA") sampleScript samplePremise
                    (initialEnv (H := samplePlatform "AAAA") 0)).1
                 = Ok [sampleClip]) by (vm_compute; reflexivity).
  split; [exact Hrun|].
  eapply Forall_impl;
    [exact (audioStage_clips_are_wav (H := samplePlatform "AAAA") sampleScript samplePremise
              (initialEnv (H := samplePlatform "AAAA") 0) [sampleClip] Hrun)|].
  intros clip Hclip. exact (proj1 (proj2 (proj2 Hclip))).
Defined.


Lemma handleDownloadZip_entries_witness :
  scriptData (handleGenerate (H := samplePlatform "AAAA") sampleApp
                (initialEnv (H := samplePlatform "AAAA") 0)).1
  = Some sampleScript
  ∧ ∃ download,
      (handleDownloadZip (H := samplePlatform "AAAA")
         (handleGenerate (H := samplePlatform "AAAA") sampleApp
            (initialEnv (H := samplePlatform "AAAA") 0)).1).2
      = Some download
      ∧ downloadName download = "hot_bottle_assets.zip"
      ∧ fixedEntries (H := samplePlatform "AAAA") sampleScript ⊆ archive download.
Proof.
  assert (Hscript : scriptData (handleGenerate (H := samplePlatform "AAAA") sampleApp
                                  (initialEnv (H := samplePlatform "AAAA") 0)).1
                    = Some sampleScript) by (vm_compute; reflexivity).
  split; [exact Hscript|].
  destruct (handleDownloadZip_entries (H := samplePlatform "AAAA") _ _ Hscript)
    as (Hzip & Hfixed & _).
  eexists. split; [rewrite Hzip; vm_compute; reflexivity|].
  split; [vm_compute; reflexivity|exact Hfixed].
Defined.

Lemma handleGenerate_then_handleDownloadZip_witness :
  Str.trim (userInput sampleApp) ≠ ""
  ∧ storyElements sampleApp = Some samplePremise
  ∧ error (handleGenerate (H := samplePlatform "AAAA") sampleApp
             (initialEnv (H := samplePlatform "AAAA") 0)).1 = None
  ∧ ∃ script,
      scriptData (handleGenerate (H := samplePlatform "AAAA") sampleApp
                    (initialEnv (H := samplePlatform "AAAA") 0)).1 = Some script
      ∧ size (bundleEntries (H := samplePlatform "AAAA") script
                (generatedImages (handleGenerate (H := samplePlatform "AAAA") sampleApp
                                    (initialEnv (H := samplePlatform "AAAA") 0)).1)
                (generatedAudio (handleGenerate (H := samplePlatform "AAAA") sampleApp
                                   (initialEnv (H := samplePlatform "AAAA") 0)).1))
        = 4 + length (scenesWithAction script) + length (filter spoken (dialogueBlocks script)).
Proof.
  assert (Hinput : Str.trim (userInput sampleApp) ≠ "") by (vm_compute; discriminate).
  assert (Hpremise : storyElements sampleApp = Some samplePremise) by reflexivity.
  assert (Herror : error (handleGenerate (H := samplePlatform "AAAA") sampleApp
                            (initialEnv (H := samplePlatform "AAAA") 0)).1 = None)
    by (vm_compute; reflexivity).
  split; [exact Hinput|]. split; [exact Hpremise|]. split; [exact Herror|].
  destruct (handleGenerate_then_handleDownloadZip (H := samplePlatform "AAAA") sampleApp
              (initialEnv (H := samplePlatform "AAAA") 0) samplePremise Hinput Hpremise Herror)
    as (script & Hscript & _ & Hsize & _).
  exists script. split; [exact Hscript|exact Hsize].
Defined.

Lemma live_handleGenerate_story_witness :
  Str.trim (userInput sampleApp) ≠ ""
  ∧ storyElements sampleApp = Some samplePremise
  ∧ error (handleGenerate (H := livePlatform sampleServices) sampleApp
             (initialEnv (H := livePlatform sampleServices) 0)).1
    = Some Gemini.STORY_ERROR.
Proof.
  assert (Hinput : Str.trim (userInput sampleApp) ≠ "") by (vm_compute; discriminate).
  assert (Hpremise : storyElements sampleApp = Some samplePremise) by reflexivity.
  split; [exact Hinput|]. split; [exact Hpremise|].
  apply (live_handleGenerate_story sampleServices sampleApp
           (initialEnv (H := livePlatform sampleServices) 0) samplePremise Hinput Hpremise).
  intros script (response & scriptJson & Hanswer & _). discriminate Hanswer.
Defined.
